(** * cacherno: the LRU and LFU cache engines

    A shallow embedding of [lru/lru.go] and [lfu/lfu.go].

    Go objects reached through pointers ([*entry]) live in an explicit
    store [mem] indexed by addresses; a pointer is an [option addr], [None]
    being Go's [nil].  Every function of the source becomes a function on
    the cache state that returns a [result]: either the new state (and the
    returned values), or the run-time panic the Go code would raise.  A
    panic ends the execution: no state is observed after it. *)

From stdpp Require Import functions gmap strings list fin_maps.

Set Default Proof Using "Type".

(** ** Go run-time outcomes *)

(** [NilDereference]: a field of a nil pointer is read or written.
    [NilInterface]: a type assertion [x.(T)] is applied to the nil interface.
    [Dangling]: an address outside the store; Go has no such pointers, the
    constructor exists only because [mem] is a partial map. *)
Inductive fault := NilDereference | NilInterface | Dangling.

Inductive result (A : Type) :=
  | Done (a : A)
  | Panic (f : fault).
Arguments Done {A} a.
Arguments Panic {A} f.

#[global] Instance result_ret : MRet result := λ A a, Done a.
#[global] Instance result_bind : MBind result := λ A B k m,
  match m with
  | Done a => k a
  | Panic f => Panic f
  end.

Definition completes {A} (r : result A) : Prop := ∃ a, r = Done a.

#[global] Instance fault_eq_dec : EqDecision fault.
Proof. solve_decision. Defined.

(** Addresses of heap cells, and pointers. *)
Abbreviation addr := nat (only parsing).
Abbreviation ptr := (option nat) (only parsing).

(** [uint] is taken to be 64 bits wide. *)
Definition uint_modulus : N := 2 ^ 64.
Definition wrap (n : N) : N := (n mod uint_modulus)%N.

(** ** Doubly-linked chains in a store

    [dseg m p l q]: in the store [m] the cells at the addresses [l] are
    linked in this order, the first one's back pointer is [p] and the last
    one's forward pointer is [q]. *)
Abbreviation front := hd_error (only parsing).

Definition or_else (x d : ptr) : ptr :=
  match x with
  | Some _ => x
  | None => d
  end.

Section dlist_defs.
Context {E : Type} (prv nxt : E → ptr).

Fixpoint dseg (m : gmap addr E) (p : ptr) (l : list addr) (q : ptr) : Prop :=
  match l with
  | [] => True
  | a :: t =>
      ∃ e, m !! a = Some e ∧ prv e = p ∧ nxt e = or_else (front t) q ∧
           dseg m (Some a) t q
  end.

(** The link fields of the cell at [a]. *)
Definition links (m : gmap addr E) (a : addr) : option (ptr * ptr) :=
  (λ e, (prv e, nxt e)) <$> m !! a.
End dlist_defs.

(** ** [sync.RWMutex], as far as the engines use it *)

(** The two ways the source acquires [c.lock]. *)
Inductive lockCall := Lock | RLock.

Record RWMutex := { writer : bool; readers : nat }.

Definition unlocked : RWMutex := {| writer := false; readers := 0 |}.

(** [acquire m call] is the mutex after the call is granted, [None] when
    the caller has to wait.  ([sync.RWMutex] also holds back new readers
    while a writer is waiting; waiting callers are not part of this
    state.) *)
Definition acquire (m : RWMutex) (call : lockCall) : option RWMutex :=
  match call with
  | Lock =>
      if writer m then None
      else match readers m with
           | O => Some {| writer := true; readers := 0 |}
           | S _ => None
           end
  | RLock =>
      if writer m then None
      else Some {| writer := false; readers := S (readers m) |}
  end.

(** Number of goroutines inside a critical section. *)
Definition holders (m : RWMutex) : nat :=
  (if writer m then 1 else 0) + readers m.

(** ** Calls on the shared contract, [cacherno.go]

    The interface [Cache] has the three methods [Get], [Add] and [Remove];
    a [call] is one invocation, an [outcome] what it returned. *)
Inductive call (K V : Type) :=
  | CallAdd (k : K) (v : V)
  | CallGet (k : K)
  | CallRemove (k : K).
Arguments CallAdd {K V} k v.
Arguments CallGet {K V} k.
Arguments CallRemove {K V} k.

Inductive outcome (V : Type) :=
  | Added (evicted rewritten : bool)
  | Got (v : V) (found : bool)
  | Removed (removed : bool).
Arguments Added {V} evicted rewritten.
Arguments Got {V} v found.
Arguments Removed {V} removed.

(** ** The LRU engine, [lru/lru.go] *)
Module lru.
Section engine.
Context {K : Type} `{Countable K} {V : Type} `{Inhabited V}.

Record entry := Entry {
  key : K;
  value : V;
  prev : ptr;
  next : ptr;
}.

(** [lock] is left out of the state: the functions below are the bodies
    run inside the critical sections. *)
Record Cache := MkCache {
  data : gmap K addr;
  capacity : N;
  head : ptr;
  tail : ptr;
  mem : gmap addr entry;
  brk : addr;
}.

Definition set_value (v : V) (e : entry) : entry :=
  Entry (key e) v (prev e) (next e).
Definition set_prev (p : ptr) (e : entry) : entry :=
  Entry (key e) (value e) p (next e).
Definition set_next (p : ptr) (e : entry) : entry :=
  Entry (key e) (value e) (prev e) p.

Definition set_data (d : gmap K addr) (c : Cache) : Cache :=
  MkCache d (capacity c) (head c) (tail c) (mem c) (brk c).
Definition set_head (p : ptr) (c : Cache) : Cache :=
  MkCache (data c) (capacity c) p (tail c) (mem c) (brk c).
Definition set_tail (p : ptr) (c : Cache) : Cache :=
  MkCache (data c) (capacity c) (head c) p (mem c) (brk c).
Definition set_mem (m : gmap addr entry) (c : Cache) : Cache :=
  MkCache (data c) (capacity c) (head c) (tail c) m (brk c).

(** [*p] *)
Definition load (c : Cache) (p : ptr) : result entry :=
  match p with
  | None => Panic NilDereference
  | Some a =>
      match mem c !! a with
      | Some e => Done e
      | None => Panic Dangling
      end
  end.

(** [p.field = ...] *)
Definition store (c : Cache) (p : ptr) (f : entry → entry) : result Cache :=
  match p with
  | None => Panic NilDereference
  | Some a =>
      match mem c !! a with
      | Some e => Done (set_mem (<[a := f e]> (mem c)) c)
      | None => Panic Dangling
      end
  end.

(** [&entry{key: key, value: value}] *)
Definition new_entry (c : Cache) (k : K) (v : V) : addr * Cache :=
  (brk c,
   MkCache (data c) (capacity c) (head c) (tail c)
     (<[brk c := Entry k v None None]> (mem c)) (S (brk c))).

Definition NewCache (capacity : N) : option Cache * option string :=
  if (capacity <=? 0)%N then (None, Some "must provide a positive size")
  else (Some (MkCache ∅ capacity None None ∅ 0), None).

Definition removeFromList (c : Cache) (node : ptr) : result Cache :=
  n ← load c node;
  c ← match prev n with
      | Some _ => store c (prev n) (set_next (next n))
      | None => Done (set_head (next n) c)
      end;
  n ← load c node;
  match next n with
  | Some _ => store c (next n) (set_prev (prev n))
  | None => Done (set_tail (prev n) c)
  end.

Definition addToFront (c : Cache) (node : ptr) : result Cache :=
  match head c with
  | None => Done (set_tail node (set_head node c))
  | Some _ =>
      c ← store c node (set_next (head c));
      c ← store c node (set_prev None);
      c ← store c (head c) (set_prev node);
      Done (set_head node c)
  end.

Definition moveToFront (c : Cache) (node : ptr) : result Cache :=
  if decide (node = head c) then Done c
  else
    c ← removeFromList c node;
    addToFront c node.

Definition removeTail (c : Cache) : result Cache :=
  match tail c with
  | Some _ =>
      t ← load c (tail c);
      let c := set_data (delete (key t) (data c)) c in
      removeFromList c (tail c)
  | None => Done c
  end.

Definition removeNode (c : Cache) (node : ptr) : result Cache :=
  removeFromList c node.

(** Returns the new state and [(evicted, rewritten)]. *)
Definition Add (c : Cache) (k : K) (v : V) : result (Cache * (bool * bool)) :=
  match data c !! k with
  | Some node =>
      c ← store c (Some node) (set_value v);
      c ← moveToFront c (Some node);
      Done (c, (false, true))
  | None =>
      let '(node, c) := new_entry c k v in
      let c := set_data (<[k := node]> (data c)) c in
      c ← addToFront c (Some node);
      if (capacity c <? N.of_nat (size (data c)))%N then
        c ← removeTail c;
        Done (c, (true, false))
      else Done (c, (false, false))
  end.

Definition Get (c : Cache) (k : K) : result (Cache * (V * bool)) :=
  match data c !! k with
  | Some node =>
      c ← moveToFront c (Some node);
      n ← load c (Some node);
      Done (c, (value n, true))
  | None => Done (c, (inhabitant, false))
  end.

Definition Remove (c : Cache) (k : K) : result (Cache * bool) :=
  match data c !! k with
  | Some node =>
      c ← removeNode c (Some node);
      Done (set_data (delete k (data c)) c, true)
  | None => Done (c, false)
  end.

(** The lock call that opens each public operation. *)
Definition Add_lock : lockCall := Lock.
Definition Get_lock : lockCall := RLock.
Definition Remove_lock : lockCall := Lock.

(** *** States, seen from outside *)

(** What a lookup of [k] finds, without promoting anything. *)
Definition peek (c : Cache) (k : K) : option V :=
  a ← data c !! k; value <$> mem c !! a.

(** The key of the least recently used entry, the one [tail] points to. *)
Definition oldest (c : Cache) : option K :=
  t ← tail c; key <$> mem c !! t.

(** The states a caller can observe: those that completed calls lead
    to, starting from a successful construction. *)
Inductive reachable : Cache → Prop :=
  | reach_NewCache cap c :
      NewCache cap = (Some c, None) → reachable c
  | reach_Add c k v c' r :
      reachable c → Add c k v = Done (c', r) → reachable c'
  | reach_Get c k c' r :
      reachable c → Get c k = Done (c', r) → reachable c'
  | reach_Remove c k c' r :
      reachable c → Remove c k = Done (c', r) → reachable c'.

(** One call, and a sequence of calls made one after the other; a panic
    ends the sequence. *)
Definition step (c : Cache) (x : call K V) : result (Cache * outcome V) :=
  match x with
  | CallAdd k v => '(c, (e, r)) ← Add c k v; Done (c, Added e r)
  | CallGet k => '(c, (v, found)) ← Get c k; Done (c, Got v found)
  | CallRemove k => '(c, b) ← Remove c k; Done (c, Removed b)
  end.

Fixpoint run (c : Cache) (xs : list (call K V))
    : result (Cache * list (outcome V)) :=
  match xs with
  | [] => Done (c, [])
  | x :: xs =>
      '(c, o) ← step c x;
      '(c, os) ← run c xs;
      Done (c, o :: os)
  end.

(** *** Representation invariant *)

Definition payload (m : gmap addr entry) (a : addr) : option (K * V) :=
  (λ e, (key e, value e)) <$> m !! a.
Definition keyof (m : gmap addr entry) (a : addr) : option K :=
  key <$> m !! a.

(** The cells [l], most recent first, form the list between [head] and
    [tail]. *)
Definition listed (l : list addr) (c : Cache) : Prop :=
  NoDup l ∧ dseg prev next (mem c) None l None ∧
  head c = front l ∧ tail c = last l.

(** The index maps exactly the keys of the listed cells to them. *)
Definition indexed (l : list addr) (c : Cache) : Prop :=
  ∀ k a, data c !! k = Some a ↔ a ∈ l ∧ keyof (mem c) a = Some k.

Definition allocated (c : Cache) : Prop :=
  ∀ a, is_Some (mem c !! a) → a < brk c.

Definition shape (l : list addr) (c : Cache) : Prop :=
  listed l c ∧ indexed l c ∧ allocated c.

Definition inv (c : Cache) : Prop :=
  (∃ l, shape l c) ∧
  (N.of_nat (size (data c)) ≤ capacity c)%N ∧ (0 < capacity c)%N.

(** What a call leaves alone when it only relinks cells. *)
Definition relinked (c c' : Cache) : Prop :=
  data c' = data c ∧ capacity c' = capacity c ∧ brk c' = brk c ∧
  ∀ b, payload (mem c') b = payload (mem c) b.

(** *** The recency order

    The keys met when following [next] from the cell [p], for at most
    [fuel] cells. *)
Fixpoint walk (m : gmap addr entry) (p : ptr) (fuel : nat) : list K :=
  match fuel with
  | O => []
  | S n =>
      match p with
      | None => []
      | Some a =>
          match m !! a with
          | Some e => key e :: walk m (next e) n
          | None => []
          end
      end
  end.

(** The keys of the cache as the list holds them, from [head] on. *)
Definition recency (c : Cache) : list K :=
  walk (mem c) (head c) (size (data c)).

End engine.
Arguments entry : clear implicits.
Arguments Cache K {_ _} V.
End lru.

(** ** The LFU engine, [lfu/lfu.go] *)
Module lfu.
Section engine.
Context {K : Type} `{Countable K} {V : Type} `{Inhabited V}.

Record entry := Entry {
  key : K;
  value : V;
  frequency : N;
  prev : ptr;
  next : ptr;
}.

(** A value of type [any] as the engine uses it: the nil interface, or
    an interface that holds a [*entry]; the pointer held may itself be
    nil, and such an interface is not equal to [nil]. *)
Inductive any :=
  | NilAny
  | EntryPtr (p : ptr).

(** [x == nil] for [x] of type [any]. *)
Definition is_nil (x : any) : bool :=
  match x with
  | NilAny => true
  | EntryPtr _ => false
  end.

(** The type assertion of [x] to a pointer to [entry]. *)
Definition assert_entry (x : any) : result ptr :=
  match x with
  | NilAny => Panic NilInterface
  | EntryPtr p => Done p
  end.

(** The fields [prev] and [next] of [frequencyNode] are never read or
    written by the source and are left out. *)
Record frequencyNode := FrequencyNode {
  freq : N;
  head : any;
  tail : any;
}.

(** [frequencies] holds each [*frequencyNode] under exactly one key and
    nowhere else, so the node is kept in the map itself; a missing key
    is the nil [*frequencyNode]. *)
Record Cache := MkCache {
  data : gmap K addr;
  frequencies : gmap N frequencyNode;
  capacity : N;
  minFrequency : N;
  mem : gmap addr entry;
  brk : addr;
}.

Definition set_value (v : V) (e : entry) : entry :=
  Entry (key e) v (frequency e) (prev e) (next e).
Definition set_frequency (f : N) (e : entry) : entry :=
  Entry (key e) (value e) f (prev e) (next e).
Definition set_prev (p : ptr) (e : entry) : entry :=
  Entry (key e) (value e) (frequency e) p (next e).
Definition set_next (p : ptr) (e : entry) : entry :=
  Entry (key e) (value e) (frequency e) (prev e) p.

Definition set_fhead (x : any) (b : frequencyNode) : frequencyNode :=
  FrequencyNode (freq b) x (tail b).
Definition set_ftail (x : any) (b : frequencyNode) : frequencyNode :=
  FrequencyNode (freq b) (head b) x.

Definition set_data (d : gmap K addr) (c : Cache) : Cache :=
  MkCache d (frequencies c) (capacity c) (minFrequency c) (mem c) (brk c).
Definition set_frequencies (fs : gmap N frequencyNode) (c : Cache) : Cache :=
  MkCache (data c) fs (capacity c) (minFrequency c) (mem c) (brk c).
Definition set_minFrequency (f : N) (c : Cache) : Cache :=
  MkCache (data c) (frequencies c) (capacity c) f (mem c) (brk c).
Definition set_mem (m : gmap addr entry) (c : Cache) : Cache :=
  MkCache (data c) (frequencies c) (capacity c) (minFrequency c) m (brk c).

(** [*p] *)
Definition load (c : Cache) (p : ptr) : result entry :=
  match p with
  | None => Panic NilDereference
  | Some a =>
      match mem c !! a with
      | Some e => Done e
      | None => Panic Dangling
      end
  end.

(** [p.field = ...] *)
Definition store (c : Cache) (p : ptr) (f : entry → entry) : result Cache :=
  match p with
  | None => Panic NilDereference
  | Some a =>
      match mem c !! a with
      | Some e => Done (set_mem (<[a := f e]> (mem c)) c)
      | None => Panic Dangling
      end
  end.

(** [freqNode.field = ...] for the node stored under [f]. *)
Definition update_bucket (c : Cache) (f : N)
    (g : frequencyNode → frequencyNode) : Cache :=
  set_frequencies (alter g f (frequencies c)) c.

(** [&entry{key: key, value: value, frequency: 1}] *)
Definition new_entry (c : Cache) (k : K) (v : V) : addr * Cache :=
  (brk c,
   MkCache (data c) (frequencies c) (capacity c) (minFrequency c)
     (<[brk c := Entry k v 1 None None]> (mem c)) (S (brk c))).

Definition NewCache (capacity : N) : option Cache * option string :=
  if (capacity <=? 0)%N then (None, Some "must provide a positive size")
  else (Some (MkCache ∅ ∅ capacity 0 ∅ 0), None).

Definition addToFrequency (c : Cache) (node : ptr) (f : N) : result Cache :=
  let '(freqNode, c) :=
    match frequencies c !! f with
    | Some b => (b, c)
    | None =>
        let b := FrequencyNode f NilAny NilAny in
        (b, set_frequencies (<[f := b]> (frequencies c)) c)
    end in
  if is_nil (head freqNode) then
    Done (update_bucket (update_bucket c f (set_fhead (EntryPtr node)))
            f (set_ftail (EntryPtr node)))
  else
    h ← assert_entry (head freqNode);
    c ← store c node (set_next h);
    h ← assert_entry (head freqNode);
    c ← store c h (set_prev node);
    Done (update_bucket c f (set_fhead (EntryPtr node))).

Definition removeFromFrequency (c : Cache) (node : ptr) : result Cache :=
  n ← load c node;
  let f := frequency n in
  match frequencies c !! f with
  | None => Done c
  | Some _ =>
      c ← match prev n with
          | Some _ => store c (prev n) (set_next (next n))
          | None => Done (update_bucket c f (set_fhead (EntryPtr (next n))))
          end;
      n ← load c node;
      c ← match next n with
          | Some _ => store c (next n) (set_prev (prev n))
          | None => Done (update_bucket c f (set_ftail (EntryPtr (prev n))))
          end;
      freqNode ← match frequencies c !! f with
                 | Some b => Done b
                 | None => Panic Dangling
                 end;
      c ← (if is_nil (head freqNode) then
             n ← load c node;
             Done (set_frequencies (delete (frequency n) (frequencies c)) c)
           else Done c);
      c ← store c node (set_prev None);
      store c node (set_next None)
  end.

Definition evictLeastFrequent (c : Cache) : result Cache :=
  if decide (size (data c) = 0) then Done c
  else
    match frequencies c !! minFrequency c with
    | None => Done c
    | Some freqNode =>
        if is_nil (tail freqNode) then Done c
        else
          leastFreqNode ← assert_entry (tail freqNode);
          c ← removeFromFrequency c leastFreqNode;
          n ← load c leastFreqNode;
          Done (set_data (delete (key n) (data c)) c)
    end.

Definition incrementFrequency (c : Cache) (node : ptr) : result Cache :=
  n ← load c node;
  let oldFreq := frequency n in
  let newFreq := wrap (oldFreq + 1) in
  c ← removeFromFrequency c node;
  c ← store c node (set_frequency newFreq);
  c ← addToFrequency c node newFreq;
  if decide (oldFreq = minFrequency c ∧ frequencies c !! oldFreq = None)
  then Done (set_minFrequency newFreq c)
  else Done c.

(** Returns the new state and [(evicted, rewritten)]. *)
Definition Add (c : Cache) (k : K) (v : V) : result (Cache * (bool * bool)) :=
  match data c !! k with
  | Some node =>
      c ← store c (Some node) (set_value v);
      c ← incrementFrequency c (Some node);
      Done (c, (false, true))
  | None =>
      '(c, evicted) ←
        (if (capacity c <=? N.of_nat (size (data c)))%N then
           c ← evictLeastFrequent c; Done (c, true)
         else Done (c, false));
      let '(newNode, c) := new_entry c k v in
      let c := set_data (<[k := newNode]> (data c)) c in
      c ← addToFrequency c (Some newNode) 1;
      Done (set_minFrequency 1 c, (evicted, false))
  end.

Definition Get (c : Cache) (k : K) : result (Cache * (V * bool)) :=
  match data c !! k with
  | Some node =>
      c ← incrementFrequency c (Some node);
      n ← load c (Some node);
      Done (c, (value n, true))
  | None => Done (c, (inhabitant, false))
  end.

Definition Remove (c : Cache) (k : K) : result (Cache * bool) :=
  match data c !! k with
  | Some node =>
      c ← removeFromFrequency c (Some node);
      Done (set_data (delete k (data c)) c, true)
  | None => Done (c, false)
  end.

(** The lock call that opens each public operation. *)
Definition Add_lock : lockCall := Lock.
Definition Get_lock : lockCall := RLock.
Definition Remove_lock : lockCall := Lock.

(** *** States, seen from outside *)

(** What a lookup of [k] finds, without promoting anything. *)
Definition peek (c : Cache) (k : K) : option V :=
  a ← data c !! k; value <$> mem c !! a.

(** The frequency recorded for [k]. *)
Definition frequency_of (c : Cache) (k : K) : option N :=
  a ← data c !! k; frequency <$> mem c !! a.

(** The frequencies of the live entries, one per indexed key. *)
Definition live_frequencies (c : Cache) : list N :=
  omap (λ ka, frequency <$> mem c !! ka.2) (map_to_list (data c)).

(** The bucket for [f] holds a live entry. *)
Definition populated (c : Cache) (f : N) : Prop :=
  f ∈ live_frequencies c.

(** The states a caller can observe: those that completed calls lead
    to, starting from a successful construction. *)
Inductive reachable : Cache → Prop :=
  | reach_NewCache cap c :
      NewCache cap = (Some c, None) → reachable c
  | reach_Add c k v c' r :
      reachable c → Add c k v = Done (c', r) → reachable c'
  | reach_Get c k c' r :
      reachable c → Get c k = Done (c', r) → reachable c'
  | reach_Remove c k c' r :
      reachable c → Remove c k = Done (c', r) → reachable c'.

(** One call, and a sequence of calls made one after the other; a panic
    ends the sequence. *)
Definition step (c : Cache) (x : call K V) : result (Cache * outcome V) :=
  match x with
  | CallAdd k v => '(c, (e, r)) ← Add c k v; Done (c, Added e r)
  | CallGet k => '(c, (v, found)) ← Get c k; Done (c, Got v found)
  | CallRemove k => '(c, b) ← Remove c k; Done (c, Removed b)
  end.

Fixpoint run (c : Cache) (xs : list (call K V))
    : result (Cache * list (outcome V)) :=
  match xs with
  | [] => Done (c, [])
  | x :: xs =>
      '(c, o) ← step c x;
      '(c, os) ← run c xs;
      Done (c, o :: os)
  end.

(** *** Representation invariant *)

(** The fields of a cell that relinking never touches. *)
Definition fixed (m : gmap addr entry) (a : addr) : option (K * V * N) :=
  (λ e, (key e, value e, frequency e)) <$> m !! a.

(** The node stored under [f] delimits the cells [l]; without a node
    there are no cells. *)
Definition bucket_ok (c : Cache) (f : N) (l : list addr) : Prop :=
  match frequencies c !! f with
  | Some b => head b = EntryPtr (front l) ∧ tail b = EntryPtr (last l)
  | None => l = []
  end.

(** [G f] lists the cells of the bucket for [f], most recently promoted
    first.  The cell [skip], if any, is indexed but currently detached
    from every bucket. *)
Record binv (skip : ptr) (G : N → list addr) (c : Cache) : Prop := {
  binv_nodup : ∀ f, NoDup (G f);
  binv_chain : ∀ f, dseg prev next (mem c) None (G f) None;
  binv_bucket : ∀ f, bucket_ok c f (G f);
  binv_member : ∀ f a, a ∈ G f →
    Some a ≠ skip ∧
    ∃ e, mem c !! a = Some e ∧ frequency e = f ∧ data c !! key e = Some a;
  binv_index : ∀ k a, data c !! k = Some a →
    ∃ e, mem c !! a = Some e ∧ key e = k ∧
         (Some a = skip ∨ a ∈ G (frequency e));
  binv_alloc : ∀ a, is_Some (mem c !! a) → a < brk c;
}.

Definition inv (c : Cache) : Prop :=
  (∃ G, binv None G c) ∧
  (N.of_nat (size (data c)) ≤ capacity c)%N ∧ (0 < capacity c)%N ∧
  (data c ≠ ∅ → minFrequency c = 1%N ∧ is_Some (frequencies c !! 1%N)).

Definition payload (m : gmap addr entry) (a : addr) : option (K * V) :=
  (λ e, (key e, value e)) <$> m !! a.

(** What every completed call leaves alone, apart from the index: the
    capacity, the keys and values of the cells, and the presence of the
    frequency nodes. *)
Definition kept (c c' : Cache) : Prop :=
  capacity c' = capacity c ∧
  (∀ f, is_Some (frequencies c !! f) → is_Some (frequencies c' !! f)) ∧
  ∀ b, is_Some (mem c !! b) → payload (mem c') b = payload (mem c) b.

(** The two halves of [removeFromFrequency], named for the proofs:
    taking the cell out of the chain, and what follows it. *)
Definition unlink (c : Cache) (node : ptr) (n : entry) : result Cache :=
  let f := frequency n in
  c ← match prev n with
      | Some _ => store c (prev n) (set_next (next n))
      | None => Done (update_bucket c f (set_fhead (EntryPtr (next n))))
      end;
  n ← load c node;
  match next n with
  | Some _ => store c (next n) (set_prev (prev n))
  | None => Done (update_bucket c f (set_ftail (EntryPtr (prev n))))
  end.

Definition settle (c : Cache) (node : ptr) (f : N) : result Cache :=
  freqNode ← match frequencies c !! f with
             | Some b => Done b
             | None => Panic Dangling
             end;
  c ← (if is_nil (head freqNode) then
         n ← load c node;
         Done (set_frequencies (delete (frequency n) (frequencies c)) c)
       else Done c);
  c ← store c node (set_prev None);
  store c node (set_next None).

(** *** The order inside a bucket

    The keys met when following [next] from the cell [p], for at most
    [fuel] cells. *)
Fixpoint walk (m : gmap addr entry) (p : ptr) (fuel : nat) : list K :=
  match fuel with
  | O => []
  | S n =>
      match p with
      | None => []
      | Some a =>
          match m !! a with
          | Some e => key e :: walk m (next e) n
          | None => []
          end
      end
  end.

(** The keys of the bucket for [f] as its list holds them, from [head]
    on; no keys when the map has no such bucket. *)
Definition bucket_keys (c : Cache) (f : N) : list K :=
  match frequencies c !! f with
  | Some b =>
      match head b with
      | EntryPtr p => walk (mem c) p (size (data c))
      | NilAny => []
      end
  | None => []
  end.

(** What a call leaves alone when it only relinks cells. *)
Definition relinked (c c' : Cache) : Prop :=
  data c' = data c ∧ capacity c' = capacity c ∧ brk c' = brk c ∧
  minFrequency c' = minFrequency c ∧
  (∀ f, is_Some (frequencies c !! f) → is_Some (frequencies c' !! f)) ∧
  ∀ b, fixed (mem c') b = fixed (mem c) b.

End engine.
Arguments entry : clear implicits.
Arguments Cache K {_ _} V.
End lfu.

(** ** Test scenarios

    The call sequences of [lru_test.go] and [lfu_test.go] that the
    properties below are checked on, with [string] keys and [int] values
    as in the tests. *)
Module scenario.
Open Scope string_scope.

(** [NewCache[string, int](2)] of the LRU engine, and the state after
    [Add("a", 1)]. *)
Definition lru_new2 : lru.Cache string nat :=
  lru.MkCache ∅ 2 None None ∅ 0.
Definition lru_a : lru.Cache string nat :=
  lru.MkCache {["a" := 0]} 2 (Some 0) (Some 0)
    {[0 := lru.Entry "a" 1 None None]} 1.

(** [NewCache[string, int](n)] of the LFU engine, and the state after
    [Add("k1", 1)] on capacity 1. *)
Definition lfu_new (n : N) : lfu.Cache string nat :=
  lfu.MkCache ∅ ∅ n 0 ∅ 0.
Definition lfu_k1 : lfu.Cache string nat :=
  lfu.MkCache {["k1" := 0]}
    {[1%N := lfu.FrequencyNode 1 (lfu.EntryPtr (Some 0)) (lfu.EntryPtr (Some 0))]}
    1 1 {[0 := lfu.Entry "k1" 1 1 None None]} 1.

(** The state [lfu_k1] after [Remove("k1")], after [Get("k1")] and after
    [Add("k1", 7)], and the state after [Add("k1", 1)] on capacity 2. *)
Definition lfu_k1_removed : lfu.Cache string nat :=
  lfu.MkCache ∅
    {[1%N := lfu.FrequencyNode 1 (lfu.EntryPtr None) (lfu.EntryPtr None)]}
    1 1 {[0 := lfu.Entry "k1" 1 1 None None]} 1.
Definition lfu_k1_got : lfu.Cache string nat :=
  lfu.MkCache {["k1" := 0]}
    {[1%N := lfu.FrequencyNode 1 (lfu.EntryPtr None) (lfu.EntryPtr None);
      2%N := lfu.FrequencyNode 2 (lfu.EntryPtr (Some 0)) (lfu.EntryPtr (Some 0))]}
    1 1 {[0 := lfu.Entry "k1" 1 2 None None]} 1.
Definition lfu_k1_rewritten : lfu.Cache string nat :=
  lfu.MkCache {["k1" := 0]}
    {[1%N := lfu.FrequencyNode 1 (lfu.EntryPtr None) (lfu.EntryPtr None);
      2%N := lfu.FrequencyNode 2 (lfu.EntryPtr (Some 0)) (lfu.EntryPtr (Some 0))]}
    1 1 {[0 := lfu.Entry "k1" 7 2 None None]} 1.
Definition lfu2_k1 : lfu.Cache string nat :=
  lfu.MkCache {["k1" := 0]}
    {[1%N := lfu.FrequencyNode 1 (lfu.EntryPtr (Some 0)) (lfu.EntryPtr (Some 0))]}
    2 1 {[0 := lfu.Entry "k1" 1 1 None None]} 1.

(** LRU order. *)
Definition lru_order : list (call string nat) :=
  [CallAdd "a" 1; CallAdd "b" 2; CallGet "a"; CallAdd "c" 3].

(** [TestLFUCache_FrequencyBehavior], up to the eviction. *)
Definition lfu_priority : list (call string nat) :=
  [CallAdd "k1" 1; CallAdd "k2" 2; CallAdd "k3" 3;
   CallGet "k1"; CallGet "k1"; CallGet "k2"; CallAdd "k4" 4].
End scenario.

(** * Proofs *)

(** ** Chains *)
Section dlist.
Context {E : Type} (prv nxt : E → ptr).
Implicit Types (m : gmap addr E) (l : list addr) (p q : ptr) (a b : addr).

Lemma dseg_ext m m' p l q :
  (∀ b, b ∈ l → links prv nxt m' b = links prv nxt m b) →
  dseg prv nxt m p l q → dseg prv nxt m' p l q.
Proof.
  revert p. induction l as [|a t IH]; intros p Hext; [done|].
  simpl. intros (e & He & Hp & Hn & Ht).
  assert (Ha : links prv nxt m' a = links prv nxt m a)
    by (apply Hext; left).
  unfold links in Ha. rewrite He in Ha. simpl in Ha.
  destruct (m' !! a) as [e'|] eqn:He'; [|done].
  simpl in Ha. injection Ha as Hp' Hn'.
  exists e'. split_and!; [done|congruence|congruence|].
  apply IH; [|done]. intros b Hb. apply Hext. by right.
Qed.

Lemma dseg_frame m a e p l q :
  a ∉ l → dseg prv nxt m p l q → dseg prv nxt (<[a := e]> m) p l q.
Proof.
  intros Ha. apply dseg_ext. intros b Hb. unfold links.
  rewrite lookup_insert_ne; [done|]. intros ->. done.
Qed.

Lemma dseg_app m p l1 l2 q :
  dseg prv nxt m p (l1 ++ l2) q ↔
  dseg prv nxt m p l1 (or_else (front l2) q) ∧
  dseg prv nxt m (or_else (last l1) p) l2 q.
Proof.
  revert p. induction l1 as [|a t IH]; intros p; simpl.
  { tauto. }
  split.
  - intros (e & He & Hp & Hn & Ht). apply IH in Ht as [Ht1 Ht2].
    split.
    + exists e. split_and!; [done..| |done].
      rewrite Hn. by destruct t.
    + rewrite last_cons. by destruct (last t).
  - intros [(e & He & Hp & Hn & Ht1) Ht2].
    exists e. split_and!; [done..| |].
    + rewrite Hn. by destruct t.
    + apply IH. split; [done|].
      rewrite last_cons in Ht2. by destruct (last t).
Qed.

(** Redirecting the forward pointer of the last cell. *)
Lemma dseg_set_next_last m p l x q e e' q' :
  x ∉ l → dseg prv nxt m p (l ++ [x]) q →
  m !! x = Some e → prv e' = prv e → nxt e' = q' →
  dseg prv nxt (<[x := e']> m) p (l ++ [x]) q'.
Proof.
  intros Hx Hd He Hp Hn. apply dseg_app in Hd as [Hd1 Hd2].
  apply dseg_app. split.
  - by apply dseg_frame.
  - destruct Hd2 as (e0 & He0 & Hp0 & _ & _). simpl.
    exists e'. rewrite lookup_insert_eq. split_and!; [done| |done..].
    congruence.
Qed.

(** Redirecting the back pointer of the first cell. *)
Lemma dseg_set_prev_first m p x l q e e' p' :
  x ∉ l → dseg prv nxt m p (x :: l) q →
  m !! x = Some e → prv e' = p' → nxt e' = nxt e →
  dseg prv nxt (<[x := e']> m) p' (x :: l) q.
Proof.
  intros Hx (e0 & He0 & _ & Hn0 & Hd) He Hp Hn. simpl.
  exists e'. rewrite lookup_insert_eq. split_and!; [done..| |].
  - congruence.
  - by apply dseg_frame.
Qed.

(** The end pointers of an empty chain are arbitrary. *)
Lemma dseg_nil m p q : dseg prv nxt m p [] q.
Proof. done. Qed.

Lemma dseg_lookup m p l q a :
  dseg prv nxt m p l q → a ∈ l → is_Some (m !! a).
Proof.
  revert p. induction l as [|x t IH]; intros p Hd Ha.
  { by apply elem_of_nil in Ha. }
  destruct Hd as (e & He & _ & _ & Ht).
  apply elem_of_cons in Ha as [->|Ha]; [by eexists|]. by eapply IH.
Qed.
End dlist.

Lemma snoc_cases {A} (l : list A) : l = [] ∨ ∃ l' x, l = l' ++ [x].
Proof.
  destruct l as [|y t] using rev_ind; [by left|right; eauto].
Qed.

Lemma NoDup_drop_middle {A} (l1 l2 : list A) (x : A) :
  NoDup (l1 ++ x :: l2) → NoDup (l1 ++ l2) ∧ x ∉ l1 ++ l2.
Proof.
  intros (Hnd1 & Hdisj & [Hx Hnd2]%NoDup_cons)%NoDup_app. split.
  - apply NoDup_app. split_and!; [done| |done].
    intros y Hy1 Hy2. apply (Hdisj y Hy1). by right.
  - intros [Hin|Hin]%elem_of_app; [|done]. apply (Hdisj x Hin). left.
Qed.

(** ** The LRU engine *)
Section lru_proofs.
Import lru.
Context {K : Type} `{Countable K} {V : Type} `{Inhabited V}.
Implicit Types (c : Cache K V) (l : list addr) (a b : addr) (k : K) (v : V).
Local Abbreviation entry := (entry K V).

Lemma lru_load_Some c a e : mem c !! a = Some e → load c (Some a) = Done e.
Proof. intros He. unfold load. by rewrite He. Qed.

Lemma lru_store_Some c a e f :
  mem c !! a = Some e →
  store c (Some a) f = Done (set_mem (<[a := f e]> (mem c)) c).
Proof. intros He. unfold store. by rewrite He. Qed.

Lemma lru_relinked_refl c : relinked c c.
Proof. by repeat split. Qed.

Lemma lru_relinked_trans c1 c2 c3 :
  relinked c1 c2 → relinked c2 c3 → relinked c1 c3.
Proof.
  intros (?&?&?&H12) (?&?&?&H23).
  split_and!; [congruence..|]. intros b. by rewrite H23.
Qed.

(** Writing a link field of an allocated cell relinks. *)
Lemma lru_relinked_store c a e e' :
  mem c !! a = Some e → key e' = key e → value e' = value e →
  relinked c (set_mem (<[a := e']> (mem c)) c).
Proof.
  intros He Hk Hv. split_and!; [done..|]. simpl. intros b. unfold payload.
  destruct (decide (a = b)) as [->|Hne].
  - rewrite lookup_insert_eq, He. simpl. by rewrite Hk, Hv.
  - by rewrite lookup_insert_ne.
Qed.

Lemma lru_removeFromList_spec c l1 a l2 :
  listed (l1 ++ a :: l2) c →
  ∃ c', removeFromList c (Some a) = Done c' ∧ listed (l1 ++ l2) c' ∧
        relinked c c' ∧ mem c' !! a = mem c !! a.
Proof.
  intros (Hnd & Hch & Hh & Ht).
  apply dseg_app in Hch as [Hch1 Hch2]. simpl in Hch1.
  destruct Hch2 as (e & He & Hp & Hn & Hch2).
  apply NoDup_app in Hnd as (Hnd1 & Hdisj & Hnd2).
  apply NoDup_cons in Hnd2 as [Ha2 Hnd2].
  assert (Ha1 : a ∉ l1) by (intros Hin; apply (Hdisj a Hin); left).
  unfold removeFromList. rewrite (lru_load_Some _ _ _ He). simpl.
  destruct (snoc_cases l1) as [->|(l1' & p & ->)].
  - (* [a] is the head *)
    simpl in Hp, Hh, Ht. rewrite Hp. simpl. rewrite He. simpl.
    destruct l2 as [|n l2']; simpl in Hn; rewrite Hn.
    + eexists. split; [done|]. split_and!; [|by repeat split|done].
      split_and!; [done..| |]; simpl; [done|by rewrite Hp].
    + destruct Hch2 as (en & Hen & Hpn & Hnn & Hch2).
      rewrite (lru_store_Some _ n en); [|done].
      eexists. split; [done|].
      assert (Hna : n ≠ a) by (intros ->; apply Ha2; left).
      apply NoDup_cons in Hnd2 as [Hn2 Hnd2].
      split_and!; simpl.
      * split_and!; simpl; [by apply NoDup_cons|..|done|].
        -- eapply (dseg_set_prev_first _ _ _ (Some a)); [done| |done..].
           simpl. eauto 10.
        -- by rewrite Ht.
      * apply (lru_relinked_trans _ (set_head (Some n) c));
          [by repeat split|].
        by apply (lru_relinked_store (set_head (Some n) c) n en).
      * by rewrite lookup_insert_ne.
  - (* [a] has the predecessor [p] *)
    rewrite last_snoc in Hp. simpl in Hp. rewrite Hp.
    pose proof Hch1 as Hch1'.
    apply dseg_app in Hch1' as [_ (ep & Hep & Hpp & _ & _)].
    pose proof Hnd1 as Hnd1p.
    apply NoDup_app in Hnd1 as (Hnd1 & Hdisj1 & _).
    assert (Hp1 : p ∉ l1') by (intros Hin; apply (Hdisj1 p Hin); left).
    assert (Hpa : p ≠ a).
    { intros ->. apply Ha1. apply elem_of_app. right. left. }
    rewrite (lru_store_Some _ p ep); [|done]. simpl.
    rewrite lookup_insert_ne; [|done]. rewrite He. simpl.
    destruct l2 as [|n l2']; simpl in Hn; rewrite Hn.
    + eexists. split; [done|]. rewrite app_nil_r.
      split_and!; simpl.
      * split_and!; simpl; [done| |..].
        -- eapply dseg_set_next_last; [done..|].
           by destruct ep.
        -- rewrite Hh. rewrite <- app_assoc. by destruct l1'.
        -- by rewrite Hp, last_snoc.
      * apply (lru_relinked_trans _ (set_mem (<[p:=set_next None ep]> (mem c)) c));
          [by apply (lru_relinked_store c p ep)|by repeat split].
      * by rewrite lookup_insert_ne.
    + destruct Hch2 as (en & Hen & Hpn & Hnn & Hch2).
      assert (Hna : n ≠ a) by (intros ->; apply Ha2; left).
      assert (Hnp : p ≠ n).
      { intros ->. apply (Hdisj n); [apply elem_of_app; right; left|].
        right. left. }
      apply NoDup_cons in Hnd2 as [Hn2 Hnd2].
      rewrite (lru_store_Some _ n en); [|by simpl; rewrite lookup_insert_ne].
      eexists. split; [done|].
      split_and!; simpl.
      * split_and!; simpl.
        -- apply NoDup_app. split_and!; [done| |by apply NoDup_cons].
           intros x Hx1 Hx2. apply (Hdisj x Hx1). by right.
        -- apply dseg_app. split.
           ++ apply dseg_frame.
              { intros Hin. apply (Hdisj n Hin). right. left. }
              simpl. eapply dseg_set_next_last; [done..|]. by destruct ep.
           ++ rewrite last_snoc. simpl.
              eapply (dseg_set_prev_first _ _ _ (Some a) n l2' None en);
                [done| | |done..].
              ** apply dseg_frame.
                 { intros Hin. apply (Hdisj p); [apply elem_of_app; right; left|].
                   by right. }
                 simpl. eauto 10.
              ** by rewrite lookup_insert_ne.
        -- rewrite Hh. rewrite <- !app_assoc. by destruct l1'.
        -- rewrite Ht. by rewrite !last_app_cons.
      * apply (lru_relinked_trans _ (set_mem (<[p:=set_next (Some n) ep]> (mem c)) c));
          [by apply (lru_relinked_store c p ep)|].
        apply (lru_relinked_store (set_mem _ c) n en);
          [by simpl; rewrite lookup_insert_ne|done..].
      * rewrite lookup_insert_ne; [|done]. by rewrite lookup_insert_ne.
Qed.

Lemma lru_addToFront_spec c l a e :
  listed l c → a ∉ l → mem c !! a = Some e →
  (l = [] → prev e = None ∧ next e = None) →
  ∃ c', addToFront c (Some a) = Done c' ∧ listed (a :: l) c' ∧
        relinked c c'.
Proof.
  intros (Hnd & Hch & Hh & Ht) Ha He Hnil.
  unfold addToFront. rewrite Hh.
  destruct l as [|h t]; simpl.
  - destruct Hnil as [Hp Hn]; [done|].
    eexists. split; [done|]. split; [|by repeat split].
    split_and!; simpl; [by apply NoDup_cons|by exists e|done..].
  - assert (Hha : a ≠ h) by (intros ->; apply Ha; left).
    pose proof Hch as (eh & Heh & Hph & Hnh & Hch').
    apply NoDup_cons in Hnd as [Hht Hnd'].
    rewrite He. simpl. rewrite lookup_insert_eq. simpl. rewrite Hh. simpl.
    rewrite lookup_insert_ne by done.
    rewrite lookup_insert_ne by done. rewrite Heh. simpl.
    eexists. split; [done|]. split.
    + split_and!; simpl; [apply NoDup_cons; split; [done|by apply NoDup_cons]| |done|].
      * eexists. rewrite lookup_insert_ne by done. rewrite lookup_insert_eq.
        split_and!; [done..|].
        eapply (dseg_set_prev_first _ _ _ None h t None eh); [done| | |done..].
        -- do 2 (apply dseg_frame; [done|]). done.
        -- by rewrite !lookup_insert_ne.
      * by rewrite Ht.
    + split_and!; simpl; [done..|]. intros b. unfold payload.
      destruct (decide (b = h)) as [->|Hbh].
      { rewrite lookup_insert_eq, Heh. done. }
      rewrite lookup_insert_ne by done.
      destruct (decide (b = a)) as [->|Hba].
      { rewrite lookup_insert_eq, He. done. }
      by rewrite !lookup_insert_ne.
Qed.

(** Relinking keeps the index and the allocation bound. *)
Lemma lru_relinked_keyof c c' b :
  relinked c c' → keyof (mem c') b = keyof (mem c) b.
Proof.
  intros (_&_&_&Hpay). specialize (Hpay b). unfold payload, keyof in *.
  destruct (mem c' !! b), (mem c !! b); simpl in *; congruence.
Qed.

Lemma lru_relinked_indexed c c' l l' :
  relinked c c' → (∀ b, b ∈ l' ↔ b ∈ l) → indexed l c → indexed l' c'.
Proof.
  intros Hrel Hl Hidx k a. rewrite (lru_relinked_keyof c c') by done.
  destruct Hrel as (-> & _). rewrite Hl. apply Hidx.
Qed.

Lemma lru_relinked_allocated c c' :
  relinked c c' → allocated c → allocated c'.
Proof.
  intros Hrel Hal a Ha. pose proof (lru_relinked_keyof c c' a Hrel) as Hk.
  destruct Hrel as (_ & _ & -> & _). apply Hal.
  unfold keyof in Hk. destruct Ha as [e He]. rewrite He in Hk.
  destruct (mem c !! a); [by eexists|done].
Qed.

Lemma lru_relinked_peek c c' k :
  relinked c c' → peek c' k = peek c k.
Proof.
  intros (Hd & _ & _ & Hpay). unfold peek. rewrite Hd.
  destruct (data c !! k) as [a|]; [|done]. simpl.
  specialize (Hpay a). unfold payload in Hpay.
  destruct (mem c' !! a), (mem c !! a); simpl in *; congruence.
Qed.

Lemma lru_moveToFront_spec c l a :
  listed l c → a ∈ l →
  ∃ c' l', moveToFront c (Some a) = Done c' ∧ listed l' c' ∧
           relinked c c' ∧ (∀ b, b ∈ l' ↔ b ∈ l) ∧
           mem c' !! a ≫= (λ e, Some (key e, value e)) = payload (mem c) a.
Proof.
  intros Hl Ha. unfold moveToFront.
  destruct (decide (Some a = head c)) as [Heq|Hne].
  { exists c, l. split_and!; [done..|by repeat split|done|].
    unfold payload. by destruct (mem c !! a). }
  apply list_elem_of_split in Ha as (l1 & l2 & ->).
  destruct (lru_removeFromList_spec c l1 a l2 Hl) as (c1 & -> & Hl1 & Hrel1 & Hmem).
  simpl.
  pose proof Hl as (Hnd & Hch & Hh & _).
  apply dseg_app in Hch as [_ (e & He & Hp & Hn & _)].
  apply NoDup_app in Hnd as (Hnd1 & Hdisj & Hnd2).
  apply NoDup_cons in Hnd2 as [Ha2 Hnd2].
  destruct (lru_addToFront_spec c1 (l1 ++ l2) a e) as (c2 & -> & Hl2 & Hrel2).
  - done.
  - intros [Hin|Hin]%elem_of_app; [|done]. apply (Hdisj a Hin). left.
  - congruence.
  - intros [-> ->]%app_eq_nil. simpl in *. by rewrite Hh in Hne.
  - exists c2, (a :: l1 ++ l2). split_and!; [done..| | |].
    + by eapply lru_relinked_trans.
    + intros b. rewrite elem_of_cons, !elem_of_app, elem_of_cons. tauto.
    + pose proof (lru_relinked_trans _ _ _ Hrel1 Hrel2) as (_&_&_&Hpay).
      rewrite <- (Hpay a). unfold payload. by destruct (mem c2 !! a).
Qed.

Lemma lru_shape_lookup c l k a :
  shape l c → data c !! k = Some a →
  a ∈ l ∧ ∃ e, mem c !! a = Some e ∧ key e = k.
Proof.
  intros (_ & Hidx & _) Hk. apply Hidx in Hk as [Ha Hkey]. split; [done|].
  unfold keyof in Hkey. destruct (mem c !! a) as [e|]; [|done].
  exists e. split; [done|]. simpl in Hkey. congruence.
Qed.

Lemma lru_indexed_delete c c' l1 a l2 k :
  NoDup (l1 ++ a :: l2) → indexed (l1 ++ a :: l2) c →
  data c !! k = Some a → data c' = delete k (data c) →
  (∀ b, keyof (mem c') b = keyof (mem c) b) →
  indexed (l1 ++ l2) c'.
Proof.
  intros Hnd Hidx Hk Hd Hkey k' b. rewrite Hd, Hkey.
  apply NoDup_app in Hnd as (_ & Hdisj & [Ha2 _]%NoDup_cons).
  assert (Hb : b ∈ l1 ++ l2 ↔ b ∈ l1 ++ a :: l2 ∧ b ≠ a).
  { rewrite !elem_of_app, elem_of_cons. split.
    - intros [Hin|Hin]; (split; [tauto|intros ->]); [|done].
      apply (Hdisj a Hin). left.
    - tauto. }
  rewrite Hb. pose proof (Hidx k a) as Hka. pose proof (Hidx k' b) as Hkb.
  destruct (decide (k' = k)) as [->|Hne].
  - rewrite lookup_delete_eq. split; [done|]. intros [[Hin Hba] Hkeyb].
    destruct Hba. assert (data c !! k = Some b) by (by apply Hkb).
    congruence.
  - rewrite lookup_delete_ne by done. rewrite Hkb. split; [|tauto].
    intros [Hin Hkeyb]. split_and!; [done| |done]. intros ->.
    apply Hka in Hk as [_ Hk]. congruence.
Qed.

Lemma lru_Get_spec c l k :
  shape l c →
  ∃ c' l',
    Get c k = Done (c', match peek c k with
                        | Some v => (v, true)
                        | None => (inhabitant, false)
                        end) ∧
    shape l' c' ∧ relinked c c' ∧ (data c !! k = None → c' = c).
Proof.
  intros Hs. unfold Get, peek.
  destruct (data c !! k) as [a|] eqn:Hk; simpl.
  - destruct (lru_shape_lookup c l k a Hs Hk) as (Ha & e & He & Hkey).
    destruct Hs as (Hl & Hidx & Hal).
    destruct (lru_moveToFront_spec c l a Hl Ha)
      as (c' & l' & -> & Hl' & Hrel & Hsame & Hpay).
    simpl. unfold payload in Hpay. rewrite He in Hpay. rewrite He. simpl in *.
    destruct (mem c' !! a) as [e'|]; [|done]. simpl in *.
    injection Hpay as _ Hv. rewrite Hv.
    exists c', l'. split_and!; [done| |done..].
    split_and!; [done| |]; [by eapply lru_relinked_indexed|
                            by eapply lru_relinked_allocated].
  - exists c, l. split_and!; [done..|by repeat split|done].
Qed.

Lemma lru_Remove_spec c l k :
  shape l c →
  ∃ c' l',
    Remove c k = Done (c', bool_decide (is_Some (data c !! k))) ∧
    shape l' c' ∧ data c' = delete k (data c) ∧
    capacity c' = capacity c ∧
    (∀ b, payload (mem c') b = payload (mem c) b) ∧
    (data c !! k = None → c' = c).
Proof.
  intros Hs. unfold Remove, removeNode.
  destruct (data c !! k) as [a|] eqn:Hk.
  - destruct (lru_shape_lookup c l k a Hs Hk) as (Ha & e & He & Hkey).
    destruct Hs as (Hl & Hidx & Hal).
    apply list_elem_of_split in Ha as (l1 & l2 & ->).
    destruct (lru_removeFromList_spec c l1 a l2 Hl)
      as (c' & -> & Hl' & Hrel & _).
    simpl.
    pose proof Hrel as (Hd & Hcap & Hbrk & Hpay).
    eexists _, (l1 ++ l2). split_and!; [done| |by simpl; rewrite Hd|done..].
    split_and!.
    + destruct Hl' as (?&?&?&?). by split_and!.
    + eapply (lru_indexed_delete c _ l1 a l2 k); [apply Hl|done..| |].
      * by simpl; rewrite Hd.
      * intros b. simpl. by apply lru_relinked_keyof.
    + apply lru_relinked_allocated in Hrel; [|done].
      intros b. apply Hrel.
  - exists c, l. split_and!; [done..| |done|done|done].
    destruct c; simpl in *. unfold set_data. simpl.
    by rewrite delete_id.
Qed.

(** Overwriting the value of a cell leaves the list as it is. *)
Lemma lru_set_value_spec c l a e v :
  shape l c → mem c !! a = Some e →
  shape l (set_mem (<[a := set_value v e]> (mem c)) c).
Proof.
  intros ((Hnd & Hch & Hh & Ht) & Hidx & Hal) He.
  assert (Hkey : ∀ b, keyof (<[a := set_value v e]> (mem c)) b
                      = keyof (mem c) b).
  { intros b. unfold keyof. destruct (decide (a = b)) as [->|Hne].
    - by rewrite lookup_insert_eq, He.
    - by rewrite lookup_insert_ne. }
  split_and!; simpl.
  - split_and!; simpl; [done| |done..].
    eapply dseg_ext; [|done]. intros b _. unfold links.
    destruct (decide (a = b)) as [->|Hne].
    + by rewrite lookup_insert_eq, He.
    + by rewrite lookup_insert_ne.
  - intros k b. simpl. rewrite Hkey. apply Hidx.
  - intros b. simpl. intros Hb. apply Hal.
    destruct (decide (a = b)) as [->|Hne]; [by eexists|].
    by rewrite lookup_insert_ne in Hb.
Qed.

Lemma lru_Add_present c l k v a :
  shape l c → data c !! k = Some a →
  ∃ c' l',
    Add c k v = Done (c', (false, true)) ∧ shape l' c' ∧
    data c' = data c ∧ capacity c' = capacity c ∧
    peek c' k = Some v ∧ (∀ k', k' ≠ k → peek c' k' = peek c k').
Proof.
  intros Hs Hk. unfold Add. rewrite Hk.
  destruct (lru_shape_lookup c l k a Hs Hk) as (Ha & e & He & Hkey).
  rewrite (lru_store_Some _ a e) by done. simpl.
  pose proof (lru_set_value_spec c l a e v Hs He) as Hs0.
  set (c0 := set_mem (<[a := set_value v e]> (mem c)) c) in *.
  destruct Hs0 as (Hl0 & Hidx0 & Hal0).
  destruct (lru_moveToFront_spec c0 l a Hl0 Ha)
    as (c' & l' & -> & Hl' & Hrel & Hsame & _).
  simpl. exists c', l'. split_and!; [done| | | | |].
  - split_and!; [done| |]; [by eapply lru_relinked_indexed|
                            by eapply lru_relinked_allocated].
  - by destruct Hrel as (-> & _).
  - by destruct Hrel as (_ & -> & _).
  - rewrite (lru_relinked_peek c0 c') by done. unfold peek, c0. simpl.
    rewrite Hk. simpl. by rewrite lookup_insert_eq.
  - intros k' Hne. rewrite (lru_relinked_peek c0 c') by done.
    unfold peek, c0. simpl. destruct (data c !! k') as [b|] eqn:Hk'; [|done].
    simpl. rewrite lookup_insert_ne; [done|]. intros ->.
    destruct (lru_shape_lookup c l k' b Hs Hk') as (_ & e' & He' & Hkey').
    congruence.
Qed.

(** A new cell for a new key, put at the front. *)
Lemma lru_insert_spec c l k v :
  shape l c → data c !! k = None →
  ∃ c2,
    addToFront (set_data (<[k := brk c]> (data c)) (new_entry c k v).2)
      (Some (brk c)) = Done c2 ∧
    shape (brk c :: l) c2 ∧ data c2 = <[k := brk c]> (data c) ∧
    capacity c2 = capacity c ∧
    (∀ b, payload (mem c2) b =
          if decide (b = brk c) then Some (k, v) else payload (mem c) b).
Proof.
  intros ((Hnd & Hch & Hh & Ht) & Hidx & Hal) Hk.
  set (a := brk c).
  set (c1 := set_data (<[k := a]> (data c)) (new_entry c k v).2).
  assert (Hfresh : mem c !! a = None).
  { destruct (mem c !! a) eqn:Hm; [|done].
    assert (a < brk c) by (apply Hal; by eexists). unfold a in *. lia. }
  assert (Hal' : a ∉ l).
  { intros Hin. destruct (dseg_lookup _ _ _ _ _ _ a Hch Hin) as [? Hm].
    congruence. }
  destruct (lru_addToFront_spec c1 l a (Entry k v None None))
    as (c2 & Hadd & Hl2 & Hrel).
  - split_and!; simpl; [done| |done..]. apply dseg_frame; [done|]. done.
  - done.
  - simpl. apply lookup_insert_eq.
  - done.
  - exists c2. destruct Hrel as (Hd & Hcap & Hbrk & Hpay).
    assert (Hpay' : ∀ b, payload (mem c2) b =
              if decide (b = a) then Some (k, v) else payload (mem c) b).
    { intros b. rewrite Hpay. unfold payload. simpl. case_decide as Hb.
      - subst b. by rewrite lookup_insert_eq.
      - by rewrite lookup_insert_ne. }
    split_and!; [done| | done..].
    split_and!; [done| |].
    + intros k' b. rewrite Hd. simpl.
      assert (Hkey : keyof (mem c2) b =
                if decide (b = a) then Some k else keyof (mem c) b).
      { specialize (Hpay' b). unfold payload, keyof in *.
        case_decide; destruct (mem c2 !! b), (mem c !! b);
          simpl in *; congruence. }
      rewrite Hkey, elem_of_cons. pose proof (Hidx k' b) as Hkb.
      destruct (decide (k' = k)) as [->|Hne].
      * rewrite lookup_insert_eq. split.
        -- intros [= <-]. rewrite decide_True by done. tauto.
        -- intros [[->|Hin] Hkey']; [done|].
           case_decide; [congruence|].
           assert (data c !! k = Some b) by (by apply Hkb). congruence.
      * rewrite lookup_insert_ne by done. rewrite Hkb. split.
        -- intros [Hin Hkey']. rewrite decide_False by congruence. tauto.
        -- intros [[->|Hin] Hkey'].
           ++ rewrite decide_True in Hkey' by done. congruence.
           ++ rewrite decide_False in Hkey' by congruence. done.
    + intros b Hb. rewrite Hbrk. simpl.
      assert (Hb' : is_Some (payload (mem c2) b)).
      { unfold payload. destruct Hb as [? ->]. by eexists. }
      rewrite Hpay' in Hb'. case_decide; [subst; unfold a; lia|].
      assert (b < brk c); [|lia]. apply Hal. unfold payload in Hb'.
      destruct (mem c !! b); [by eexists|by destruct Hb'].
Qed.

Lemma lru_removeTail_spec c l :
  shape l c → l ≠ [] →
  ∃ c' l' t e,
    tail c = Some t ∧ mem c !! t = Some e ∧ data c !! key e = Some t ∧
    removeTail c = Done c' ∧ shape l' c' ∧
    data c' = delete (key e) (data c) ∧ capacity c' = capacity c ∧
    (∀ b, payload (mem c') b = payload (mem c) b).
Proof.
  intros (Hl & Hidx & Hal) Hne.
  destruct (snoc_cases l) as [->|(l1 & t & ->)]; [done|].
  pose proof Hl as (Hnd & Hch & Hh & Ht). rewrite last_snoc in Ht.
  destruct (dseg_lookup _ _ _ _ _ _ t Hch) as [e He].
  { apply elem_of_app. right. left. }
  assert (Hk : data c !! key e = Some t).
  { apply Hidx. split; [apply elem_of_app; right; left|].
    unfold keyof. by rewrite He. }
  unfold removeTail. rewrite Ht. simpl. rewrite He. simpl.
  set (c0 := set_data (delete (key e) (data c)) c).
  destruct (lru_removeFromList_spec c0 l1 t []) as (c' & Hrm & Hl' & Hrel & _).
  { unfold listed. simpl. rewrite last_snoc. by split_and!. }
  change (tail c0) with (tail c). rewrite Ht, Hrm.
  rewrite app_nil_r in Hl'.
  pose proof Hrel as (Hd & Hcap & Hbrk & Hpay).
  exists c', l1, t, e. split_and!; [done..| |done|done|done].
  split_and!; [done| |].
  - rewrite <- (app_nil_r l1).
    apply (lru_indexed_delete c c' l1 t [] (key e)); [done..| |].
    + by rewrite Hd.
    + intros b. by apply (lru_relinked_keyof c0 c').
  - apply (lru_relinked_allocated c0 c'); done.
Qed.

Lemma lru_shape_nonempty c l k a :
  shape l c → data c !! k = Some a → l ≠ [].
Proof.
  intros Hs Hk. destruct (lru_shape_lookup c l k a Hs Hk) as [Ha _].
  intros ->. by apply elem_of_nil in Ha.
Qed.

Lemma lru_Add_absent c l k v :
  shape l c → data c !! k = None →
  (N.of_nat (size (data c)) ≤ capacity c)%N → (0 < capacity c)%N →
  ∃ c' l',
    shape l' c' ∧ capacity c' = capacity c ∧ peek c' k = Some v ∧
    (N.of_nat (size (data c')) ≤ capacity c')%N ∧
    if decide (N.of_nat (size (data c)) = capacity c) then
      ∃ victim, oldest c = Some victim ∧ victim ≠ k ∧
        is_Some (data c !! victim) ∧
        Add c k v = Done (c', (true, false)) ∧
        data c' = delete victim (<[k := brk c]> (data c))
    else
      Add c k v = Done (c', (false, false)) ∧
      data c' = <[k := brk c]> (data c).
Proof.
  intros Hs Hk Hsz Hcap.
  destruct (lru_insert_spec c l k v Hs Hk) as (c2 & Hadd & Hs2 & Hd2 & Hcap2 & Hpay2).
  unfold Add. rewrite Hk. simpl in *. rewrite Hadd. simpl.
  assert (Hsize2 : size (data c2) = S (size (data c))).
  { rewrite Hd2. by apply map_size_insert_None. }
  assert (Hpeek2 : peek c2 k = Some v).
  { unfold peek. rewrite Hd2, lookup_insert_eq. simpl.
    specialize (Hpay2 (brk c)). rewrite decide_True in Hpay2 by done.
    unfold payload in Hpay2. destruct (mem c2 !! brk c); simpl in *; congruence. }
  rewrite Hcap2, Hsize2.
  case_decide as Hfull.
  - rewrite (proj2 (N.ltb_lt _ _)) by lia.
    destruct (lru_removeTail_spec c2 (brk c :: l) Hs2)
      as (c' & l' & t & e & Ht & He & Hkt & -> & Hs' & Hd' & Hcap' & Hpay'); [done|].
    simpl.
    assert (Hne : l ≠ []).
    { destruct (map_size_ne_0_lookup_1 (data c)) as (k0 & a0 & Hk0); [lia|].
      by eapply lru_shape_nonempty. }
    assert (Htl : tail c = Some t).
    { destruct Hs as ((_&_&_&Htc) & _), Hs2 as ((_&_&_&Htc2) & _).
      rewrite Htc, <- Ht, Htc2. rewrite last_cons.
      destruct (last l) eqn:Hlast; [done|]. by apply last_None in Hlast. }
    assert (Htb : t ≠ brk c).
    { intros ->. destruct Hs as ((_&Hch&_&Htc) & _ & Hal).
      assert (brk c ∈ l) as Hin by (apply last_Some_elem_of; congruence).
      destruct (dseg_lookup _ _ _ _ _ _ _ Hch Hin) as [? Hm].
      assert (brk c < brk c) by (apply Hal; by eexists). lia. }
    assert (Hkey : key <$> mem c !! t = Some (key e)).
    { specialize (Hpay2 t). rewrite decide_False in Hpay2 by done.
      unfold payload in Hpay2. rewrite He in Hpay2.
      destruct (mem c !! t); simpl in *; congruence. }
    assert (Hvk : key e ≠ k).
    { intros Heq. rewrite Hd2, Heq, lookup_insert_eq in Hkt. congruence. }
    exists c', l'. split_and!; [done|congruence| | |].
    + unfold peek. rewrite Hd', lookup_delete_ne, Hd2, lookup_insert_eq by done.
      simpl. specialize (Hpay' (brk c)). unfold payload in Hpay'.
      unfold peek in Hpeek2. rewrite Hd2, lookup_insert_eq in Hpeek2.
      simpl in Hpeek2.
      destruct (mem c' !! brk c), (mem c2 !! brk c); simpl in *; congruence.
    + rewrite Hd', Hcap', Hcap2.
      rewrite map_size_delete_Some by (by eexists). lia.
    + exists (key e). split_and!; [|done| |done|congruence].
      * unfold oldest. rewrite Htl. done.
      * rewrite Hd2, lookup_insert_ne in Hkt by done. by eexists.
  - rewrite (proj2 (N.ltb_ge _ _)) by lia. simpl.
    exists c2, (brk c :: l). split_and!; try done.
    rewrite Hcap2, Hsize2. lia.
Qed.

(** *** Every reachable state satisfies the invariant *)

Lemma lru_NewCache_inv cap c : NewCache cap = (Some c, None) → inv c.
Proof.
  unfold NewCache. destruct (cap <=? 0)%N eqn:Hcap; [done|].
  intros [= <-]. apply N.leb_gt in Hcap.
  split_and!; simpl; [|rewrite map_size_empty; lia|done].
  exists []. split_and!; simpl.
  - split_and!; simpl; [constructor|done..].
  - intros k a. simpl. rewrite lookup_empty. split; [done|].
    intros [Hin _]. by apply elem_of_nil in Hin.
  - intros a [? Ha]. simpl in Ha. by rewrite lookup_empty in Ha.
Qed.

Lemma lru_Add_inv c k v :
  inv c → ∃ c' r, Add c k v = Done (c', r) ∧ inv c'.
Proof.
  intros ([l Hs] & Hsz & Hcap).
  destruct (data c !! k) as [a|] eqn:Hk.
  - destruct (lru_Add_present c l k v a Hs Hk)
      as (c' & l' & HAdd & Hs' & Hd & Hc & _).
    exists c', (false, true). split; [done|].
    split_and!; [by exists l'|by rewrite Hd, Hc|by rewrite Hc].
  - destruct (lru_Add_absent c l k v Hs Hk Hsz Hcap)
      as (c' & l' & Hs' & Hc & _ & Hsz' & Hres).
    case_decide.
    + destruct Hres as (victim & _ & _ & _ & HAdd & _).
      exists c', (true, false). split; [done|].
      split_and!; [by exists l'|done|by rewrite Hc].
    + destruct Hres as (HAdd & _).
      exists c', (false, false). split; [done|].
      split_and!; [by exists l'|done|by rewrite Hc].
Qed.

Lemma lru_Get_inv c k :
  inv c → ∃ c' r, Get c k = Done (c', r) ∧ inv c'.
Proof.
  intros ([l Hs] & Hsz & Hcap).
  destruct (lru_Get_spec c l k Hs) as (c' & l' & HGet & Hs' & (Hd & Hc & _) & _).
  eexists c', _. split; [done|].
  split_and!; [by exists l'|by rewrite Hd, Hc|by rewrite Hc].
Qed.

Lemma lru_Remove_inv c k :
  inv c → ∃ c' r, Remove c k = Done (c', r) ∧ inv c'.
Proof.
  intros ([l Hs] & Hsz & Hcap).
  destruct (lru_Remove_spec c l k Hs) as (c' & l' & HRem & Hs' & Hd & Hc & _).
  eexists c', _. split; [done|].
  split_and!; [by exists l'| |by rewrite Hc].
  rewrite Hd, Hc, map_size_delete. destruct (data c !! k); simpl; lia.
Qed.

Lemma lru_reachable_inv c : reachable c → inv c.
Proof.
  induction 1 as [cap c Hnew|c k v c' r _ IH HAdd|c k c' r _ IH HGet
                  |c k c' r _ IH HRem].
  - by eapply lru_NewCache_inv.
  - destruct (lru_Add_inv c k v IH) as (c1 & r1 & H1 & Hinv). congruence.
  - destruct (lru_Get_inv c k IH) as (c1 & r1 & H1 & Hinv). congruence.
  - destruct (lru_Remove_inv c k IH) as (c1 & r1 & H1 & Hinv). congruence.
Qed.
End lru_proofs.

(** ** The LFU engine *)
Section lfu_proofs.
Import lfu.
Context {K : Type} `{Countable K} {V : Type} `{Inhabited V}.
Implicit Types (c : Cache K V) (G : N → list addr) (l : list addr).
Implicit Types (a b : addr) (k : K) (v : V) (f g : N).
Local Abbreviation entry := (entry K V).

Lemma lfu_removeFromFrequency_split c node :
  removeFromFrequency c node =
  n ← load c node;
  match frequencies c !! frequency n with
  | None => Done c
  | Some _ => c ← unlink c node n; settle c node (frequency n)
  end.
Proof.
  unfold removeFromFrequency, unlink, settle.
  destruct (load c node) as [n|]; [|done]. simpl.
  destruct (frequencies c !! frequency n); [|done].
  destruct (match prev n with Some _ => _ | None => _ end) as [c1|]; [|done].
  simpl. destruct (load c1 node) as [n1|]; [|done]. simpl.
  by destruct (match next n1 with Some _ => _ | None => _ end).
Qed.

Lemma lfu_store_Some c a e upd :
  mem c !! a = Some e →
  store c (Some a) upd = Done (set_mem (<[a := upd e]> (mem c)) c).
Proof. intros He. unfold store. by rewrite He. Qed.

Lemma lfu_relinked_refl c : relinked c c.
Proof. by split_and!. Qed.

Lemma lfu_relinked_trans c1 c2 c3 :
  relinked c1 c2 → relinked c2 c3 → relinked c1 c3.
Proof.
  intros (?&?&?&?&Hf12&H12) (?&?&?&?&Hf23&H23).
  split_and!; [congruence..| |].
  - intros f Hf. by apply Hf23, Hf12.
  - intros b. by rewrite H23.
Qed.

Lemma lfu_fixed_insert (m : gmap addr entry) x e e' :
  m !! x = Some e → key e' = key e → value e' = value e →
  frequency e' = frequency e →
  ∀ b, fixed (<[x := e']> m) b = fixed m b.
Proof.
  intros He Hk Hv Hf b. unfold fixed.
  destruct (decide (x = b)) as [->|Hne].
  - rewrite lookup_insert_eq, He. simpl. by rewrite Hk, Hv, Hf.
  - by rewrite lookup_insert_ne.
Qed.

Lemma lfu_relinked_store c a e e' :
  mem c !! a = Some e → key e' = key e → value e' = value e →
  frequency e' = frequency e →
  relinked c (set_mem (<[a := e']> (mem c)) c).
Proof.
  intros He Hk Hv Hf. split_and!; [done..|]. simpl.
  by apply (lfu_fixed_insert _ _ e).
Qed.

Lemma lfu_relinked_bucket c f upd : relinked c (update_bucket c f upd).
Proof.
  split_and!; [done..| |done]. simpl. intros g Hg.
  by apply lookup_alter_is_Some.
Qed.

Lemma lfu_bucket_Some c f l x :
  bucket_ok c f l → x ∈ l →
  ∃ fn0, frequencies c !! f = Some fn0 ∧
        head fn0 = EntryPtr (front l) ∧ tail fn0 = EntryPtr (last l).
Proof.
  unfold bucket_ok. intros Hb Hx. destruct (frequencies c !! f) as [fn0|].
  - by exists fn0.
  - subst l. by apply elem_of_nil in Hx.
Qed.

Lemma lfu_unlink_spec c f l1 a l2 e :
  NoDup (l1 ++ a :: l2) →
  dseg prev next (mem c) None (l1 ++ a :: l2) None →
  bucket_ok c f (l1 ++ a :: l2) →
  mem c !! a = Some e → frequency e = f →
  ∃ c2, unlink c (Some a) e = Done c2 ∧
    relinked c c2 ∧ mem c2 !! a = Some e ∧
    (∀ b, b ∉ l1 ++ a :: l2 → mem c2 !! b = mem c !! b) ∧
    dseg prev next (mem c2) None (l1 ++ l2) None ∧
    (∀ g, g ≠ f → frequencies c2 !! g = frequencies c !! g) ∧
    ∃ fn2, frequencies c2 !! f = Some fn2 ∧
          head fn2 = EntryPtr (front (l1 ++ l2)) ∧
          tail fn2 = EntryPtr (last (l1 ++ l2)).
Proof.
  intros Hnd Hch Hbk He0 Hf.
  destruct (lfu_bucket_Some c f _ a Hbk) as (fn0 & Hfn0 & Hh & Ht).
  { apply elem_of_app. right. left. }
  apply dseg_app in Hch as [Hch1 Hch2]. simpl in Hch1.
  destruct Hch2 as (e' & He & Hp & Hn & Hch2).
  assert (e' = e) as -> by congruence. clear He0.
  apply NoDup_app in Hnd as (Hnd1 & Hdisj & Hnd2).
  apply NoDup_cons in Hnd2 as [Ha2 Hnd2].
  assert (Ha1 : a ∉ l1) by (intros Hin; apply (Hdisj a Hin); left).
  unfold unlink. rewrite Hf.
  destruct (snoc_cases l1) as [->|(l1' & p & ->)].
  - (* [a] is the head of the bucket *)
    simpl in Hp, Hh, Ht. rewrite Hp. simpl. rewrite He. simpl.
    destruct l2 as [|n l2']; simpl in Hn; rewrite Hn.
    + eexists. split; [done|]. split_and!; simpl.
      * eapply lfu_relinked_trans; apply lfu_relinked_bucket.
      * done.
      * done.
      * done.
      * intros g Hg. by rewrite !lookup_alter_ne.
      * eexists. rewrite !lookup_alter_eq, Hfn0. simpl. split; [done|].
        rewrite Hp. done.
    + destruct Hch2 as (en & Hen & Hpn & Hnn & Hch2).
      simpl. rewrite Hen. simpl.
      assert (Hna : n ≠ a) by (intros ->; apply Ha2; left).
      apply NoDup_cons in Hnd2 as [Hn2 Hnd2].
      eexists. split; [done|]. split_and!; simpl.
      * apply (lfu_relinked_trans _ (update_bucket c f (set_fhead (EntryPtr (Some n)))));
          [apply lfu_relinked_bucket|].
        by apply (lfu_relinked_store (update_bucket _ _ _) n en).
      * by rewrite lookup_insert_ne.
      * intros b Hb. rewrite lookup_insert_ne; [done|]. intros ->.
        apply Hb. right. left.
      * eapply (dseg_set_prev_first _ _ _ (Some a) n l2' None en); [done| |done..].
        simpl. eauto 10.
      * intros g Hg. by rewrite lookup_alter_ne.
      * eexists. rewrite lookup_alter_eq, Hfn0. simpl. split; [done|].
        split; [done|]. simpl. by rewrite Ht.
  - (* [a] has the predecessor [p] *)
    rewrite last_snoc in Hp. simpl in Hp. rewrite Hp.
    pose proof Hch1 as Hch1'.
    apply dseg_app in Hch1' as [_ (ep & Hep & Hpp & _ & _)].
    pose proof Hnd1 as Hnd1p.
    apply NoDup_app in Hnd1 as (Hnd1 & Hdisj1 & _).
    assert (Hp1 : p ∉ l1') by (intros Hin; apply (Hdisj1 p Hin); left).
    assert (Hpa : p ≠ a).
    { intros ->. apply Ha1. apply elem_of_app. right. left. }
    simpl. rewrite Hep. simpl.
    rewrite lookup_insert_ne; [|done]. rewrite He. simpl.
    destruct l2 as [|n l2']; simpl in Hn; rewrite Hn.
    + eexists. split; [done|]. rewrite app_nil_r.
      split_and!; simpl.
      * apply (lfu_relinked_trans _ (set_mem (<[p:=set_next None ep]> (mem c)) c));
          [by apply (lfu_relinked_store c p ep)|apply lfu_relinked_bucket].
      * by rewrite lookup_insert_ne.
      * intros b Hb. rewrite lookup_insert_ne; [done|]. intros ->.
        apply Hb. apply elem_of_app. left. apply elem_of_app. right. left.
      * eapply dseg_set_next_last; [done..|]. by destruct ep.
      * intros g Hg. by rewrite lookup_alter_ne.
      * eexists. rewrite lookup_alter_eq, Hfn0. simpl. split; [done|].
        split; simpl.
        -- rewrite Hh. rewrite <- app_assoc. by destruct l1'.
        -- by rewrite Hp, last_snoc.
    + destruct Hch2 as (en & Hen & Hpn & Hnn & Hch2).
      assert (Hna : n ≠ a) by (intros ->; apply Ha2; left).
      assert (Hnp : p ≠ n).
      { intros ->. apply (Hdisj n); [apply elem_of_app; right; left|].
        right. left. }
      apply NoDup_cons in Hnd2 as [Hn2 Hnd2].
      rewrite (lfu_store_Some _ n en) by (by simpl; rewrite lookup_insert_ne).
      rewrite Hp. eexists. split; [done|].
      split_and!; simpl.
      * apply (lfu_relinked_trans _ (set_mem (<[p:=set_next (Some n) ep]> (mem c)) c));
          [by apply (lfu_relinked_store c p ep)|].
        apply (lfu_relinked_store (set_mem _ c) n en);
          [by simpl; rewrite lookup_insert_ne|done..].
      * rewrite lookup_insert_ne; [|done]. by rewrite lookup_insert_ne.
      * intros b Hb. rewrite !lookup_insert_ne; [done|..]; intros ->; apply Hb.
        -- apply elem_of_app. left. apply elem_of_app. right. left.
        -- apply elem_of_app. right. right. left.
      * apply dseg_app. split.
        -- apply dseg_frame.
           { intros Hin. apply (Hdisj n Hin). right. left. }
           simpl. eapply dseg_set_next_last; [done..|]. by destruct ep.
        -- rewrite last_snoc. simpl.
           eapply (dseg_set_prev_first _ _ _ (Some a) n l2' None en);
             [done| | |done..].
           ++ apply dseg_frame.
              { intros Hin. apply (Hdisj p); [apply elem_of_app; right; left|].
                by right. }
              simpl. eauto 10.
           ++ by rewrite lookup_insert_ne.
      * done.
      * eexists. split; [done|]. split.
        -- rewrite Hh. rewrite <- !app_assoc. by destruct l1'.
        -- rewrite Ht. by rewrite !last_app_cons.
Qed.

Lemma lfu_fixed_Some (m m' : gmap addr entry) b e :
  fixed m' b = fixed m b → m !! b = Some e →
  ∃ e', m' !! b = Some e' ∧ key e' = key e ∧ value e' = value e ∧
        frequency e' = frequency e.
Proof.
  unfold fixed. intros Hfx He. rewrite He in Hfx. simpl in Hfx.
  destruct (m' !! b) as [e'|]; [|done]. simpl in Hfx.
  exists e'. injection Hfx as ?. by split_and!.
Qed.

Lemma lfu_fixed_is_Some (m m' : gmap addr entry) b :
  fixed m' b = fixed m b → is_Some (m' !! b) → is_Some (m !! b).
Proof.
  unfold fixed. intros Hfx [e' He']. rewrite He' in Hfx.
  destruct (m !! b); [by eexists|done].
Qed.

(** Cells of different buckets are different cells. *)
Lemma lfu_binv_disjoint skip G c f g a :
  binv skip G c → a ∈ G f → a ∈ G g → f = g.
Proof.
  intros Hinv Hf Hg.
  destruct (binv_member _ _ _ Hinv f a Hf) as (_ & e & He & <- & _).
  destruct (binv_member _ _ _ Hinv g a Hg) as (_ & e' & He' & <- & _).
  congruence.
Qed.

Lemma lfu_removeFromFrequency_spec c G f l1 a l2 :
  binv None G c → G f = l1 ++ a :: l2 →
  ∃ c' e,
    removeFromFrequency c (Some a) = Done c' ∧
    binv (Some a) (<[f := l1 ++ l2]> G) c' ∧ relinked c c' ∧
    mem c' !! a = Some e ∧ prev e = None ∧ next e = None ∧
    frequency e = f ∧ data c' !! key e = Some a.
Proof.
  intros Hinv HG.
  assert (Hain : a ∈ G f).
  { rewrite HG. apply elem_of_app. right. left. }
  destruct (binv_member _ _ _ Hinv f a Hain) as (_ & e & He & Hf & Hk).
  pose proof (binv_nodup _ _ _ Hinv f) as Hnd.
  pose proof (binv_chain _ _ _ Hinv f) as Hch.
  pose proof (binv_bucket _ _ _ Hinv f) as Hbk.
  rewrite HG in Hnd, Hch, Hbk.
  destruct (lfu_bucket_Some c f _ a Hbk) as (fn0 & Hfn0 & _).
  { apply elem_of_app. right. left. }
  destruct (lfu_unlink_spec c f l1 a l2 e Hnd Hch Hbk He Hf)
    as (c2 & Hun & Hrel & He2 & Hout & Hch2 & Hfr & fn2 & Hfn2 & Hh2 & Ht2).
  rewrite lfu_removeFromFrequency_split. simpl. rewrite He. simpl.
  rewrite Hf, Hfn0, Hun. simpl. unfold settle. rewrite Hfn2. simpl.
  rewrite Hh2. simpl. rewrite He2. simpl. rewrite lookup_insert_eq. simpl.
  rewrite insert_insert_eq.
  set (e1 := set_next None (set_prev None e)).
  set (c' := set_mem (<[a := e1]> (mem c2)) c2).
  assert (Hrel' : relinked c c').
  { eapply lfu_relinked_trans; [done|].
    by apply (lfu_relinked_store c2 a e). }
  assert (Ha12 : a ∉ l1 ++ l2).
  { apply NoDup_app in Hnd as (_ & Hdisj & [Ha2 _]%NoDup_cons).
    intros [Hin|Hin]%elem_of_app; [|done]. apply (Hdisj a Hin). left. }
  assert (Hmem : ∀ g b, g ≠ f → b ∈ G g → mem c' !! b = mem c !! b).
  { intros g b Hg Hb. unfold c'. simpl.
    assert (b ∉ l1 ++ a :: l2).
    { rewrite <- HG. intros Hbf. destruct Hg.
      by apply (lfu_binv_disjoint None G c g f b). }
    rewrite lookup_insert_ne; [by apply Hout|].
    intros ->. apply H1. apply elem_of_app. right. left. }
  exists c', e1. split; [done|].
  split_and!; [|done|by unfold c'; simpl; rewrite lookup_insert_eq|done..|].
  2: { destruct Hrel' as (-> & _). done. }
  pose proof Hrel' as (Hd & _ & Hbrk & _ & _ & Hfx).
  split.
  - intros g. destruct (decide (g = f)) as [->|Hg].
    + rewrite fn_lookup_insert. by apply NoDup_drop_middle in Hnd as [? _].
    + rewrite fn_lookup_insert_ne by done. apply (binv_nodup _ _ _ Hinv).
  - intros g. destruct (decide (g = f)) as [->|Hg].
    + rewrite fn_lookup_insert. unfold c'. simpl. by apply dseg_frame.
    + rewrite fn_lookup_insert_ne by done.
      eapply dseg_ext; [|apply (binv_chain _ _ _ Hinv)].
      intros b Hb. unfold links. by rewrite (Hmem g b).
  - intros g. unfold bucket_ok. destruct (decide (g = f)) as [->|Hg].
    + rewrite fn_lookup_insert. unfold c'. simpl. by rewrite Hfn2.
    + rewrite fn_lookup_insert_ne by done. unfold c'. simpl.
      rewrite Hfr by done. apply (binv_bucket _ _ _ Hinv).
  - intros g b Hb.
    assert (b ∈ G g ∧ b ≠ a) as [HbG Hba].
    { destruct (decide (g = f)) as [->|Hg].
      - rewrite fn_lookup_insert in Hb. split.
        + rewrite HG. apply elem_of_app in Hb as [?|?];
            apply elem_of_app; [by left|by right; right].
        + by intros ->.
      - rewrite fn_lookup_insert_ne in Hb by done. split; [done|].
        intros ->. destruct Hg.
        by apply (lfu_binv_disjoint None G c g f a). }
    split; [congruence|].
    destruct (binv_member _ _ _ Hinv g b HbG) as (_ & eb & Heb & Hfb & Hkb).
    destruct (lfu_fixed_Some _ _ b eb (Hfx b) Heb) as (eb' & Heb' & Hk' & _ & Hf').
    exists eb'. split_and!; [done|congruence|]. rewrite Hd, Hk'. done.
  - intros k b Hkb. rewrite Hd in Hkb.
    destruct (binv_index _ _ _ Hinv k b Hkb) as (eb & Heb & Hkey & [?|HbG]); [done|].
    destruct (lfu_fixed_Some _ _ b eb (Hfx b) Heb) as (eb' & Heb' & Hk' & _ & Hf').
    exists eb'. split_and!; [done|congruence|].
    destruct (decide (b = a)) as [->|Hba]; [by left|right].
    rewrite Hf'. destruct (decide (frequency eb = f)) as [Heq|Hne].
    + rewrite Heq, fn_lookup_insert. rewrite Heq, HG in HbG.
      apply elem_of_app in HbG as [?|[?|?]%elem_of_cons];
        [apply elem_of_app; by left|done|apply elem_of_app; by right].
    + by rewrite fn_lookup_insert_ne.
  - intros b Hb. rewrite Hbrk. apply (binv_alloc _ _ _ Hinv).
    by apply (lfu_fixed_is_Some _ _ b (Hfx b)).
Qed.

(** Putting the detached cell [a] at the front of the bucket for [f]. *)
Lemma lfu_binv_attach c c' G a e f :
  binv (Some a) G c → mem c !! a = Some e → frequency e = f →
  data c !! key e = Some a → relinked c c' →
  (∀ b, b ∉ a :: G f → mem c' !! b = mem c !! b) →
  (∀ g, g ≠ f → frequencies c' !! g = frequencies c !! g) →
  dseg prev next (mem c') None (a :: G f) None →
  bucket_ok c' f (a :: G f) →
  binv None (<[f := a :: G f]> G) c'.
Proof.
  intros Hinv He Hf Hk Hrel Hout Hfr Hch Hbk.
  pose proof Hrel as (Hd & _ & Hbrk & _ & _ & Hfx).
  assert (Hskip : ∀ g, a ∉ G g).
  { intros g Ha. by destruct (binv_member _ _ _ Hinv g a Ha) as [? _]. }
  split.
  - intros g. destruct (decide (g = f)) as [->|Hg].
    + rewrite fn_lookup_insert. apply NoDup_cons. split; [done|].
      apply (binv_nodup _ _ _ Hinv).
    + rewrite fn_lookup_insert_ne by done. apply (binv_nodup _ _ _ Hinv).
  - intros g. destruct (decide (g = f)) as [->|Hg].
    + by rewrite fn_lookup_insert.
    + rewrite fn_lookup_insert_ne by done.
      eapply dseg_ext; [|apply (binv_chain _ _ _ Hinv)].
      intros b Hb. unfold links. rewrite Hout; [done|].
      intros [->|Hbf]%elem_of_cons; [by apply (Hskip g)|].
      destruct Hg. by apply (lfu_binv_disjoint (Some a) G c g f b).
  - intros g. destruct (decide (g = f)) as [->|Hg].
    + by rewrite fn_lookup_insert.
    + rewrite fn_lookup_insert_ne by done. unfold bucket_ok.
      rewrite Hfr by done. apply (binv_bucket _ _ _ Hinv).
  - intros g b Hb. split; [done|].
    assert (∃ eb, mem c !! b = Some eb ∧ frequency eb = g ∧
                  data c !! key eb = Some b) as (eb & Heb & Hfb & Hkb).
    { destruct (decide (g = f)) as [->|Hg].
      - rewrite fn_lookup_insert in Hb.
        apply elem_of_cons in Hb as [->|Hb]; [by exists e|].
        by destruct (binv_member _ _ _ Hinv f b Hb) as [_ ?].
      - rewrite fn_lookup_insert_ne in Hb by done.
        by destruct (binv_member _ _ _ Hinv g b Hb) as [_ ?]. }
    destruct (lfu_fixed_Some _ _ b eb (Hfx b) Heb) as (eb' & Heb' & Hk' & _ & Hf').
    exists eb'. split_and!; [done|congruence|]. by rewrite Hd, Hk'.
  - intros k b Hkb. rewrite Hd in Hkb.
    destruct (binv_index _ _ _ Hinv k b Hkb) as (eb & Heb & Hkey & Hwhere).
    destruct (lfu_fixed_Some _ _ b eb (Hfx b) Heb) as (eb' & Heb' & Hk' & _ & Hf').
    exists eb'. split_and!; [done|congruence|]. right. rewrite Hf'.
    destruct Hwhere as [[= ->]|HbG].
    + assert (eb = e) as -> by congruence.
      rewrite Hf, fn_lookup_insert. left.
    + destruct (decide (frequency eb = f)) as [Heq|Hne].
      * rewrite Heq, fn_lookup_insert. right. by rewrite <- Heq.
      * by rewrite fn_lookup_insert_ne.
  - intros b Hb. rewrite Hbrk. apply (binv_alloc _ _ _ Hinv).
    by apply (lfu_fixed_is_Some _ _ b (Hfx b)).
Qed.

(** A bucket that was emptied is still in the map, with a nil pointer
    inside its [head]: adding to it dereferences that pointer. *)
Lemma lfu_addToFrequency_spec c G a e f :
  binv (Some a) G c → mem c !! a = Some e →
  prev e = None → next e = None → frequency e = f →
  data c !! key e = Some a →
  if decide (is_Some (frequencies c !! f) ∧ G f = []) then
    addToFrequency c (Some a) f = Panic NilDereference
  else
    ∃ c', addToFrequency c (Some a) f = Done c' ∧
          binv None (<[f := a :: G f]> G) c' ∧ relinked c c' ∧
          is_Some (frequencies c' !! f).
Proof.
  intros Hinv He Hp Hn Hf Hk.
  pose proof (binv_bucket _ _ _ Hinv f) as Hbk. unfold bucket_ok in Hbk.
  pose proof (binv_chain _ _ _ Hinv f) as Hch.
  pose proof (binv_nodup _ _ _ Hinv f) as Hnd.
  assert (Hskip : a ∉ G f).
  { intros Ha. by destruct (binv_member _ _ _ Hinv f a Ha) as [? _]. }
  unfold addToFrequency.
  destruct (frequencies c !! f) as [fn0|] eqn:Hfn0.
  - destruct Hbk as [Hh Ht]. rewrite Hh. simpl. rewrite He. simpl.
    destruct (G f) as [|h t] eqn:HG.
    + rewrite decide_True by (split; [by eexists|done]). done.
    + rewrite decide_False by (by intros [_ ?]).
      assert (Hha : a ≠ h) by (intros ->; apply Hskip; left).
      destruct Hch as (eh & Heh & Hph & Hnh & Hch').
      apply NoDup_cons in Hnd as [Hht Hnd'].
      simpl. rewrite lookup_insert_ne by done. rewrite Heh. simpl.
      set (c' := update_bucket _ f _).
      assert (Hrel : relinked c c').
      { eapply lfu_relinked_trans; [|apply lfu_relinked_bucket].
        apply (lfu_relinked_trans _ (set_mem (<[a := set_next (Some h) e]> (mem c)) c)).
        - by apply (lfu_relinked_store c a e).
        - apply (lfu_relinked_store (set_mem _ c) h eh); [|done..].
          simpl. by rewrite lookup_insert_ne. }
      exists c'. split; [done|]. split_and!; [|done|].
      * rewrite <- HG. eapply (lfu_binv_attach c c' G a e f); try done.
        -- intros b Hb. rewrite HG in Hb. unfold c'. simpl.
           rewrite !lookup_insert_ne; [done|..]; intros ->; apply Hb.
           ++ left.
           ++ right. left.
        -- intros g Hg. unfold c'. simpl. by rewrite lookup_alter_ne.
        -- rewrite HG. unfold c'. simpl. eexists.
           rewrite lookup_insert_ne by done. rewrite lookup_insert_eq.
           split_and!; [done..|].
           eapply (dseg_set_prev_first _ _ _ None h t None eh); [done| | |done..].
           ++ apply dseg_frame; [done|]. simpl. eauto 10.
           ++ by rewrite lookup_insert_ne.
        -- unfold bucket_ok, c'. simpl. rewrite lookup_alter_eq, Hfn0. simpl.
           rewrite HG. split; [done|]. by rewrite Ht.
      * unfold c'. simpl. rewrite lookup_alter_eq, Hfn0. by eexists.
  - rewrite decide_False by (by intros [[??] _]). simpl.
    set (c' := update_bucket _ f _).
    assert (Hrel : relinked c c').
    { split_and!; [done..| |done]. unfold c'. simpl. intros g Hg.
      apply lookup_alter_is_Some, lookup_alter_is_Some.
      destruct (decide (f = g)) as [->|?];
        [rewrite lookup_insert_eq; by eexists|by rewrite lookup_insert_ne]. }
    exists c'. split; [done|]. rewrite Hbk.
    split_and!; [|done|].
    + rewrite <- Hbk. eapply (lfu_binv_attach c c' G a e f); try done.
      * intros g Hg. unfold c'. simpl.
        by rewrite !lookup_alter_ne, lookup_insert_ne.
      * rewrite Hbk. simpl. by exists e.
      * unfold bucket_ok, c'. simpl.
        rewrite !lookup_alter_eq, lookup_insert_eq. simpl. by rewrite Hbk.
    + unfold c'. simpl. rewrite !lookup_alter_eq, lookup_insert_eq. by eexists.
Qed.

Lemma lfu_relinked_kept c c' : relinked c c' → kept c c'.
Proof.
  intros (_ & Hc & _ & _ & Hfr & Hfx). split_and!; [done..|].
  intros b _. specialize (Hfx b). unfold fixed, payload in *.
  destruct (mem c' !! b), (mem c !! b); simpl in *; congruence.
Qed.

Lemma lfu_kept_refl c : kept c c.
Proof. by split_and!. Qed.

Lemma lfu_kept_trans c1 c2 c3 : kept c1 c2 → kept c2 c3 → kept c1 c3.
Proof.
  intros (?&Hf12&H12) (?&Hf23&H23). split_and!; [congruence| |].
  - intros f Hf. by apply Hf23, Hf12.
  - intros b Hb. rewrite <- H12 by done. apply H23.
    specialize (H12 b Hb). unfold payload in H12. destruct Hb as [e He].
    rewrite He in H12. destruct (mem c2 !! b); [by eexists|done].
Qed.

(** Dropping the detached cell from the index. *)
Lemma lfu_binv_drop c G a e :
  binv (Some a) G c → mem c !! a = Some e → data c !! key e = Some a →
  binv None G (set_data (delete (key e) (data c)) c).
Proof.
  intros Hinv He Hk. split; simpl.
  - apply (binv_nodup _ _ _ Hinv).
  - apply (binv_chain _ _ _ Hinv).
  - apply (binv_bucket _ _ _ Hinv).
  - intros g b Hb. split; [done|].
    destruct (binv_member _ _ _ Hinv g b Hb) as (Hba & eb & Heb & Hfb & Hkb).
    exists eb. split_and!; [done..|]. rewrite lookup_delete_ne; [done|].
    intros Heq. rewrite Heq in Hk. congruence.
  - intros k b Hkb. apply lookup_delete_Some in Hkb as [Hne Hkb].
    destruct (binv_index _ _ _ Hinv k b Hkb) as (eb & Heb & Hkey & [[= ->]|?]).
    + congruence.
    + exists eb. split_and!; [done..|by right].
  - apply (binv_alloc _ _ _ Hinv).
Qed.

Lemma lfu_binv_lookup c G k a :
  binv None G c → data c !! k = Some a →
  ∃ e, mem c !! a = Some e ∧ key e = k ∧ a ∈ G (frequency e).
Proof.
  intros Hinv Hk.
  destruct (binv_index _ _ _ Hinv k a Hk) as (e & He & Hkey & [?|?]); [done|].
  by exists e.
Qed.

Lemma lfu_Remove_spec c G k :
  binv None G c →
  ∃ c' G',
    Remove c k = Done (c', bool_decide (is_Some (data c !! k))) ∧
    binv None G' c' ∧ data c' = delete k (data c) ∧ kept c c' ∧
    minFrequency c' = minFrequency c ∧
    (data c !! k = None → c' = c).
Proof.
  intros Hinv. unfold Remove.
  destruct (data c !! k) as [a|] eqn:Hk.
  - destruct (lfu_binv_lookup c G k a Hinv Hk) as (e & He & Hkey & Ha).
    apply list_elem_of_split in Ha as (l1 & l2 & HG).
    destruct (lfu_removeFromFrequency_spec c G _ l1 a l2 Hinv HG)
      as (c1 & e1 & -> & Hinv1 & Hrel & He1 & _ & _ & _ & Hk1).
    simpl.
    assert (Hkey1 : key e1 = k).
    { pose proof Hrel as (Hd & _). rewrite Hd in Hk1.
      destruct (binv_index _ _ _ Hinv _ _ Hk1) as (e' & He' & Hkey' & _).
      destruct (binv_index _ _ _ Hinv _ _ Hk) as (e'' & He'' & Hkey'' & _).
      congruence. }
    pose proof (lfu_binv_drop c1 _ a e1 Hinv1 He1 Hk1) as Hinv'.
    rewrite Hkey1 in Hinv'.
    eexists _, _. split_and!; [done|done| | | |done].
    + simpl. by destruct Hrel as (-> & _).
    + by apply lfu_relinked_kept in Hrel.
    + simpl. by destruct Hrel as (_ & _ & _ & -> & _).
  - exists c, G. split_and!; [done..| |apply lfu_kept_refl|done|done].
    by rewrite delete_id.
Qed.

(** Eviction takes the cell at the tail of the bucket [minFrequency]
    points at; when that bucket has been emptied, its [tail] holds a nil
    pointer and the call dereferences it. *)
Lemma lfu_evictLeastFrequent_spec c G fn0 :
  binv None G c → data c ≠ ∅ →
  frequencies c !! minFrequency c = Some fn0 →
  match last (G (minFrequency c)) with
  | None => evictLeastFrequent c = Panic NilDereference
  | Some t =>
      ∃ c' G' e,
        evictLeastFrequent c = Done c' ∧ binv None G' c' ∧
        mem c !! t = Some e ∧ data c !! key e = Some t ∧
        data c' = delete (key e) (data c) ∧ kept c c' ∧
        minFrequency c' = minFrequency c ∧ brk c' = brk c
  end.
Proof.
  intros Hinv Hne Hfn0. unfold evictLeastFrequent.
  rewrite decide_False by (by apply map_size_non_empty_iff).
  rewrite Hfn0.
  pose proof (binv_bucket _ _ _ Hinv (minFrequency c)) as Hbk.
  unfold bucket_ok in Hbk. rewrite Hfn0 in Hbk. destruct Hbk as [_ Ht].
  rewrite Ht. simpl.
  destruct (last (G (minFrequency c))) as [t|] eqn:Hlast.
  - apply last_Some in Hlast as [l1 HG].
    destruct (binv_member _ _ _ Hinv (minFrequency c) t) as (_ & e & He & Hf & Hk).
    { rewrite HG. apply elem_of_app. right. left. }
    destruct (lfu_removeFromFrequency_spec c G _ l1 t [] Hinv HG)
      as (c1 & e1 & -> & Hinv1 & Hrel & He1 & _ & _ & _ & Hk1).
    simpl. rewrite He1. simpl.
    assert (Hkey1 : key e1 = key e).
    { pose proof Hrel as (_ & _ & _ & _ & _ & Hfx). specialize (Hfx t).
      unfold fixed in Hfx. rewrite He, He1 in Hfx. simpl in Hfx. congruence. }
    pose proof (lfu_binv_drop c1 _ t e1 Hinv1 He1 Hk1) as Hinv'.
    eexists _, _, e. split_and!; [done|done|done|done| | | |]; simpl.
    + rewrite Hkey1. by destruct Hrel as (-> & _).
    + by apply lfu_relinked_kept in Hrel.
    + by destruct Hrel as (_ & _ & _ & -> & _).
    + by destruct Hrel as (_ & _ & -> & _).
  - done.
Qed.

(** Promotion either completes in a well-formed state or panics. *)
Lemma lfu_incrementFrequency_spec c G k a :
  binv None G c → data c !! k = Some a →
  match incrementFrequency c (Some a) with
  | Done c' =>
      (∃ G', binv None G' c') ∧ data c' = data c ∧ kept c c' ∧
      minFrequency c' = minFrequency c ∧ brk c' = brk c
  | Panic _ => True
  end.
Proof.
  intros Hinv Hk. unfold incrementFrequency.
  destruct (lfu_binv_lookup c G k a Hinv Hk) as (e & He & Hkey & Ha).
  simpl. rewrite He. simpl.
  assert (Hbf : is_Some (frequencies c !! frequency e)).
  { pose proof (binv_bucket _ _ _ Hinv (frequency e)) as Hbk.
    unfold bucket_ok in Hbk. destruct (frequencies c !! frequency e); [by eexists|].
    rewrite Hbk in Ha. by apply elem_of_nil in Ha. }
  apply list_elem_of_split in Ha as (l1 & l2 & HG).
  destruct (lfu_removeFromFrequency_spec c G _ l1 a l2 Hinv HG)
    as (c1 & e1 & -> & Hinv1 & Hrel & He1 & Hp1 & Hn1 & Hf1 & Hk1).
  simpl. rewrite He1. simpl.
  set (f' := wrap (frequency e + 1)).
  set (e2 := set_frequency f' e1).
  set (c2 := set_mem (<[a := e2]> (mem c1)) c1).
  set (G1 := <[frequency e := l1 ++ l2]> G) in *.
  assert (Hskip : ∀ g, a ∉ G1 g).
  { intros g Hin. by destruct (binv_member _ _ _ Hinv1 g a Hin) as [? _]. }
  assert (Hinv2 : binv (Some a) G1 c2).
  { split; unfold c2; simpl.
    - apply (binv_nodup _ _ _ Hinv1).
    - intros g. apply dseg_frame; [done|]. apply (binv_chain _ _ _ Hinv1).
    - apply (binv_bucket _ _ _ Hinv1).
    - intros g b Hb.
      destruct (binv_member _ _ _ Hinv1 g b Hb) as (Hba & eb & Heb & Hfb & Hkb).
      split; [done|]. exists eb. rewrite lookup_insert_ne by congruence. done.
    - intros k' b Hkb.
      destruct (binv_index _ _ _ Hinv1 k' b Hkb) as (eb & Heb & Hkeyb & Hwh).
      destruct (decide (b = a)) as [->|Hba].
      + exists e2. rewrite lookup_insert_eq. split_and!; [done| |by left].
        simpl. congruence.
      + exists eb. rewrite lookup_insert_ne by done. done.
    - intros b Hb. apply (binv_alloc _ _ _ Hinv1).
      destruct (decide (a = b)) as [->|?]; [by eexists|].
      by rewrite lookup_insert_ne in Hb. }
  pose proof (lfu_addToFrequency_spec c2 G1 a e2 f' Hinv2) as Hadd.
  unfold c2 in Hadd at 1. simpl in Hadd. rewrite lookup_insert_eq in Hadd.
  specialize (Hadd eq_refl Hp1 Hn1 eq_refl Hk1).
  case_decide as Hdead.
  - fold c2. rewrite Hadd. done.
  - destruct Hadd as (c3 & Hadd & Hinv3 & Hrel3 & Hf3).
    fold c2. rewrite Hadd. simpl.
    assert (Hk13 : kept c c3).
    { eapply lfu_kept_trans; [by apply lfu_relinked_kept|].
      eapply lfu_kept_trans; [|by apply lfu_relinked_kept].
      split_and!; [done..|]. intros b _. unfold c2, payload. simpl.
      destruct (decide (a = b)) as [->|?].
      - by rewrite lookup_insert_eq, He1.
      - by rewrite lookup_insert_ne. }
    rewrite decide_False.
    + split_and!; [by eexists| |done| |].
      * destruct Hrel3 as (-> & _). simpl. by destruct Hrel as (-> & _).
      * destruct Hrel3 as (_&_&_& -> &_). simpl. by destruct Hrel as (_&_&_& -> &_).
      * destruct Hrel3 as (_&_& -> &_). simpl. by destruct Hrel as (_&_& -> &_).
    + intros [_ Hnone]. destruct Hk13 as (_ & Hmono & _).
      apply Hmono in Hbf. rewrite Hnone in Hbf. by destruct Hbf.
Qed.

Lemma lfu_Get_spec c G k :
  binv None G c →
  match Get c k with
  | Done (c', r) =>
      (∃ G', binv None G' c') ∧ data c' = data c ∧ kept c c' ∧
      minFrequency c' = minFrequency c ∧
      r = match peek c k with
          | Some v => (v, true)
          | None => (inhabitant, false)
          end ∧
      (data c !! k = None → c' = c)
  | Panic _ => True
  end.
Proof.
  intros Hinv. unfold Get, peek.
  destruct (data c !! k) as [a|] eqn:Hk; simpl.
  - pose proof (lfu_incrementFrequency_spec c G k a Hinv Hk) as Hinc.
    destruct (incrementFrequency c (Some a)) as [c'|]; [|done]. simpl.
    destruct Hinc as (HG' & Hd & Hkept & Hmin & _).
    destruct (lfu_binv_lookup c G k a Hinv Hk) as (e & He & _).
    pose proof Hkept as (_ & _ & Hpay).
    assert (Hpa : payload (mem c') a = Some (key e, value e)).
    { rewrite Hpay by (by eexists). unfold payload. by rewrite He. }
    unfold payload in Hpa. rewrite He. simpl.
    destruct (mem c' !! a) as [e'|]; simpl in *; [|done].
    split_and!; [done..| |done]. congruence.
  - split_and!; [by eexists|done|apply lfu_kept_refl|done..].
Qed.

(** Overwriting the value of a cell leaves the buckets as they are. *)
Lemma lfu_set_value_spec c G a e v :
  binv None G c → mem c !! a = Some e →
  binv None G (set_mem (<[a := set_value v e]> (mem c)) c).
Proof.
  intros Hinv He.
  assert (Hsame : ∀ b eb, mem c !! b = Some eb →
            ∃ eb', <[a := set_value v e]> (mem c) !! b = Some eb' ∧
                   key eb' = key eb ∧ frequency eb' = frequency eb).
  { intros b eb Heb. destruct (decide (a = b)) as [->|?].
    - rewrite lookup_insert_eq. eexists. split; [done|].
      assert (eb = e) as -> by congruence. done.
    - rewrite lookup_insert_ne by done. by exists eb. }
  split; simpl.
  - apply (binv_nodup _ _ _ Hinv).
  - intros g. eapply dseg_ext; [|apply (binv_chain _ _ _ Hinv)].
    intros b _. unfold links. destruct (decide (a = b)) as [->|?].
    + by rewrite lookup_insert_eq, He.
    + by rewrite lookup_insert_ne.
  - apply (binv_bucket _ _ _ Hinv).
  - intros g b Hb.
    destruct (binv_member _ _ _ Hinv g b Hb) as (Hba & eb & Heb & Hfb & Hkb).
    split; [done|]. destruct (Hsame b eb Heb) as (eb' & Heb' & Hk' & Hf').
    exists eb'. split_and!; [done|congruence|by rewrite Hk'].
  - intros k b Hkb.
    destruct (binv_index _ _ _ Hinv k b Hkb) as (eb & Heb & Hkeyb & Hwh).
    destruct (Hsame b eb Heb) as (eb' & Heb' & Hk' & Hf').
    exists eb'. split_and!; [done|congruence|by rewrite Hf'].
  - intros b Hb. apply (binv_alloc _ _ _ Hinv).
    destruct (decide (a = b)) as [->|?]; [by eexists|].
    by rewrite lookup_insert_ne in Hb.
Qed.

Lemma lfu_Add_present c G k v a :
  binv None G c → data c !! k = Some a →
  match Add c k v with
  | Done (c', r) =>
      (∃ G', binv None G' c') ∧ data c' = data c ∧
      capacity c' = capacity c ∧ minFrequency c' = minFrequency c ∧
      (∀ f, is_Some (frequencies c !! f) → is_Some (frequencies c' !! f)) ∧
      r = (false, true) ∧ peek c' k = Some v
  | Panic _ => True
  end.
Proof.
  intros Hinv Hk. unfold Add. rewrite Hk.
  destruct (lfu_binv_lookup c G k a Hinv Hk) as (e & He & Hkey & _).
  simpl. rewrite He. simpl.
  pose proof (lfu_set_value_spec c G a e v Hinv He) as Hinv0.
  set (c0 := set_mem (<[a := set_value v e]> (mem c)) c) in *.
  pose proof (lfu_incrementFrequency_spec c0 G k a Hinv0 Hk) as Hinc.
  destruct (incrementFrequency c0 (Some a)) as [c'|]; [|done]. simpl.
  destruct Hinc as (HG' & Hd & (Hcap & Hmono & Hpay) & Hmin & _).
  split_and!; [done..|].
  unfold peek. rewrite Hd. simpl. rewrite Hk. simpl.
  assert (Hpa : payload (mem c') a = Some (key e, v)).
  { rewrite Hpay.
    - unfold payload, c0. simpl. by rewrite lookup_insert_eq.
    - unfold c0. simpl. rewrite lookup_insert_eq. by eexists. }
  unfold payload in Hpa.
  destruct (mem c' !! a) as [e'|]; simpl in *; congruence.
Qed.

(** A new cell for a new key, indexed and not yet in a bucket. *)
Lemma lfu_new_entry_spec c G k v :
  binv None G c → data c !! k = None →
  binv (Some (brk c)) G
    (set_data (<[k := brk c]> (data c)) (new_entry c k v).2).
Proof.
  intros Hinv Hk.
  assert (Hfresh : mem c !! brk c = None).
  { destruct (mem c !! brk c) eqn:Hm; [|done].
    assert (brk c < brk c) by (apply (binv_alloc _ _ _ Hinv); by eexists). lia. }
  split; simpl.
  - apply (binv_nodup _ _ _ Hinv).
  - intros g. apply dseg_frame; [|apply (binv_chain _ _ _ Hinv)].
    intros Hin. destruct (binv_member _ _ _ Hinv g _ Hin) as (_ & e & He & _).
    congruence.
  - apply (binv_bucket _ _ _ Hinv).
  - intros g b Hb.
    destruct (binv_member _ _ _ Hinv g b Hb) as (_ & eb & Heb & Hfb & Hkb).
    assert (b ≠ brk c) by congruence.
    split; [congruence|]. exists eb. rewrite !lookup_insert_ne; [done|..].
    + intros ->. congruence.
    + done.
  - intros k' b Hkb. destruct (decide (k = k')) as [->|Hne].
    + rewrite lookup_insert_eq in Hkb. injection Hkb as <-.
      eexists. rewrite lookup_insert_eq. split_and!; [done..|by left].
    + rewrite lookup_insert_ne in Hkb by done.
      destruct (binv_index _ _ _ Hinv k' b Hkb) as (eb & Heb & Hkeyb & Hwh).
      exists eb. rewrite lookup_insert_ne by congruence.
      split_and!; [done..|]. right. by destruct Hwh.
  - intros b Hb. destruct (decide (brk c = b)) as [<-|?]; [lia|].
    rewrite lookup_insert_ne in Hb by done.
    pose proof (binv_alloc _ _ _ Hinv b Hb). lia.
Qed.

Lemma lfu_binv_set_minFrequency skip G c f :
  binv skip G c → binv skip G (set_minFrequency f c).
Proof. intros Hinv. by split; simpl; apply Hinv. Qed.

Lemma lfu_insert_spec c G k v :
  binv None G c → data c !! k = None →
  match addToFrequency
          (set_data (<[k := brk c]> (data c)) (new_entry c k v).2)
          (Some (brk c)) 1 with
  | Done c2 =>
      (∃ G', binv None G' c2) ∧ data c2 = <[k := brk c]> (data c) ∧
      capacity c2 = capacity c ∧ is_Some (frequencies c2 !! 1%N) ∧
      (∀ f, is_Some (frequencies c !! f) → is_Some (frequencies c2 !! f)) ∧
      peek c2 k = Some v
  | Panic _ => True
  end.
Proof.
  intros Hinv Hk.
  pose proof (lfu_new_entry_spec c G k v Hinv Hk) as Hinv1.
  set (c1 := set_data (<[k := brk c]> (data c)) (new_entry c k v).2) in *.
  pose proof (lfu_addToFrequency_spec c1 G (brk c) (Entry k v 1 None None) 1 Hinv1)
    as Hadd.
  unfold c1 in Hadd at 1 3. simpl in Hadd. rewrite !lookup_insert_eq in Hadd.
  specialize (Hadd eq_refl eq_refl eq_refl eq_refl eq_refl).
  case_decide.
  - by rewrite Hadd.
  - destruct Hadd as (c2 & -> & Hinv2 & (Hd & Hc & _ & _ & Hmono & Hfx) & Hf1).
    split_and!; [by eexists|by rewrite Hd|by rewrite Hc|done| |].
    + intros f Hf. by apply Hmono.
    + unfold peek. rewrite Hd. unfold c1. simpl. rewrite lookup_insert_eq. simpl.
      specialize (Hfx (brk c)). unfold fixed, c1 in Hfx. simpl in Hfx.
      rewrite lookup_insert_eq in Hfx. simpl in Hfx.
      destruct (mem c2 !! brk c); simpl in *; congruence.
Qed.

Lemma lfu_Add_absent c k v :
  inv c → data c !! k = None →
  match Add c k v with
  | Done (c', r) =>
      inv c' ∧ capacity c' = capacity c ∧ peek c' k = Some v ∧
      r = (bool_decide (N.of_nat (size (data c)) = capacity c), false) ∧
      (r.1 = true →
       ∃ victim, victim ≠ k ∧ is_Some (data c !! victim) ∧
                 data c' !! victim = None) ∧
      minFrequency c' = 1%N ∧
      (∀ f, is_Some (frequencies c !! f) → is_Some (frequencies c' !! f))
  | Panic _ => True
  end.
Proof.
  intros ([G Hinv] & Hsz & Hcap & Hmin) Hk. unfold Add. rewrite Hk.
  destruct (capacity c <=? N.of_nat (size (data c)))%N eqn:Hfull.
  - apply N.leb_le in Hfull.
    assert (Hne : data c ≠ ∅).
    { apply map_size_non_empty_iff. lia. }
    destruct (Hmin Hne) as [Hm1 [fn0 Hfn0]]. rewrite <- Hm1 in Hfn0.
    pose proof (lfu_evictLeastFrequent_spec c G fn0 Hinv Hne Hfn0) as Hev.
    destruct (last (G (minFrequency c))) as [t|].
    + destruct Hev as (c1 & G1 & e & -> & Hinv1 & He & Hkt & Hd1 & Hkept1 & Hmin1 & Hbrk1).
      simpl.
      assert (Hvk : key e ≠ k) by (intros Heq; rewrite Heq in Hkt; congruence).
      assert (Hk1 : data c1 !! k = None).
      { rewrite Hd1. by rewrite lookup_delete_ne. }
      pose proof (lfu_insert_spec c1 G1 k v Hinv1 Hk1) as Hins.
      simpl in Hins.
      destruct (addToFrequency _ _ _) as [c2|]; [|done]. simpl.
      destruct Hins as ([G2 Hinv2] & Hd2 & Hc2 & Hf2 & Hmono2 & Hpeek2).
      destruct Hkept1 as (Hc1 & Hmono1 & _).
      assert (Hsize : size (data c2) = size (data c)).
      { rewrite Hd2, map_size_insert_None by done.
        rewrite Hd1, map_size_delete_Some by (by eexists).
        assert (size (data c) ≠ 0) by (by apply map_size_non_empty_iff). lia. }
      split_and!.
      * split_and!; simpl.
        -- exists G2. by apply lfu_binv_set_minFrequency.
        -- rewrite Hsize. congruence.
        -- congruence.
        -- done.
      * simpl. congruence.
      * done.
      * rewrite bool_decide_eq_true_2 by lia. done.
      * intros _. exists (key e). split_and!; [done|by eexists|]. simpl.
        rewrite Hd2, lookup_insert_ne, Hd1 by done. apply lookup_delete_eq.
      * done.
      * simpl. intros f Hf. by apply Hmono2, Hmono1.
    + by rewrite Hev.
  - apply N.leb_gt in Hfull. simpl.
    pose proof (lfu_insert_spec c G k v Hinv Hk) as Hins. simpl in Hins.
    destruct (addToFrequency _ _ _) as [c2|]; [|done]. simpl.
    destruct Hins as ([G2 Hinv2] & Hd2 & Hc2 & Hf2 & Hmono2 & Hpeek2).
    split_and!.
    * split_and!; simpl.
      -- exists G2. by apply lfu_binv_set_minFrequency.
      -- rewrite Hd2, map_size_insert_None by done. lia.
      -- congruence.
      -- done.
    * done.
    * done.
    * rewrite bool_decide_eq_false_2 by lia. done.
    * done.
    * done.
    * done.
Qed.

(** *** Every reachable state satisfies the invariant *)

Lemma lfu_NewCache_inv cap c : NewCache cap = (Some c, None) → inv c.
Proof.
  unfold NewCache. destruct (cap <=? 0)%N eqn:Hcap; [done|].
  intros [= <-]. apply N.leb_gt in Hcap.
  split_and!; simpl; [|rewrite map_size_empty; lia|done|done].
  exists (λ _, []). split; simpl.
  - intros f. constructor.
  - done.
  - intros f. unfold bucket_ok. simpl. by rewrite lookup_empty.
  - intros f a Ha. by apply elem_of_nil in Ha.
  - intros k a Hk. by rewrite lookup_empty in Hk.
  - intros a [? Ha]. by rewrite lookup_empty in Ha.
Qed.

Lemma lfu_Add_inv c k v c' r :
  inv c → Add c k v = Done (c', r) → inv c'.
Proof.
  intros Hinv HAdd. destruct (data c !! k) as [a|] eqn:Hk.
  - destruct Hinv as ([G HG] & Hsz & Hcap & Hmin).
    pose proof (lfu_Add_present c G k v a HG Hk) as Hspec.
    rewrite HAdd in Hspec.
    destruct Hspec as (HG' & Hd & Hc & Hm & Hmono & _).
    split_and!; [done|by rewrite Hd, Hc|by rewrite Hc|].
    rewrite Hd, Hm. intros Hne. destruct (Hmin Hne) as [? ?]. split; [done|].
    by apply Hmono.
  - pose proof (lfu_Add_absent c k v Hinv Hk) as Hspec.
    rewrite HAdd in Hspec. by destruct Hspec as [? _].
Qed.

Lemma lfu_Get_inv c k c' r :
  inv c → Get c k = Done (c', r) → inv c'.
Proof.
  intros ([G HG] & Hsz & Hcap & Hmin) HGet.
  pose proof (lfu_Get_spec c G k HG) as Hspec. rewrite HGet in Hspec.
  destruct Hspec as (HG' & Hd & (Hc & Hmono & _) & Hm & _).
  split_and!; [done|by rewrite Hd, Hc|by rewrite Hc|].
  rewrite Hd, Hm. intros Hne. destruct (Hmin Hne) as [? ?]. split; [done|].
  by apply Hmono.
Qed.

Lemma lfu_Remove_inv c k c' r :
  inv c → Remove c k = Done (c', r) → inv c'.
Proof.
  intros ([G HG] & Hsz & Hcap & Hmin) HRem.
  destruct (lfu_Remove_spec c G k HG)
    as (c1 & G' & HRem1 & HG' & Hd & (Hc & Hmono & _) & Hm & _).
  assert (c1 = c') as -> by congruence.
  split_and!; [by exists G'| |by rewrite Hc|].
  - rewrite Hd, Hc, map_size_delete. destruct (data c !! k); simpl; lia.
  - rewrite Hm. intros Hne.
    assert (Hne0 : data c ≠ ∅).
    { intros Hemp. apply Hne. rewrite Hd, Hemp. apply delete_empty. }
    destruct (Hmin Hne0) as [? ?]. split; [done|]. by apply Hmono.
Qed.

Lemma lfu_reachable_inv c : reachable c → inv c.
Proof.
  induction 1 as [cap c Hnew|c k v c' r _ IH HAdd|c k c' r _ IH HGet
                  |c k c' r _ IH HRem].
  - by eapply lfu_NewCache_inv.
  - by eapply lfu_Add_inv.
  - by eapply lfu_Get_inv.
  - by eapply lfu_Remove_inv.
Qed.
End lfu_proofs.

(** ** What callers of the LRU engine can rely on *)
Section lru_contract.
Import lru.
Context {K : Type} `{Countable K} {V : Type} `{Inhabited V}.
Implicit Types (c : Cache K V) (k : K) (v : V).

(** X2: No call on a reachable state panics. *)
Lemma lru_total c k v :
  reachable c →
  completes (Get c k) ∧ completes (Add c k v) ∧ completes (Remove c k).
Proof.
  intros Hinv%lru_reachable_inv. split_and!.
  - destruct (lru_Get_inv c k Hinv) as (c' & r & -> & _). by eexists.
  - destruct (lru_Add_inv c k v Hinv) as (c' & r & -> & _). by eexists.
  - destruct (lru_Remove_inv c k Hinv) as (c' & r & -> & _). by eexists.
Qed.

Lemma lru_step_reachable c x c' o :
  reachable c → step c x = Done (c', o) → reachable c'.
Proof.
  intros Hc. destruct x as [k v|k|k]; simpl.
  - destruct (Add c k v) as [[c1 [e r]]|] eqn:HAdd; [|done].
    intros [= <- _]. by eapply reach_Add.
  - destruct (Get c k) as [[c1 [v found]]|] eqn:HGet; [|done].
    intros [= <- _]. by eapply reach_Get.
  - destruct (Remove c k) as [[c1 b]|] eqn:HRem; [|done].
    intros [= <- _]. by eapply reach_Remove.
Qed.

Lemma lru_run_reachable xs c c' os :
  reachable c → run c xs = Done (c', os) → reachable c'.
Proof.
  revert c os. induction xs as [|x xs IH]; intros c os Hc; simpl.
  - by intros [= <- _].
  - destruct (step c x) as [[c1 o]|] eqn:Hstep; [|done]. simpl.
    destruct (run c1 xs) as [[c2 os']|] eqn:Hrun; [|done].
    intros [= <- _]. eapply IH; [|done]. by eapply lru_step_reachable.
Qed.

(** [Add] on the LRU engine: the three cases of the contract. *)
Lemma lru_Add_conforms c k v :
  reachable c →
  ∃ c', peek c' k = Some v ∧
    match data c !! k with
    | Some _ =>
        Add c k v = Done (c', (false, true)) ∧ data c' = data c
    | None =>
        if decide (N.of_nat (size (data c)) = capacity c) then
          ∃ victim, oldest c = Some victim ∧ victim ≠ k ∧
            is_Some (data c !! victim) ∧
            Add c k v = Done (c', (true, false)) ∧
            data c' = delete victim (<[k := brk c]> (data c))
        else
          (N.of_nat (size (data c)) < capacity c)%N ∧
          Add c k v = Done (c', (false, false)) ∧
          data c' = <[k := brk c]> (data c)
    end.
Proof.
  intros ([l Hs] & Hsz & Hcap)%lru_reachable_inv.
  destruct (data c !! k) as [a|] eqn:Hk.
  - destruct (lru_Add_present c l k v a Hs Hk)
      as (c' & l' & HAdd & _ & Hd & _ & Hpeek & _).
    by exists c'.
  - destruct (lru_Add_absent c l k v Hs Hk Hsz Hcap)
      as (c' & l' & _ & _ & Hpeek & _ & Hres).
    exists c'. split; [done|]. case_decide; [done|].
    split; [lia|done].
Qed.

Lemma lru_Remove_conforms c k :
  reachable c →
  (is_Some (data c !! k) →
   ∃ c', Remove c k = Done (c', true) ∧
         Get c' k = Done (c', (inhabitant, false)) ∧
         data c' = delete k (data c) ∧
         ∀ k', k' ≠ k → peek c' k' = peek c k') ∧
  (data c !! k = None → Remove c k = Done (c, false)).
Proof.
  intros ([l Hs] & _)%lru_reachable_inv.
  destruct (lru_Remove_spec c l k Hs)
    as (c' & l' & HRem & _ & Hd & _ & Hpay & Hnone).
  split.
  - intros Hk. exists c'. rewrite HRem, bool_decide_eq_true_2 by done.
    split_and!; [done| |done|].
    + unfold Get. by rewrite Hd, lookup_delete_eq.
    + intros k' Hne. unfold peek. rewrite Hd, lookup_delete_ne by done.
      destruct (data c !! k') as [a|]; [|done]. simpl.
      specialize (Hpay a). unfold payload in Hpay.
      destruct (mem c' !! a), (mem c !! a); simpl in *; congruence.
  - intros Hk. rewrite HRem, (Hnone Hk), Hk.
    rewrite bool_decide_eq_false_2; [done|]. by intros [??].
Qed.
End lru_contract.

(** ** What callers of the LFU engine can rely on *)
Section lfu_contract.
Import lfu.
Context {K : Type} `{Countable K} {V : Type} `{Inhabited V}.
Implicit Types (c : Cache K V) (k : K) (v : V).

Lemma lfu_step_reachable c x c' o :
  reachable c → step c x = Done (c', o) → reachable c'.
Proof.
  intros Hc. destruct x as [k v|k|k]; simpl.
  - destruct (Add c k v) as [[c1 [e r]]|] eqn:HAdd; [|done].
    intros [= <- _]. by eapply reach_Add.
  - destruct (Get c k) as [[c1 [v found]]|] eqn:HGet; [|done].
    intros [= <- _]. by eapply reach_Get.
  - destruct (Remove c k) as [[c1 b]|] eqn:HRem; [|done].
    intros [= <- _]. by eapply reach_Remove.
Qed.

Lemma lfu_run_reachable xs c c' os :
  reachable c → run c xs = Done (c', os) → reachable c'.
Proof.
  revert c os. induction xs as [|x xs IH]; intros c os Hc; simpl.
  - by intros [= <- _].
  - destruct (step c x) as [[c1 o]|] eqn:Hstep; [|done]. simpl.
    destruct (run c1 xs) as [[c2 os']|] eqn:Hrun; [|done].
    intros [= <- _]. eapply IH; [|done]. by eapply lfu_step_reachable.
Qed.

(** [Remove] never panics on a reachable state. *)
Lemma lfu_Remove_conforms c k :
  reachable c →
  (is_Some (data c !! k) →
   ∃ c', Remove c k = Done (c', true) ∧
         Get c' k = Done (c', (inhabitant, false)) ∧
         data c' = delete k (data c) ∧
         ∀ k', k' ≠ k → peek c' k' = peek c k') ∧
  (data c !! k = None → Remove c k = Done (c, false)).
Proof.
  intros ([G HG] & _)%lfu_reachable_inv.
  destruct (lfu_Remove_spec c G k HG)
    as (c' & G' & HRem & _ & Hd & (_ & _ & Hpay) & _ & Hnone).
  split.
  - intros Hk. exists c'. rewrite HRem, bool_decide_eq_true_2 by done.
    split_and!; [done| |done|].
    + unfold Get. by rewrite Hd, lookup_delete_eq.
    + intros k' Hne. unfold peek. rewrite Hd, lookup_delete_ne by done.
      destruct (data c !! k') as [a|] eqn:Hk'; [|done]. simpl.
      destruct (lfu_binv_lookup c G k' a HG Hk') as (e & He & _).
      specialize (Hpay a). unfold payload in Hpay. rewrite He in Hpay.
      rewrite He. simpl in *.
      destruct (mem c' !! a); simpl in *.
      * assert (Some (key e0, value e0) = Some (key e, value e))
          by (apply Hpay; by eexists). congruence.
      * assert (@None (K * V) = Some (key e, value e))
          by (apply Hpay; by eexists). done.
  - intros Hk. rewrite HRem, (Hnone Hk), Hk.
    rewrite bool_decide_eq_false_2; [done|]. by intros [??].
Qed.

(** When [Add] completes, it returns what the contract says. *)
Lemma lfu_Add_when_completed c k v c' r :
  reachable c → Add c k v = Done (c', r) →
  peek c' k = Some v ∧
  r = match data c !! k with
      | Some _ => (false, true)
      | None => (bool_decide (N.of_nat (size (data c)) = capacity c), false)
      end.
Proof.
  intros Hinv%lfu_reachable_inv HAdd.
  destruct (data c !! k) as [a|] eqn:Hk.
  - destruct Hinv as ([G HG] & _).
    pose proof (lfu_Add_present c G k v a HG Hk) as Hspec.
    rewrite HAdd in Hspec. by destruct Hspec as (_&_&_&_&_&?&?).
  - pose proof (lfu_Add_absent c k v Hinv Hk) as Hspec.
    rewrite HAdd in Hspec. by destruct Hspec as (_&_&?&?&_).
Qed.

(** X11: A frequency node, once in the map, stays there: no completed call
    takes the branch of [removeFromFrequency] that deletes it. *)
Lemma lfu_frequencies_never_shrink c x c' o f :
  reachable c → step c x = Done (c', o) →
  is_Some (frequencies c !! f) → is_Some (frequencies c' !! f).
Proof.
  intros Hinv%lfu_reachable_inv Hstep Hf.
  pose proof Hinv as ([G HG] & _).
  destruct x as [k v|k|k]; simpl in Hstep.
  - destruct (Add c k v) as [[c1 [e r]]|] eqn:HAdd; [|done].
    injection Hstep as <- _.
    destruct (data c !! k) as [a|] eqn:Hk.
    + pose proof (lfu_Add_present c G k v a HG Hk) as Hspec.
      rewrite HAdd in Hspec. destruct Hspec as (_&_&_&_&Hmono&_). by apply Hmono.
    + pose proof (lfu_Add_absent c k v Hinv Hk) as Hspec.
      rewrite HAdd in Hspec. destruct Hspec as (_&_&_&_&_&_&Hmono). by apply Hmono.
  - pose proof (lfu_Get_spec c G k HG) as Hspec.
    destruct (Get c k) as [[c1 [v found]]|] eqn:HGet; [|done].
    injection Hstep as <- _.
    destruct Hspec as (_ & _ & (_ & Hmono & _) & _). by apply Hmono.
  - destruct (lfu_Remove_spec c G k HG)
      as (c1 & G' & HRem & _ & _ & (_ & Hmono & _) & _).
    rewrite HRem in Hstep. injection Hstep as <- _. by apply Hmono.
Qed.

(** X12: [minFrequency] is 0 until the first insertion and 1 ever after. *)
Lemma lfu_minFrequency_stuck c :
  reachable c → minFrequency c = 0%N ∨ minFrequency c = 1%N.
Proof.
  induction 1 as [cap c Hnew|c k v c' r Hc IH HAdd|c k c' r Hc IH HGet
                  |c k c' r Hc IH HRem].
  - left. unfold NewCache in Hnew. destruct (cap <=? 0)%N; [done|].
    by injection Hnew as <-.
  - pose proof (lfu_reachable_inv c Hc) as Hinv.
    destruct (data c !! k) as [a|] eqn:Hk.
    + destruct Hinv as ([G HG] & _).
      pose proof (lfu_Add_present c G k v a HG Hk) as Hspec.
      rewrite HAdd in Hspec. destruct Hspec as (_&_&_&->&_). done.
    + pose proof (lfu_Add_absent c k v Hinv Hk) as Hspec.
      rewrite HAdd in Hspec. destruct Hspec as (_&_&_&_&_&->&_). by right.
  - destruct (lfu_reachable_inv c Hc) as ([G HG] & _).
    pose proof (lfu_Get_spec c G k HG) as Hspec. rewrite HGet in Hspec.
    destruct Hspec as (_ & _ & _ & -> & _). done.
  - destruct (lfu_reachable_inv c Hc) as ([G HG] & _).
    destruct (lfu_Remove_spec c G k HG) as (c1 & G' & HRem1 & _ & _ & _ & Hm & _).
    assert (c1 = c') as -> by congruence. by rewrite Hm.
Qed.
End lfu_contract.

(** ** Construction *)
Section construction.
Context {K : Type} `{Countable K} {V : Type} `{Inhabited V}.

(** [NewCache] fails exactly on capacity 0, and then returns no cache;
    otherwise it returns an empty cache of that capacity. *)
Lemma lru_NewCache_contract (cap : N) :
  (cap = 0%N →
   lru.NewCache (K:=K) (V:=V) cap = (None, Some "must provide a positive size")) ∧
  (cap ≠ 0%N →
   ∃ c : lru.Cache K V,
     lru.NewCache cap = (Some c, None) ∧ lru.reachable c ∧
     lru.data c = ∅ ∧ lru.capacity c = cap).
Proof.
  unfold lru.NewCache. split.
  - by intros ->.
  - intros Hcap. destruct (cap <=? 0)%N eqn:Hle; [apply N.leb_le in Hle; lia|].
    eexists. split; [done|]. split; [|done].
    apply (lru.reach_NewCache cap). unfold lru.NewCache. by rewrite Hle.
Qed.

Lemma lfu_NewCache_contract (cap : N) :
  (cap = 0%N →
   lfu.NewCache (K:=K) (V:=V) cap = (None, Some "must provide a positive size")) ∧
  (cap ≠ 0%N →
   ∃ c : lfu.Cache K V,
     lfu.NewCache cap = (Some c, None) ∧ lfu.reachable c ∧
     lfu.data c = ∅ ∧ lfu.capacity c = cap).
Proof.
  unfold lfu.NewCache. split.
  - by intros ->.
  - intros Hcap. destruct (cap <=? 0)%N eqn:Hle; [apply N.leb_le in Hle; lia|].
    eexists. split; [done|]. split; [|done].
    apply (lfu.reach_NewCache cap). unfold lfu.NewCache. by rewrite Hle.
Qed.
End construction.

(** ** The properties of the specification *)
Section claims.
Import scenario.
Open Scope string_scope.

Lemma lru_new2_reachable : lru.reachable lru_new2.
Proof. by apply (lru.reach_NewCache 2). Qed.

Lemma lfu_new_reachable (n : N) : n ≠ 0%N → lfu.reachable (lfu_new n).
Proof.
  intros Hn. apply (lfu.reach_NewCache n). unfold lfu.NewCache.
  destruct (n <=? 0)%N eqn:Hle; [apply N.leb_le in Hle; lia|done].
Qed.

(** C1: every public operation after a successful construction is total,
    with no reachable nil dereference, in particular in the LFU bucket
    bookkeeping after a bucket was emptied.  The LFU engine breaks this:
    on capacity 1, after [Add(k1, 1)] and [Remove(k1)] the bucket for
    frequency 1 is still in the map with a nil entry pointer in [head],
    and [Add(k2, 2)] dereferences it. *)
Theorem lfu_Add_panics_on_emptied_bucket :
  lfu.NewCache 1 = (Some (lfu_new 1), None) ∧
  ∃ c,
    lfu.run (lfu_new 1) [CallAdd "k1" 1; CallRemove "k1"]
      = Done (c, [Added false false; Removed true]) ∧
    lfu.reachable c ∧
    lfu.frequencies c !! 1%N
      = Some (lfu.FrequencyNode 1 (lfu.EntryPtr None) (lfu.EntryPtr None)) ∧
    lfu.Add c "k2" 2 = Panic NilDereference.
Proof.
  split; [done|]. eexists. split; [vm_compute; reflexivity|].
  split; [|split; vm_compute; reflexivity].
  eapply (lfu_run_reachable [CallAdd "k1" 1; CallRemove "k1"]);
    [apply (lfu_new_reachable 1); lia|].
  vm_compute. reflexivity.
Qed.

(** C2: in the LFU engine a frequency is a key of the map exactly when
    its bucket holds a live entry, an emptied bucket being deleted in the
    same operation.  The code keeps the emptied bucket: after [Add(k1, 1)]
    and [Remove(k1)] the map still has the key 1 and no entry is live. *)
Theorem lfu_emptied_bucket_stays_in_map :
  ∃ c,
    lfu.run (lfu_new 1) [CallAdd "k1" 1; CallRemove "k1"]
      = Done (c, [Added false false; Removed true]) ∧
    lfu.data c = ∅ ∧
    is_Some (lfu.frequencies c !! 1%N) ∧ ¬ lfu.populated c 1.
Proof.
  eexists. split; [vm_compute; reflexivity|].
  split; [vm_compute; reflexivity|]. split.
  - vm_compute. by eexists.
  - unfold lfu.populated. vm_compute. apply not_elem_of_nil.
Qed.

(** C3: in the LFU engine [minFrequency] is the smallest frequency with
    a live entry whenever the cache is not empty, and is advanced when
    the last entry leaves its bucket.  The code does not advance it:
    after [Add(k1, 1)] and [Get(k1)] the only live entry has frequency 2
    and [minFrequency] is still 1. *)
Theorem lfu_minFrequency_not_advanced :
  ∃ c,
    lfu.run (lfu_new 1) [CallAdd "k1" 1; CallGet "k1"]
      = Done (c, [Added false false; Got 1 true]) ∧
    lfu.data c ≠ ∅ ∧ lfu.live_frequencies c = [2%N] ∧
    lfu.minFrequency c = 1%N ∧ ¬ lfu.populated c (lfu.minFrequency c).
Proof.
  eexists. split; [vm_compute; reflexivity|]. split_and!.
  - apply map_size_non_empty_iff. vm_compute. lia.
  - vm_compute. reflexivity.
  - reflexivity.
  - unfold lfu.populated. vm_compute.
    intros [Heq|Hin%elem_of_nil]%elem_of_cons; [discriminate Heq|done].
Qed.

(** C4: on the LFU engine with capacity 3, [Add(k1,1); Add(k2,2);
    Add(k3,3); Get(k1); Get(k1); Get(k2); Add(k4,4)] evicts exactly k3.
    The code does not get that far: the first five calls complete, the
    call [Get(k2)] panics on the bucket for frequency 2 that the second
    [Get(k1)] emptied. *)
Theorem lfu_frequency_priority_panics :
  lfu.NewCache 3 = (Some (lfu_new 3), None) ∧
  (∃ c, lfu.run (lfu_new 3) (take 5 lfu_priority)
          = Done (c, [Added false false; Added false false;
                      Added false false; Got 1 true; Got 1 true]) ∧
        lfu.Get c "k2" = Panic NilDereference) ∧
  lfu.run (lfu_new 3) lfu_priority = Panic NilDereference.
Proof.
  split; [done|]. split.
  - eexists. split; vm_compute; reflexivity.
  - vm_compute. reflexivity.
Qed.

(** C5: [Get] acquires the same exclusive lock as [Add] and [Remove], so
    that no two goroutines relink the shared cells at once.  In both
    engines [Get] calls [RLock]: a second [Get] is admitted while the
    first is inside, where a call under [Lock] would wait, and [Get]
    does write the shared list. *)
Theorem Get_runs_under_shared_lock :
  lru.Get_lock = RLock ∧ lfu.Get_lock = RLock ∧
  lru.Add_lock = Lock ∧ lfu.Add_lock = Lock ∧
  (acquire unlocked lru.Get_lock ≫= λ m, acquire m lru.Get_lock)
    = Some {| writer := false; readers := 2 |} ∧
  (acquire unlocked lfu.Get_lock ≫= λ m, acquire m lfu.Get_lock)
    = Some {| writer := false; readers := 2 |} ∧
  (acquire unlocked lru.Add_lock ≫= λ m, acquire m lru.Get_lock) = None ∧
  (acquire unlocked lru.Get_lock ≫= λ m, acquire m lru.Add_lock) = None ∧
  ∃ c c' r,
    lru.run lru_new2 [CallAdd "a" 1; CallAdd "b" 2] = Done (c, r) ∧
    lru.Get c "a" = Done (c', (1, true)) ∧
    lru.head c = Some 1 ∧ lru.head c' = Some 0 ∧ lru.mem c' ≠ lru.mem c.
Proof.
  split_and!; try reflexivity.
  eexists _, _, _. split; [vm_compute; reflexivity|].
  split; [vm_compute; reflexivity|]. split_and!; try reflexivity.
  intros Heq. apply (f_equal (λ m, lru.prev <$> m !! 0)) in Heq.
  vm_compute in Heq. discriminate Heq.
Qed.

(** C6: for both engines, after each completed [Add] call, whatever
    calls came before it, the index holds at most [capacity] entries
    (and [Add] leaves the configured capacity as it is). *)
Theorem Add_respects_capacity :
  (∀ (K : Type) `{Countable K} (V : Type) `{Inhabited V}
     (c c' : lru.Cache K V) (k : K) (v : V) (r : bool * bool),
     lru.reachable c → lru.Add c k v = Done (c', r) →
     (N.of_nat (size (lru.data c')) ≤ lru.capacity c')%N ∧
     lru.capacity c' = lru.capacity c) ∧
  (∀ (K : Type) `{Countable K} (V : Type) `{Inhabited V}
     (c c' : lfu.Cache K V) (k : K) (v : V) (r : bool * bool),
     lfu.reachable c → lfu.Add c k v = Done (c', r) →
     (N.of_nat (size (lfu.data c')) ≤ lfu.capacity c')%N ∧
     lfu.capacity c' = lfu.capacity c).
Proof.
  split.
  - intros K ? ? V ? c c' k v r Hc HAdd.
    pose proof (lru.reach_Add c k v c' r Hc HAdd) as Hc'.
    apply lru_reachable_inv in Hc' as (_ & Hsz & _). split; [done|].
    pose proof (lru_reachable_inv c Hc) as ([l Hs] & Hsz0 & Hcap0).
    destruct (lru.data c !! k) as [a|] eqn:Hk.
    + destruct (lru_Add_present c l k v a Hs Hk) as (c1 & l' & HAdd1 & _ & _ & Hcap & _).
      congruence.
    + destruct (lru_Add_absent c l k v Hs Hk Hsz0 Hcap0)
        as (c1 & l' & _ & Hcap & _ & _ & Hres).
      case_decide.
      * destruct Hres as (victim & _ & _ & _ & HAdd1 & _). congruence.
      * destruct Hres as (HAdd1 & _). congruence.
  - intros K ? ? V ? c c' k v r Hc HAdd.
    pose proof (lfu.reach_Add c k v c' r Hc HAdd) as Hc'.
    apply lfu_reachable_inv in Hc' as (_ & Hsz & _). split; [done|].
    pose proof (lfu_reachable_inv c Hc) as Hinv.
    destruct (lfu.data c !! k) as [a|] eqn:Hk.
    + destruct Hinv as ([G HG] & _).
      pose proof (lfu_Add_present c G k v a HG Hk) as Hspec.
      rewrite HAdd in Hspec. by destruct Hspec as (_&_&?&_).
    + pose proof (lfu_Add_absent c k v Hinv Hk) as Hspec.
      rewrite HAdd in Hspec. by destruct Hspec as (_&?&_).
Qed.

Lemma Add_respects_capacity_witness :
  ((N.of_nat (size (lru.data lru_a)) ≤ lru.capacity lru_a)%N ∧
   lru.capacity lru_a = lru.capacity lru_new2) ∧
  ((N.of_nat (size (lfu.data lfu_k1)) ≤ lfu.capacity lfu_k1)%N ∧
   lfu.capacity lfu_k1 = lfu.capacity (lfu_new 1)).
Proof.
  split.
  - apply (proj1 Add_respects_capacity string _ _ nat _
             lru_new2 lru_a "a" 1 (false, false)).
    + apply (lru.reach_NewCache 2). reflexivity.
    + vm_compute. reflexivity.
  - apply (proj2 Add_respects_capacity string _ _ nat _
             (lfu_new 1) lfu_k1 "k1" 1 (false, false)).
    + apply (lfu.reach_NewCache 1). reflexivity.
    + vm_compute. reflexivity.
Defined.

(** C7: on the LRU engine with capacity 2, [Add(a,1); Add(b,2); Get(a);
    Add(c,3)] evicts exactly b, and afterwards [Get(a)] and [Get(c)]
    both hit. *)
Theorem lru_order_scenario :
  lru.NewCache 2 = (Some lru_new2, None) ∧
  ∃ c3 c4 c6,
    lru.run lru_new2 (take 3 lru_order)
      = Done (c3, [Added false false; Added false false; Got 1 true]) ∧
    dom (lru.data c3) = {["a"; "b"]} ∧
    lru.oldest c3 = Some "b" ∧
    lru.Add c3 "c" 3 = Done (c4, (true, false)) ∧
    dom (lru.data c4) = {["a"; "c"]} ∧
    lru.run lru_new2 lru_order
      = Done (c4, [Added false false; Added false false; Got 1 true;
                   Added true false]) ∧
    lru.run c4 [CallGet "a"; CallGet "c"]
      = Done (c6, [Got 1 true; Got 3 true]).
Proof.
  split; [done|]. eexists _, _, _.
  split_and!; vm_compute; reflexivity.
Qed.

(** C8: for both engines [Add] returns (false, true) and overwrites the
    value when the key is present, (true, false) with the victim gone
    from the index when the key is absent and the cache is at capacity,
    and (false, false) when the key is absent with spare capacity.  The
    LRU engine does ([lru_Add_conforms]); the LFU engine panics instead
    of returning, in each of the three cases, once a bucket was
    emptied. *)
Theorem lfu_Add_contract_broken :
  (∃ c os,
     lfu.run (lfu_new 1) [CallAdd "k1" 1; CallGet "k1"] = Done (c, os) ∧
     lfu.data c !! "k2" = None ∧
     N.of_nat (size (lfu.data c)) = lfu.capacity c ∧
     lfu.Add c "k2" 2 = Panic NilDereference) ∧
  (∃ c os,
     lfu.run (lfu_new 2) [CallAdd "k1" 1; CallGet "k1"] = Done (c, os) ∧
     lfu.data c !! "k2" = None ∧
     (N.of_nat (size (lfu.data c)) < lfu.capacity c)%N ∧
     lfu.Add c "k2" 2 = Panic NilDereference) ∧
  (∃ c os,
     lfu.run (lfu_new 2)
       [CallAdd "k1" 1; CallAdd "k2" 2; CallGet "k1"; CallGet "k1"]
       = Done (c, os) ∧
     is_Some (lfu.data c !! "k2") ∧
     lfu.Add c "k2" 22 = Panic NilDereference).
Proof.
  split_and!; eexists _, _; (split; [vm_compute; reflexivity|]).
  - split_and!; vm_compute; reflexivity.
  - split_and!; vm_compute; reflexivity.
  - split; [vm_compute; by eexists|vm_compute; reflexivity].
Qed.

(** C9: for both engines, on every reachable state, [Remove] of a
    present key returns true, the key is gone from the index and a
    following [Get] of it misses, and no other key loses its entry or
    its value; [Remove] of an absent key returns false and leaves the
    whole state as it was. *)
Theorem Remove_contract :
  (∀ (K : Type) `{Countable K} (V : Type) `{Inhabited V}
     (c : lru.Cache K V) (k : K),
     lru.reachable c →
     (is_Some (lru.data c !! k) →
      ∃ c', lru.Remove c k = Done (c', true) ∧
            lru.Get c' k = Done (c', (inhabitant, false)) ∧
            lru.data c' = delete k (lru.data c) ∧
            ∀ k', k' ≠ k → lru.peek c' k' = lru.peek c k') ∧
     (lru.data c !! k = None → lru.Remove c k = Done (c, false))) ∧
  (∀ (K : Type) `{Countable K} (V : Type) `{Inhabited V}
     (c : lfu.Cache K V) (k : K),
     lfu.reachable c →
     (is_Some (lfu.data c !! k) →
      ∃ c', lfu.Remove c k = Done (c', true) ∧
            lfu.Get c' k = Done (c', (inhabitant, false)) ∧
            lfu.data c' = delete k (lfu.data c) ∧
            ∀ k', k' ≠ k → lfu.peek c' k' = lfu.peek c k') ∧
     (lfu.data c !! k = None → lfu.Remove c k = Done (c, false))).
Proof.
  split.
  - intros K ? ? V ? c k Hc. by apply lru_Remove_conforms.
  - intros K ? ? V ? c k Hc. by apply lfu_Remove_conforms.
Qed.

Lemma Remove_contract_witness :
  ((∃ c', lru.Remove lru_a "a" = Done (c', true) ∧
          lru.Get c' "a" = Done (c', (inhabitant, false)) ∧
          lru.data c' = delete "a" (lru.data lru_a) ∧
          ∀ k', k' ≠ "a" → lru.peek c' k' = lru.peek lru_a k') ∧
   lru.Remove lru_a "b" = Done (lru_a, false)) ∧
  ((∃ c', lfu.Remove lfu_k1 "k1" = Done (c', true) ∧
          lfu.Get c' "k1" = Done (c', (inhabitant, false)) ∧
          lfu.data c' = delete "k1" (lfu.data lfu_k1) ∧
          ∀ k', k' ≠ "k1" → lfu.peek c' k' = lfu.peek lfu_k1 k') ∧
   lfu.Remove lfu_k1 "k2" = Done (lfu_k1, false)).
Proof.
  assert (Hlru : lru.reachable lru_a).
  { apply (lru.reach_Add lru_new2 "a" 1 lru_a (false, false)).
    - apply (lru.reach_NewCache 2). reflexivity.
    - vm_compute. reflexivity. }
  assert (Hlfu : lfu.reachable lfu_k1).
  { apply (lfu.reach_Add (lfu_new 1) "k1" 1 lfu_k1 (false, false)).
    - apply (lfu.reach_NewCache 1). reflexivity.
    - vm_compute. reflexivity. }
  split; split.
  - apply (proj1 (proj1 Remove_contract string _ _ nat _ lru_a "a" Hlru)).
    vm_compute. eexists. reflexivity.
  - apply (proj2 (proj1 Remove_contract string _ _ nat _ lru_a "b" Hlru)).
    vm_compute. reflexivity.
  - apply (proj1 (proj2 Remove_contract string _ _ nat _ lfu_k1 "k1" Hlfu)).
    vm_compute. eexists. reflexivity.
  - apply (proj2 (proj2 Remove_contract string _ _ nat _ lfu_k1 "k2" Hlfu)).
    vm_compute. reflexivity.
Defined.

(** C10: for both engines [NewCache] fails exactly on capacity 0,
    returning no cache with the error, and succeeds for every capacity
    of at least 1 ([lru_NewCache_contract], [lfu_NewCache_contract]);
    this check is the only failure path of the library.  The last part
    fails on the LFU engine: a cache that was constructed successfully
    panics when a key is added, removed and added again. *)
Theorem lfu_failure_after_construction :
  lfu.NewCache 2 = (Some (lfu_new 2), None) ∧
  lfu.run (lfu_new 2) [CallAdd "a" 1; CallRemove "a"]
    = Done (lfu.MkCache ∅
              {[1%N := lfu.FrequencyNode 1 (lfu.EntryPtr None) (lfu.EntryPtr None)]}
              2 1 {[0 := lfu.Entry "a" 1 1 None None]} 1,
            [Added false false; Removed true]) ∧
  lfu.run (lfu_new 2) [CallAdd "a" 1; CallRemove "a"; CallAdd "a" 1]
    = Panic NilDereference.
Proof.
  split_and!; [done|vm_compute; reflexivity..].
Qed.
End claims.

(** ** The recency order of the LRU engine *)
Lemma NoDup_omap_inj {A B} (f : A → option B) (l : list A) :
  NoDup l →
  (∀ x y b, x ∈ l → y ∈ l → f x = Some b → f y = Some b → x = y) →
  NoDup (omap f l).
Proof.
  induction 1 as [|x l Hx Hnd IH]; intros Hinj; simpl; [constructor|].
  assert (IH' : NoDup (omap f l)).
  { apply IH. intros y z b Hy Hz. apply Hinj; by right. }
  destruct (f x) as [b|] eqn:Hfx; [|done].
  apply NoDup_cons. split; [|done].
  intros (y & Hy & Hfy)%list_elem_of_omap.
  assert (x = y) as -> by (apply (Hinj x y b); [left|by right|done..]).
  done.
Qed.

Lemma filter_ne_id {A} `{EqDecision A} (k : A) (l : list A) :
  k ∉ l → filter (λ x, x ≠ k) l = l.
Proof.
  induction l as [|x l IH]; [done|]. intros Hk.
  rewrite filter_cons. rewrite decide_True.
  - f_equal. apply IH. intros Hin. apply Hk. by right.
  - intros ->. apply Hk. left.
Qed.

Lemma filter_ne_middle {A} `{EqDecision A} (k : A) (l1 l2 : list A) :
  k ∉ l1 → k ∉ l2 →
  filter (λ x, x ≠ k) (l1 ++ k :: l2) = l1 ++ l2.
Proof.
  intros H1 H2. rewrite filter_app, filter_cons, decide_False by (by intros ?).
  by rewrite !filter_ne_id.
Qed.

Section lru_order.
Import lru.
Context {K : Type} `{Countable K} {V : Type} `{Inhabited V}.
Implicit Types (c : Cache K V) (l : list addr) (a b : addr) (k : K) (v : V).

Lemma lru_walk_dseg (m : gmap addr (entry K V)) p l fuel :
  dseg prev next m p l None → length l ≤ fuel →
  walk m (hd_error l) fuel = omap (keyof m) l.
Proof.
  revert p fuel. induction l as [|a t IH]; intros p fuel Hd Hlen.
  - by destruct fuel.
  - destruct Hd as (e & He & _ & Hn & Ht). simpl in Hlen.
    destruct fuel as [|n]; [lia|]. simpl. unfold keyof at 1. rewrite He. simpl.
    f_equal. rewrite Hn.
    replace (or_else (hd_error t) None) with (hd_error t) by (by destruct t).
    eapply IH; [done|lia].
Qed.

Lemma lru_shape_keyof c l a :
  shape l c → a ∈ l → ∃ k, keyof (mem c) a = Some k ∧ data c !! k = Some a.
Proof.
  intros ((_ & Hch & _) & Hidx & _) Ha.
  destruct (dseg_lookup _ _ _ _ _ _ a Hch Ha) as [e He].
  exists (key e). assert (keyof (mem c) a = Some (key e)) by (unfold keyof; by rewrite He).
  split; [done|]. by apply Hidx.
Qed.

Lemma lru_shape_size c l : shape l c → size (data c) = length l.
Proof.
  intros Hs. pose proof Hs as ((Hnd & _) & Hidx & _).
  rewrite <- length_map_to_list.
  rewrite <- (length_fmap snd (map_to_list (data c))).
  apply Permutation_length. apply NoDup_Permutation; [|done|].
  - apply NoDup_fmap_2_strong; [|apply NoDup_map_to_list].
    intros [k1 a1] [k2 a2] H1%elem_of_map_to_list H2%elem_of_map_to_list.
    simpl. intros <-. apply Hidx in H1 as [_ H1]. apply Hidx in H2 as [_ H2].
    congruence.
  - intros a. rewrite list_elem_of_fmap. split.
    + intros ([k a'] & -> & Hka%elem_of_map_to_list). by apply Hidx in Hka as [? _].
    + intros Ha. destruct (lru_shape_keyof c l a Hs Ha) as (k & _ & Hk).
      exists (k, a). split; [done|]. by apply elem_of_map_to_list.
Qed.

Lemma lru_recency_shape c l :
  shape l c → recency c = omap (keyof (mem c)) l.
Proof.
  intros Hs. pose proof Hs as ((_ & Hch & Hh & _) & _).
  unfold recency. rewrite Hh. eapply lru_walk_dseg; [done|].
  by rewrite (lru_shape_size c l).
Qed.

Lemma lru_omap_keyof_ext (m m' : gmap addr (entry K V)) l :
  (∀ b, b ∈ l → keyof m' b = keyof m b) →
  omap (keyof m') l = omap (keyof m) l.
Proof.
  induction l as [|a t IH]; intros Hext; [done|].
  assert (IH' : omap (keyof m') t = omap (keyof m) t).
  { apply IH. intros b Hb. apply Hext. by right. }
  simpl. rewrite Hext by left.
  destruct (keyof m a); [f_equal|]; exact IH'.
Qed.

(** The cells of a well-formed list carry pairwise different keys. *)
Lemma lru_keys_split c l1 a l2 k :
  shape (l1 ++ a :: l2) c → data c !! k = Some a →
  (omap (keyof (mem c)) (l1 ++ a :: l2)
     = omap (keyof (mem c)) l1 ++ k :: omap (keyof (mem c)) l2) ∧
  (k ∉ omap (keyof (mem c)) l1) ∧ (k ∉ omap (keyof (mem c)) l2).
Proof.
  intros Hs Hk. pose proof Hs as ((Hnd & _) & Hidx & _).
  pose proof (proj1 (Hidx k a) Hk) as [_ Hkey].
  apply NoDup_app in Hnd as (_ & Hdisj & [Ha2 _]%NoDup_cons).
  split_and!.
  - rewrite omap_app. simpl. by rewrite Hkey.
  - intros (b & Hb & Hkb)%list_elem_of_omap.
    assert (data c !! k = Some b).
    { apply Hidx. split; [|done]. apply elem_of_app. by left. }
    assert (b = a) as -> by congruence. apply (Hdisj a Hb). left.
  - intros (b & Hb & Hkb)%list_elem_of_omap.
    assert (data c !! k = Some b).
    { apply Hidx. split; [|done]. apply elem_of_app. right. by right. }
    assert (b = a) as -> by congruence. done.
Qed.

Lemma lru_moveToFront_exact c l1 a l2 :
  listed (l1 ++ a :: l2) c →
  ∃ c', moveToFront c (Some a) = Done c' ∧ listed (a :: l1 ++ l2) c' ∧
        relinked c c'.
Proof.
  intros Hl. unfold moveToFront.
  pose proof Hl as (Hnd & Hch & Hh & _).
  destruct (decide (Some a = head c)) as [Heq|Hne].
  { exists c. split; [done|]. split; [|by repeat split].
    destruct l1 as [|p l1]; [done|]. simpl in Hh.
    assert (p = a) as -> by congruence.
    apply NoDup_cons in Hnd as [Hp _]. destruct Hp.
    apply elem_of_app. right. left. }
  destruct (lru_removeFromList_spec c l1 a l2 Hl) as (c1 & -> & Hl1 & Hrel1 & Hmem).
  simpl.
  apply dseg_app in Hch as [_ (e & He & Hp & Hn & _)].
  destruct (NoDup_drop_middle l1 l2 a Hnd) as [_ Hnotin].
  destruct (lru_addToFront_spec c1 (l1 ++ l2) a e) as (c2 & -> & Hl2 & Hrel2).
  - done.
  - done.
  - congruence.
  - intros [-> ->]%app_eq_nil. simpl in *. by rewrite Hh in Hne.
  - exists c2. split_and!; [done..|]. by eapply lru_relinked_trans.
Qed.

Lemma lru_relinked_shape c c' l l' :
  relinked c c' → (∀ b, b ∈ l' ↔ b ∈ l) → shape l c → listed l' c' →
  shape l' c'.
Proof.
  intros Hrel Hl (_ & Hidx & Hal) Hl'. split_and!; [done| |].
  - by eapply lru_relinked_indexed.
  - by eapply lru_relinked_allocated.
Qed.

Lemma lru_relinked_recency c c' l :
  relinked c c' → omap (keyof (mem c')) l = omap (keyof (mem c)) l.
Proof.
  intros Hrel. apply lru_omap_keyof_ext. intros b _.
  by apply lru_relinked_keyof.
Qed.

(** [Get] and a rewriting [Add] move the key to the front. *)
Lemma lru_promote_recency c c' l1 a l2 k :
  shape (l1 ++ a :: l2) c → data c !! k = Some a →
  listed (a :: l1 ++ l2) c' → relinked c c' →
  shape (a :: l1 ++ l2) c' ∧
  recency c' = k :: filter (λ x, x ≠ k) (recency c).
Proof.
  intros Hs Hk Hl' Hrel.
  assert (Hs' : shape (a :: l1 ++ l2) c').
  { eapply lru_relinked_shape; [done| |done..].
    intros b. rewrite elem_of_cons, !elem_of_app, elem_of_cons. tauto. }
  split; [done|].
  rewrite (lru_recency_shape c' _ Hs'), (lru_recency_shape c _ Hs).
  rewrite (lru_relinked_recency c c') by done.
  destruct (lru_keys_split c l1 a l2 k Hs Hk) as (-> & Hk1 & Hk2).
  rewrite filter_ne_middle by done. simpl.
  destruct Hs as (_ & Hidx & _). apply Hidx in Hk as [_ ->].
  by rewrite omap_app.
Qed.

Lemma lru_removeTail_exact c l1 t :
  shape (l1 ++ [t]) c →
  ∃ c' e,
    mem c !! t = Some e ∧ data c !! key e = Some t ∧
    removeTail c = Done c' ∧ shape l1 c' ∧
    data c' = delete (key e) (data c) ∧ capacity c' = capacity c ∧
    (∀ b, payload (mem c') b = payload (mem c) b).
Proof.
  intros (Hl & Hidx & Hal).
  pose proof Hl as (Hnd & Hch & Hh & Ht). rewrite last_snoc in Ht.
  destruct (dseg_lookup _ _ _ _ _ _ t Hch) as [e He].
  { apply elem_of_app. right. left. }
  assert (Hk : data c !! key e = Some t).
  { apply Hidx. split; [apply elem_of_app; right; left|].
    unfold keyof. by rewrite He. }
  unfold removeTail. rewrite Ht. simpl. rewrite He. simpl.
  set (c0 := set_data (delete (key e) (data c)) c).
  destruct (lru_removeFromList_spec c0 l1 t []) as (c' & Hrm & Hl' & Hrel & _).
  { unfold listed. simpl. rewrite last_snoc. by split_and!. }
  change (tail c0) with (tail c). rewrite Ht, Hrm.
  rewrite app_nil_r in Hl'.
  pose proof Hrel as (Hd & Hcap & Hbrk & Hpay).
  exists c', e. split_and!; [done..| |done|done|done].
  split_and!; [done| |].
  - rewrite <- (app_nil_r l1).
    apply (lru_indexed_delete c c' l1 t [] (key e)); [done..| |].
    + by rewrite Hd.
    + intros b. by apply (lru_relinked_keyof c0 c').
  - apply (lru_relinked_allocated c0 c'); done.
Qed.

(** X7: [Get] of a present key returns its value and moves the key to the
    front of the recency order; the other keys keep their order. *)
Lemma lru_Get_recency c k :
  reachable c → is_Some (data c !! k) →
  ∃ c' v,
    Get c k = Done (c', (v, true)) ∧ peek c k = Some v ∧
    recency c' = k :: filter (λ x, x ≠ k) (recency c).
Proof.
  intros ([l Hs] & _)%lru_reachable_inv [a Hk].
  destruct (lru_shape_lookup c l k a Hs Hk) as (Ha & e & He & Hkey).
  apply list_elem_of_split in Ha as (l1 & l2 & ->).
  destruct (lru_moveToFront_exact c l1 a l2) as (c' & Hmv & Hl' & Hrel);
    [apply Hs|].
  destruct (lru_promote_recency c c' l1 a l2 k Hs Hk Hl' Hrel) as [_ Hrec].
  unfold Get, peek. rewrite Hk. simpl. rewrite Hmv. simpl. rewrite He. simpl.
  destruct Hrel as (_ & _ & _ & Hpay). specialize (Hpay a).
  unfold payload in Hpay. rewrite He in Hpay.
  destruct (mem c' !! a) as [e'|]; simpl in *; [|done].
  exists c', (value e'). split_and!; [done|congruence|done].
Qed.

(** X9: [Remove] takes the key out of the recency order and leaves the order
    of the other keys as it was. *)
Lemma lru_Remove_recency c k :
  reachable c →
  ∃ c' removed,
    Remove c k = Done (c', removed) ∧
    recency c' = filter (λ x, x ≠ k) (recency c).
Proof.
  intros ([l Hs] & _)%lru_reachable_inv.
  destruct (data c !! k) as [a|] eqn:Hk.
  - destruct (lru_shape_lookup c l k a Hs Hk) as (Ha & e & He & Hkey).
    apply list_elem_of_split in Ha as (l1 & l2 & ->).
    pose proof Hs as (Hl & Hidx & Hal).
    destruct (lru_removeFromList_spec c l1 a l2 Hl) as (c1 & Hrm & Hl1 & Hrel & _).
    unfold Remove, removeNode. rewrite Hk, Hrm. simpl.
    set (c' := set_data (delete k (data c1)) c1).
    exists c', true. split; [done|].
    assert (Hs' : shape (l1 ++ l2) c').
    { split_and!.
      - destruct Hl1 as (?&?&?&?). by split_and!.
      - eapply (lru_indexed_delete c c' l1 a l2 k); [apply Hl|done..| |].
        + unfold c'. simpl. by destruct Hrel as (-> & _).
        + intros b. unfold c'. simpl. by apply lru_relinked_keyof.
      - apply lru_relinked_allocated in Hrel; [|done]. intros b. apply Hrel. }
    rewrite (lru_recency_shape c' _ Hs'), (lru_recency_shape c _ Hs).
    change (mem c') with (mem c1). rewrite (lru_relinked_recency c c1) by done.
    destruct (lru_keys_split c l1 a l2 k Hs Hk) as (-> & Hk1 & Hk2).
    rewrite filter_ne_middle by done. by rewrite omap_app.
  - exists c, false. unfold Remove. rewrite Hk. split; [done|].
    rewrite filter_ne_id; [done|].
    rewrite (lru_recency_shape c l Hs).
    intros (b & Hb & Hkb)%list_elem_of_omap.
    destruct Hs as (_ & Hidx & _).
    assert (data c !! k = Some b) by (by apply Hidx). congruence.
Qed.

Lemma lru_Add_absent_exact c l k v :
  shape l c → data c !! k = None →
  (N.of_nat (size (data c)) ≤ capacity c)%N → (0 < capacity c)%N →
  if decide (N.of_nat (size (data c)) = capacity c) then
    ∃ c' l0 t e,
      l = l0 ++ [t] ∧ mem c !! t = Some e ∧ data c !! key e = Some t ∧
      Add c k v = Done (c', (true, false)) ∧ shape (brk c :: l0) c' ∧
      data c' = delete (key e) (<[k := brk c]> (data c)) ∧
      (∀ b, payload (mem c') b =
            if decide (b = brk c) then Some (k, v) else payload (mem c) b)
  else
    ∃ c',
      Add c k v = Done (c', (false, false)) ∧ shape (brk c :: l) c' ∧
      data c' = <[k := brk c]> (data c) ∧
      (∀ b, payload (mem c') b =
            if decide (b = brk c) then Some (k, v) else payload (mem c) b).
Proof.
  intros Hs Hk Hsz Hcap.
  destruct (lru_insert_spec c l k v Hs Hk) as (c2 & Hadd & Hs2 & Hd2 & Hcap2 & Hpay2).
  unfold Add. rewrite Hk. simpl in *. rewrite Hadd. simpl.
  assert (Hsize2 : size (data c2) = S (size (data c))).
  { rewrite Hd2. by apply map_size_insert_None. }
  rewrite Hcap2, Hsize2.
  case_decide as Hfull.
  - rewrite (proj2 (N.ltb_lt _ _)) by lia.
    assert (Hne : l ≠ []).
    { destruct (map_size_ne_0_lookup_1 (data c)) as (k0 & a0 & Hk0); [lia|].
      by eapply lru_shape_nonempty. }
    destruct (snoc_cases l) as [->|(l0 & t & ->)]; [done|].
    destruct (lru_removeTail_exact c2 (brk c :: l0) t Hs2)
      as (c' & e2 & He2 & Hkt2 & -> & Hs' & Hd' & Hcap' & Hpay').
    simpl.
    assert (Htb : t ≠ brk c).
    { intros ->. destruct Hs as ((_&Hch&_) & _ & Hal).
      destruct (dseg_lookup _ _ _ _ _ _ (brk c) Hch) as [? Hm].
      { apply elem_of_app. right. left. }
      assert (brk c < brk c) by (apply Hal; by eexists). lia. }
    destruct Hs as ((_&Hch&_) & Hidx & _).
    destruct (dseg_lookup _ _ _ _ _ _ t Hch) as [e He].
    { apply elem_of_app. right. left. }
    assert (Hkey : key e2 = key e).
    { specialize (Hpay2 t). rewrite decide_False in Hpay2 by done.
      unfold payload in Hpay2. rewrite He, He2 in Hpay2. simpl in Hpay2.
      congruence. }
    exists c', l0, t, e. split_and!; [done|done| |done|done| |].
    + apply Hidx. split; [apply elem_of_app; right; left|].
      unfold keyof. by rewrite He.
    + by rewrite Hd', Hd2, Hkey.
    + intros b. by rewrite Hpay'.
  - rewrite (proj2 (N.ltb_ge _ _)) by lia. simpl.
    exists c2. by split_and!.
Qed.

Lemma lru_length_omap_keyof c l l' :
  shape l c → (∀ a, a ∈ l' → a ∈ l) →
  length (omap (keyof (mem c)) l') = length l'.
Proof.
  intros Hs. induction l' as [|a t IH]; intros Hin; [done|].
  destruct (lru_shape_keyof c l a Hs) as (k & Hk & _); [apply Hin; left|].
  simpl. rewrite Hk. simpl. f_equal. apply IH. intros b Hb. apply Hin. by right.
Qed.

(** X6: The recency order lists exactly the indexed keys, each once, and
    ends with the key of the cell [tail] points to. *)
Lemma lru_recency_index c :
  reachable c →
  NoDup (recency c) ∧ length (recency c) = size (data c) ∧
  (∀ k, k ∈ recency c ↔ is_Some (data c !! k)) ∧
  oldest c = last (recency c).
Proof.
  intros ([l Hs] & _)%lru_reachable_inv.
  rewrite (lru_recency_shape c l Hs).
  pose proof Hs as ((Hnd & Hch & _ & Ht) & Hidx & _).
  split_and!.
  - apply NoDup_omap_inj; [done|]. intros x y k Hx Hy Hkx Hky.
    assert (data c !! k = Some x) by (by apply Hidx).
    assert (data c !! k = Some y) by (by apply Hidx). congruence.
  - rewrite (lru_shape_size c l Hs). by apply (lru_length_omap_keyof c l l).
  - intros k. rewrite list_elem_of_omap. split.
    + intros (a & Ha & Hk). exists a. by apply Hidx.
    + intros [a Hk]. exists a. by apply Hidx.
  - unfold oldest. rewrite Ht.
    destruct (snoc_cases l) as [->|(l0 & t & ->)]; [done|].
    rewrite last_snoc, omap_app. simpl.
    destruct (lru_shape_keyof c _ t Hs) as (k & Hk & _);
      [apply elem_of_app; right; left|].
    fold (keyof (mem c) t). rewrite Hk. simpl. by rewrite last_snoc.
Qed.

(** X8: [Add] puts the key at the front of the recency order: a key that was
    present is moved there, a new key is put there, and when the cache
    was full the last key of the order, and only it, is dropped. *)
Lemma lru_Add_recency c k v :
  reachable c →
  ∃ c' r,
    Add c k v = Done (c', r) ∧
    match data c !! k with
    | Some _ =>
        r = (false, true) ∧
        recency c' = k :: filter (λ x, x ≠ k) (recency c)
    | None =>
        if decide (N.of_nat (size (data c)) = capacity c) then
          r = (true, false) ∧ recency c' = k :: removelast (recency c)
        else
          r = (false, false) ∧ recency c' = k :: recency c
    end.
Proof.
  intros ([l Hs] & Hsz & Hcap)%lru_reachable_inv.
  destruct (data c !! k) as [a|] eqn:Hk.
  - destruct (lru_shape_lookup c l k a Hs Hk) as (Ha & e & He & Hkey).
    apply list_elem_of_split in Ha as (l1 & l2 & ->).
    pose proof (lru_set_value_spec c _ a e v Hs He) as Hs0.
    set (c0 := set_mem (<[a := set_value v e]> (mem c)) c) in *.
    destruct (lru_moveToFront_exact c0 l1 a l2) as (c' & Hmv & Hl' & Hrel);
      [apply Hs0|].
    destruct (lru_promote_recency c0 c' l1 a l2 k Hs0 Hk Hl' Hrel) as [_ Hrec].
    exists c', (false, true). split.
    + unfold Add. rewrite Hk. simpl. rewrite He. simpl. fold c0.
      by rewrite Hmv.
    + split; [done|]. rewrite Hrec. f_equal. f_equal.
      rewrite (lru_recency_shape c0 _ Hs0), (lru_recency_shape c _ Hs).
      apply lru_omap_keyof_ext. intros b _. unfold keyof, c0. simpl.
      destruct (decide (a = b)) as [->|?].
      * by rewrite lookup_insert_eq, He.
      * by rewrite lookup_insert_ne.
  - pose proof (lru_Add_absent_exact c l k v Hs Hk Hsz Hcap) as Hex.
    assert (Hfresh : brk c ∉ l).
    { intros Hin. destruct Hs as ((_&Hch&_) & _ & Hal).
      destruct (dseg_lookup _ _ _ _ _ _ _ Hch Hin) as [? Hm].
      assert (brk c < brk c) by (apply Hal; by eexists). lia. }
    assert (Hkeys : ∀ c' l',
      (∀ b, payload (mem c') b =
            if decide (b = brk c) then Some (k, v) else payload (mem c) b) →
      (∀ b, b ∈ l' → b ∈ l) →
      omap (keyof (mem c')) (brk c :: l') = k :: omap (keyof (mem c)) l').
    { intros c' l' Hpay Hsub.
      assert (Hkeyof : ∀ b, keyof (mem c') b =
                 if decide (b = brk c) then Some k else keyof (mem c) b).
      { intros b. specialize (Hpay b). unfold payload, keyof in *.
        case_decide; destruct (mem c' !! b), (mem c !! b);
          simpl in *; congruence. }
      simpl. rewrite Hkeyof, decide_True by done. f_equal.
      apply lru_omap_keyof_ext. intros b Hb. rewrite Hkeyof, decide_False; [done|].
      intros ->. by apply Hfresh, Hsub. }
    case_decide as Hfull.
    + destruct Hex as (c' & l0 & t & e & -> & He & Hkt & HAdd & Hs' & Hd' & Hpay').
      exists c', (true, false). split; [done|]. split; [done|].
      rewrite (lru_recency_shape c' _ Hs'), (lru_recency_shape c _ Hs).
      rewrite (Hkeys c' l0 Hpay') by (intros b Hb; apply elem_of_app; by left).
      f_equal. rewrite omap_app. simpl. unfold keyof at 3. rewrite He. simpl.
      by rewrite removelast_last.
    + destruct Hex as (c' & HAdd & Hs' & Hd' & Hpay').
      exists c', (false, false). split; [done|]. split; [done|].
      rewrite (lru_recency_shape c' _ Hs'), (lru_recency_shape c _ Hs).
      by rewrite (Hkeys c' l Hpay').
Qed.

(** X3: [Get] returns the stored value of a present key and the zero value
    with [false] for an absent one; it changes neither the index nor any
    stored value, and on a miss it changes nothing at all. *)
Lemma lru_Get_conforms c k :
  reachable c →
  ∃ c',
    Get c k = Done (c', match peek c k with
                        | Some v => (v, true)
                        | None => (inhabitant, false)
                        end) ∧
    (peek c k = None ↔ data c !! k = None) ∧
    data c' = data c ∧ capacity c' = capacity c ∧
    (∀ k', peek c' k' = peek c k') ∧
    (data c !! k = None → c' = c).
Proof.
  intros ([l Hs] & _)%lru_reachable_inv.
  destruct (lru_Get_spec c l k Hs) as (c' & l' & HGet & _ & Hrel & Hmiss).
  exists c'. split_and!; [done| | | | |done].
  - unfold peek. destruct (data c !! k) as [a|] eqn:Hk; simpl; [|done].
    destruct (lru_shape_lookup c l k a Hs Hk) as (_ & e & -> & _). done.
  - by destruct Hrel as (-> & _).
  - by destruct Hrel as (_ & -> & _).
  - intros k'. by apply lru_relinked_peek.
Qed.

(** X4: What [Add] does to the stored values: the added key holds the new
    value, and every other key keeps its value, except the least recently
    used key when [Add] reports an eviction. *)
Lemma lru_Add_effect c k v :
  reachable c →
  ∃ c' evicted rewritten,
    Add c k v = Done (c', (evicted, rewritten)) ∧
    peek c' k = Some v ∧
    (evicted = true → ∃ k', oldest c = Some k' ∧ k' ≠ k) ∧
    (∀ k', k' ≠ k →
       peek c' k' = if decide (evicted = true ∧ oldest c = Some k')
                    then None else peek c k').
Proof.
  intros ([l Hs] & Hsz & Hcap)%lru_reachable_inv.
  destruct (data c !! k) as [a|] eqn:Hk.
  - destruct (lru_Add_present c l k v a Hs Hk)
      as (c' & l' & HAdd & _ & _ & _ & Hpeek & Hothers).
    exists c', false, true. split_and!; [done..| |].
    + done.
    + intros k' Hne. rewrite decide_False by (by intros [? _]). by apply Hothers.
  - pose proof (lru_Add_absent_exact c l k v Hs Hk Hsz Hcap) as Hex.
    assert (Hold : ∀ c' (d : gmap K addr) k',
      (∀ b, payload (mem c') b =
            if decide (b = brk c) then Some (k, v) else payload (mem c) b) →
      data c' !! k' = data c !! k' → peek c' k' = peek c k').
    { intros c' d k' Hpay Hd. unfold peek. rewrite Hd.
      destruct (data c !! k') as [b|] eqn:Hk'; [|done]. simpl.
      destruct (lru_shape_lookup c l k' b Hs Hk') as (_ & e & He & _).
      specialize (Hpay b). rewrite decide_False in Hpay.
      - unfold payload in Hpay. rewrite He in Hpay. rewrite He.
        destruct (mem c' !! b); simpl in *; congruence.
      - intros ->. destruct Hs as (_ & _ & Hal).
        assert (brk c < brk c) by (apply Hal; by eexists). lia. }
    assert (Hnew : ∀ c',
      (∀ b, payload (mem c') b =
            if decide (b = brk c) then Some (k, v) else payload (mem c) b) →
      data c' !! k = Some (brk c) → peek c' k = Some v).
    { intros c' Hpay Hd. unfold peek. rewrite Hd. simpl.
      specialize (Hpay (brk c)). rewrite decide_True in Hpay by done.
      unfold payload in Hpay. destruct (mem c' !! brk c); simpl in *; congruence. }
    case_decide as Hfull.
    + destruct Hex as (c' & l0 & t & e & -> & He & Hkt & HAdd & Hs' & Hd' & Hpay').
      assert (Hvk : key e ≠ k) by (intros Heq; rewrite Heq in Hkt; congruence).
      assert (Hol : oldest c = Some (key e)).
      { unfold oldest. destruct Hs as ((_&_&_&->) & _).
        rewrite last_snoc. simpl. by rewrite He. }
      exists c', true, false. split_and!; [done| | |].
      * apply Hnew; [done|]. by rewrite Hd', lookup_delete_ne, lookup_insert_eq.
      * intros _. by exists (key e).
      * intros k' Hne. rewrite Hol. case_decide as Hv.
        -- destruct Hv as [_ [= Heq]]. unfold peek.
           by rewrite Hd', Heq, lookup_delete_eq.
        -- apply (Hold c' (data c)); [done|].
           rewrite Hd', lookup_delete_ne, lookup_insert_ne; [done..|].
           intros Heq. apply Hv. by rewrite Heq.
    + destruct Hex as (c' & HAdd & Hs' & Hd' & Hpay').
      exists c', false, false. split_and!; [done| |done|].
      * apply Hnew; [done|]. by rewrite Hd', lookup_insert_eq.
      * intros k' Hne. rewrite decide_False by (by intros [? _]).
        apply (Hold c' (data c)); [done|]. by rewrite Hd', lookup_insert_ne.
Qed.

(** X5: What was added is what is got. *)
Lemma lru_Add_Get_roundtrip c k v :
  reachable c →
  ∃ c1 r c2,
    Add c k v = Done (c1, r) ∧ Get c1 k = Done (c2, (v, true)).
Proof.
  intros Hc.
  destruct (lru_Add_conforms c k v Hc) as (c1 & Hpeek & Hm).
  assert (∃ r, Add c k v = Done (c1, r)) as [r HAdd].
  { destruct (data c !! k); [destruct Hm; eauto|].
    case_decide.
    - destruct Hm as (? & _ & _ & _ & ? & _). eauto.
    - destruct Hm as (_ & ? & _). eauto. }
  assert (Hc1 : reachable c1) by (by eapply reach_Add).
  destruct (lru_reachable_inv c1 Hc1) as ([l Hs] & _).
  destruct (lru_Get_spec c1 l k Hs) as (c2 & l' & HGet & _).
  rewrite Hpeek in HGet. by exists c1, r, c2.
Qed.
End lru_order.

(** ** When the LFU engine completes and when it panics *)
Lemma wrap_succ_ne (f : N) : wrap (f + 1) ≠ f.
Proof.
  unfold wrap, uint_modulus. intros Heq.
  assert (Hlt : (f < 2 ^ 64)%N).
  { rewrite <- Heq. by apply N.mod_upper_bound. }
  destruct (decide (f + 1 < 2 ^ 64)%N) as [Hs|Hs].
  - rewrite N.mod_small in Heq by done. lia.
  - assert (f + 1 = 2 ^ 64)%N as Hmax by lia.
    rewrite Hmax, N.Div0.mod_same in Heq. lia.
Qed.

Section lfu_exact.
Import lfu.
Context {K : Type} `{Countable K} {V : Type} `{Inhabited V}.
Implicit Types (c : Cache K V) (G : N → list addr) (l : list addr).
Implicit Types (a b : addr) (k : K) (v : V) (f g : N).

(** A frequency has a live entry exactly when its bucket lists a cell. *)
Lemma lfu_populated_bucket c G f :
  binv None G c → f ∈ live_frequencies c ↔ G f ≠ [].
Proof.
  intros Hinv. unfold live_frequencies. rewrite list_elem_of_omap. split.
  - intros ([k a] & Hka%elem_of_map_to_list & Hf). simpl in Hf.
    destruct (lfu_binv_lookup c G k a Hinv Hka) as (e & He & _ & Ha).
    rewrite He in Hf. simpl in Hf. injection Hf as <-.
    intros Hnil. rewrite Hnil in Ha. by apply elem_of_nil in Ha.
  - intros Hne. destruct (G f) as [|a t] eqn:HG; [done|].
    destruct (binv_member _ _ _ Hinv f a) as (_ & e & He & Hf & Hk).
    { rewrite HG. left. }
    exists (key e, a). split; [by apply elem_of_map_to_list|].
    simpl. by rewrite He, <- Hf.
Qed.

Lemma lfu_frequency_of_Some c G k f :
  binv None G c → frequency_of c k = Some f →
  ∃ a e, data c !! k = Some a ∧ mem c !! a = Some e ∧ key e = k ∧
         frequency e = f ∧ a ∈ G f.
Proof.
  intros Hinv Hf. unfold frequency_of in Hf.
  destruct (data c !! k) as [a|] eqn:Hk; [|done]. simpl in Hf.
  destruct (lfu_binv_lookup c G k a Hinv Hk) as (e & He & Hkey & Ha).
  rewrite He in Hf. injection Hf as <-. by exists a, e.
Qed.

(** [removeFromFrequency] adds no frequency node. *)
Lemma lfu_removeFromFrequency_frequencies c G f l1 a l2 c' :
  binv None G c → G f = l1 ++ a :: l2 →
  removeFromFrequency c (Some a) = Done c' →
  ∀ g, is_Some (frequencies c' !! g) ↔ is_Some (frequencies c !! g).
Proof.
  intros Hinv HG Hrm g.
  assert (Hain : a ∈ G f).
  { rewrite HG. apply elem_of_app. right. left. }
  destruct (binv_member _ _ _ Hinv f a Hain) as (_ & e & He & Hf & Hk).
  pose proof (binv_nodup _ _ _ Hinv f) as Hnd.
  pose proof (binv_chain _ _ _ Hinv f) as Hch.
  pose proof (binv_bucket _ _ _ Hinv f) as Hbk.
  rewrite HG in Hnd, Hch, Hbk.
  destruct (lfu_bucket_Some c f _ a Hbk) as (fn0 & Hfn0 & _).
  { apply elem_of_app. right. left. }
  destruct (lfu_unlink_spec c f l1 a l2 e Hnd Hch Hbk He Hf)
    as (c2 & Hun & Hrel & He2 & Hout & Hch2 & Hfr & fn2 & Hfn2 & Hh2 & Ht2).
  rewrite lfu_removeFromFrequency_split in Hrm. simpl in Hrm.
  rewrite He in Hrm. simpl in Hrm.
  rewrite Hf, Hfn0, Hun in Hrm. simpl in Hrm. unfold settle in Hrm.
  rewrite Hfn2 in Hrm. simpl in Hrm. rewrite Hh2 in Hrm. simpl in Hrm.
  rewrite He2 in Hrm. simpl in Hrm. rewrite lookup_insert_eq in Hrm.
  simpl in Hrm. injection Hrm as <-. simpl.
  destruct (decide (g = f)) as [->|Hg].
  - rewrite Hfn2, Hfn0. split; by eexists.
  - by rewrite Hfr.
Qed.

(** Promotion of the cell [a] of key [k]: it panics exactly when the
    bucket for the next frequency is in the map and lists no cell, and
    otherwise moves the cell there. *)
Lemma lfu_incrementFrequency_exact c G k a e l1 l2 :
  binv None G c → data c !! k = Some a → mem c !! a = Some e →
  G (frequency e) = l1 ++ a :: l2 →
  if decide (is_Some (frequencies c !! wrap (frequency e + 1)) ∧
             G (wrap (frequency e + 1)) = []) then
    incrementFrequency c (Some a) = Panic NilDereference
  else
    ∃ c',
      incrementFrequency c (Some a) = Done c' ∧
      binv None (<[wrap (frequency e + 1) := a :: G (wrap (frequency e + 1))]>
                   (<[frequency e := l1 ++ l2]> G)) c' ∧
      data c' = data c ∧ capacity c' = capacity c ∧
      minFrequency c' = minFrequency c ∧ brk c' = brk c ∧
      (∀ g, is_Some (frequencies c !! g) → is_Some (frequencies c' !! g)) ∧
      (∀ b, fixed (mem c') b =
            if decide (b = a)
            then Some (key e, value e, wrap (frequency e + 1))
            else fixed (mem c) b).
Proof.
  intros Hinv Hk He0 HG. unfold incrementFrequency.
  destruct (lfu_binv_lookup c G k a Hinv Hk) as (e' & He & Hkey & Ha).
  assert (e' = e) as -> by congruence. clear He0.
  simpl. rewrite He. simpl.
  assert (Hbf : is_Some (frequencies c !! frequency e)).
  { pose proof (binv_bucket _ _ _ Hinv (frequency e)) as Hbk.
    unfold bucket_ok in Hbk. destruct (frequencies c !! frequency e); [by eexists|].
    rewrite Hbk in Ha. by apply elem_of_nil in Ha. }
  destruct (lfu_removeFromFrequency_spec c G _ l1 a l2 Hinv HG)
    as (c1 & e1 & Hrm & Hinv1 & Hrel & He1 & Hp1 & Hn1 & Hf1 & Hk1).
  pose proof (lfu_removeFromFrequency_frequencies c G _ l1 a l2 c1 Hinv HG Hrm)
    as Hdom.
  rewrite Hrm. simpl. rewrite He1. simpl.
  set (f' := wrap (frequency e + 1)).
  set (e2 := set_frequency f' e1).
  set (c2 := set_mem (<[a := e2]> (mem c1)) c1).
  set (G1 := <[frequency e := l1 ++ l2]> G) in *.
  assert (Hf' : f' ≠ frequency e) by apply wrap_succ_ne.
  assert (HG1 : G1 f' = G f') by (unfold G1; by rewrite fn_lookup_insert_ne).
  assert (Hskip : ∀ g, a ∉ G1 g).
  { intros g Hin. by destruct (binv_member _ _ _ Hinv1 g a Hin) as [? _]. }
  assert (Hinv2 : binv (Some a) G1 c2).
  { split; unfold c2; simpl.
    - apply (binv_nodup _ _ _ Hinv1).
    - intros g. apply dseg_frame; [done|]. apply (binv_chain _ _ _ Hinv1).
    - apply (binv_bucket _ _ _ Hinv1).
    - intros g b Hb.
      destruct (binv_member _ _ _ Hinv1 g b Hb) as (Hba & eb & Heb & Hfb & Hkb).
      split; [done|]. exists eb. rewrite lookup_insert_ne by congruence. done.
    - intros k' b Hkb.
      destruct (binv_index _ _ _ Hinv1 k' b Hkb) as (eb & Heb & Hkeyb & Hwh).
      destruct (decide (b = a)) as [->|Hba].
      + exists e2. rewrite lookup_insert_eq. split_and!; [done| |by left].
        simpl. congruence.
      + exists eb. rewrite lookup_insert_ne by done. done.
    - intros b Hb. apply (binv_alloc _ _ _ Hinv1).
      destruct (decide (a = b)) as [->|?]; [by eexists|].
      by rewrite lookup_insert_ne in Hb. }
  pose proof (lfu_addToFrequency_spec c2 G1 a e2 f' Hinv2) as Hadd.
  unfold c2 in Hadd at 1. simpl in Hadd. rewrite lookup_insert_eq in Hadd.
  specialize (Hadd eq_refl Hp1 Hn1 eq_refl Hk1).
  assert (Hcond : (is_Some (frequencies c2 !! f') ∧ G1 f' = []) ↔
                  (is_Some (frequencies c !! f') ∧ G f' = [])).
  { rewrite HG1. unfold c2. simpl. by rewrite Hdom. }
  fold c2. case_decide as Hdead1; case_decide as Hdead; try tauto.
  - by rewrite Hadd.
  - destruct Hadd as (c3 & Hadd & Hinv3 & Hrel3 & Hf3).
    rewrite Hadd. simpl.
    pose proof Hrel as (Hd1 & Hc1 & Hb1 & Hm1 & Hmono1 & Hfx1).
    pose proof Hrel3 as (Hd3 & Hc3 & Hb3 & Hm3 & Hmono3 & Hfx3).
    rewrite decide_False.
    + exists c3. split_and!; [done|by rewrite <- HG1| | | | | |].
      * by rewrite Hd3.
      * by rewrite Hc3.
      * by rewrite Hm3.
      * by rewrite Hb3.
      * intros g Hg. by apply Hmono3, Hmono1.
      * intros b. rewrite Hfx3. unfold fixed, c2. simpl.
        destruct (decide (b = a)) as [->|Hba].
        -- rewrite lookup_insert_eq. simpl.
           specialize (Hfx1 a). unfold fixed in Hfx1. rewrite He, He1 in Hfx1.
           simpl in Hfx1. congruence.
        -- rewrite lookup_insert_ne by done. apply Hfx1.
    + intros [_ Hnone].
      assert (is_Some (frequencies c3 !! frequency e)) as [? Hsome]
        by (by apply Hmono3, Hmono1).
      congruence.
Qed.

Lemma lfu_fixed_views c c' k' :
  data c' !! k' = data c !! k' →
  (∀ b, data c !! k' = Some b → fixed (mem c') b = fixed (mem c) b) →
  peek c' k' = peek c k' ∧ frequency_of c' k' = frequency_of c k'.
Proof.
  intros Hd Hfx. unfold peek, frequency_of. rewrite Hd.
  destruct (data c !! k') as [b|]; [|done]. simpl.
  specialize (Hfx b eq_refl). unfold fixed in Hfx.
  destruct (mem c' !! b), (mem c !! b); simpl in *; split; congruence.
Qed.

(** X13: [Get] of a present key, whose frequency is [f]: it panics exactly
    when the bucket for [f + 1] is in the map and no live entry has that
    frequency; otherwise it returns the stored value, raises the frequency
    of the key by one and leaves every other key as it was. *)
Lemma lfu_Get_outcome c k f :
  reachable c → frequency_of c k = Some f →
  if decide (is_Some (frequencies c !! wrap (f + 1)) ∧
             wrap (f + 1) ∉ live_frequencies c) then
    Get c k = Panic NilDereference
  else
    ∃ c' v,
      Get c k = Done (c', (v, true)) ∧ peek c k = Some v ∧
      data c' = data c ∧
      frequency_of c' k = Some (wrap (f + 1)) ∧
      (∀ k', peek c' k' = peek c k') ∧
      (∀ k', k' ≠ k → frequency_of c' k' = frequency_of c k').
Proof.
  intros ([G Hinv] & _)%lfu_reachable_inv Hf.
  destruct (lfu_frequency_of_Some c G k f Hinv Hf) as (a & e & Hk & He & Hkey & <- & Ha).
  apply list_elem_of_split in Ha as (l1 & l2 & Hsplit).
  pose proof (lfu_incrementFrequency_exact c G k a e l1 l2 Hinv Hk He Hsplit)
    as Hinc.
  pose proof (lfu_populated_bucket c G (wrap (frequency e + 1)) Hinv) as Hpop.
  unfold Get. rewrite Hk. simpl.
  case_decide as Hdead; case_decide as Hdead'.
  - by rewrite Hinc.
  - destruct Hdead'. destruct Hdead as [? HG]. split; [done|].
    rewrite Hpop. by intros ?.
  - destruct Hdead. destruct Hdead' as [? Hno]. split; [done|].
    destruct (G (wrap (frequency e + 1))) eqn:HG; [done|].
    destruct Hno. by apply Hpop.
  - destruct Hinc as (c' & -> & Hinv' & Hd & _ & _ & _ & _ & Hfx). simpl.
    pose proof (Hfx a) as Hfa. rewrite decide_True in Hfa by done.
    unfold fixed in Hfa.
    destruct (mem c' !! a) as [e'|] eqn:He'; simpl in Hfa; [|done].
    injection Hfa as Hk' Hv' Hf'. simpl.
    exists c', (value e'). split_and!; [done| |done| | |].
    + unfold peek. rewrite Hk. simpl. rewrite He. simpl. by rewrite Hv'.
    + unfold frequency_of. rewrite Hd, Hk. simpl. rewrite He'. simpl. by rewrite Hf'.
    + intros k'. unfold peek. rewrite Hd.
      destruct (data c !! k') as [b|]; [|done]. simpl.
      specialize (Hfx b). unfold fixed in Hfx. case_decide as Hb.
      * subst b. rewrite He', He. simpl. by rewrite Hv'.
      * destruct (mem c' !! b), (mem c !! b); simpl in *; congruence.
    + intros k' Hne. apply lfu_fixed_views; [by rewrite Hd|].
      intros b Hb. rewrite Hfx, decide_False; [done|]. intros ->.
      destruct (lfu_binv_lookup c G k' a Hinv Hb) as (e0 & He0 & Hkey0 & _).
      congruence.
Qed.

(** X14: [Add] of a present key overwrites the value and promotes the key as
    [Get] does, panicking in the same situation. *)
Lemma lfu_Add_rewrite_outcome c k v f :
  reachable c → frequency_of c k = Some f →
  if decide (is_Some (frequencies c !! wrap (f + 1)) ∧
             wrap (f + 1) ∉ live_frequencies c) then
    Add c k v = Panic NilDereference
  else
    ∃ c',
      Add c k v = Done (c', (false, true)) ∧ data c' = data c ∧
      peek c' k = Some v ∧ frequency_of c' k = Some (wrap (f + 1)) ∧
      (∀ k', k' ≠ k →
         peek c' k' = peek c k' ∧ frequency_of c' k' = frequency_of c k').
Proof.
  intros ([G Hinv] & _)%lfu_reachable_inv Hf.
  destruct (lfu_frequency_of_Some c G k f Hinv Hf) as (a & e & Hk & He & Hkey & <- & Ha).
  pose proof (lfu_set_value_spec c G a e v Hinv He) as Hinv0.
  set (c0 := set_mem (<[a := set_value v e]> (mem c)) c) in *.
  assert (He0 : mem c0 !! a = Some (set_value v e)).
  { unfold c0. simpl. by rewrite lookup_insert_eq. }
  apply list_elem_of_split in Ha as (l1 & l2 & Hsplit).
  pose proof (lfu_incrementFrequency_exact c0 G k a _ l1 l2 Hinv0 Hk He0 Hsplit)
    as Hinc.
  pose proof (lfu_populated_bucket c G (wrap (frequency e + 1)) Hinv) as Hpop.
  simpl in Hinc. change (frequencies c0) with (frequencies c) in Hinc.
  change (data c0) with (data c) in Hinc.
  unfold Add. rewrite Hk. simpl. rewrite He. simpl. fold c0.
  case_decide as Hdead; case_decide as Hdead'.
  - by rewrite Hinc.
  - destruct Hdead'. destruct Hdead as [? HG]. split; [done|].
    rewrite Hpop. by intros ?.
  - destruct Hdead. destruct Hdead' as [? Hno]. split; [done|].
    destruct (G (wrap (frequency e + 1))) eqn:HG; [done|].
    destruct Hno. by apply Hpop.
  - destruct Hinc as (c' & -> & Hinv' & Hd & _ & _ & _ & _ & Hfx). simpl.
    pose proof (Hfx a) as Hfa. rewrite decide_True in Hfa by done.
    unfold fixed in Hfa.
    destruct (mem c' !! a) as [e'|] eqn:He'; simpl in Hfa; [|done].
    injection Hfa as Hk' Hv' Hf'.
    exists c'. split_and!; [done|done| | |].
    + unfold peek. rewrite Hd, Hk. simpl. rewrite He'. simpl. by rewrite Hv'.
    + unfold frequency_of. rewrite Hd, Hk. simpl. rewrite He'. simpl. by rewrite Hf'.
    + intros k' Hne. apply lfu_fixed_views; [by rewrite Hd|].
      intros b Hb.
      assert (b ≠ a).
      { intros ->. destruct (lfu_binv_lookup c G k' a Hinv Hb) as (e0 & He00 & Hkey0 & _).
        congruence. }
      rewrite Hfx, decide_False by done. unfold fixed, c0. simpl.
      by rewrite lookup_insert_ne.
Qed.

(** A new cell for a new key: putting it in the bucket for frequency 1
    panics exactly when that bucket is in the map and lists no cell. *)
Lemma lfu_insert_exact c G k v :
  binv None G c → data c !! k = None →
  if decide (is_Some (frequencies c !! 1%N) ∧ G 1%N = []) then
    addToFrequency (set_data (<[k := brk c]> (data c)) (new_entry c k v).2)
      (Some (brk c)) 1 = Panic NilDereference
  else
    ∃ c2,
      addToFrequency (set_data (<[k := brk c]> (data c)) (new_entry c k v).2)
        (Some (brk c)) 1 = Done c2 ∧
      binv None (<[1%N := brk c :: G 1%N]> G) c2 ∧
      data c2 = <[k := brk c]> (data c) ∧
      capacity c2 = capacity c ∧ is_Some (frequencies c2 !! 1%N) ∧
      (∀ f, is_Some (frequencies c !! f) → is_Some (frequencies c2 !! f)) ∧
      (∀ b, fixed (mem c2) b =
            if decide (b = brk c) then Some (k, v, 1%N) else fixed (mem c) b).
Proof.
  intros Hinv Hk.
  pose proof (lfu_new_entry_spec c G k v Hinv Hk) as Hinv1.
  set (c1 := set_data (<[k := brk c]> (data c)) (new_entry c k v).2) in *.
  pose proof (lfu_addToFrequency_spec c1 G (brk c) (Entry k v 1 None None) 1 Hinv1)
    as Hadd.
  unfold c1 in Hadd at 1 3. simpl in Hadd. rewrite !lookup_insert_eq in Hadd.
  specialize (Hadd eq_refl eq_refl eq_refl eq_refl eq_refl).
  change (frequencies c1) with (frequencies c) in Hadd.
  case_decide; [done|].
  destruct Hadd as (c2 & -> & Hinv2 & (Hd & Hc & _ & _ & Hmono & Hfx) & Hf1).
  exists c2. split_and!; [done|done|by rewrite Hd|by rewrite Hc|done| |].
  - intros f Hf. by apply Hmono.
  - intros b. rewrite Hfx. unfold fixed, c1. simpl. case_decide as Hb.
    + subst b. by rewrite lookup_insert_eq.
    + by rewrite lookup_insert_ne.
Qed.

(** Eviction, with the bucket it leaves behind. *)
Lemma lfu_evictLeastFrequent_exact c G l1 t :
  binv None G c → G (minFrequency c) = l1 ++ [t] →
  ∃ c' e,
    evictLeastFrequent c = Done c' ∧
    binv None (<[minFrequency c := l1]> G) c' ∧
    mem c !! t = Some e ∧ frequency e = minFrequency c ∧
    data c !! key e = Some t ∧
    data c' = delete (key e) (data c) ∧ capacity c' = capacity c ∧
    brk c' = brk c ∧
    (∀ f, is_Some (frequencies c !! f) → is_Some (frequencies c' !! f)) ∧
    (∀ b, fixed (mem c') b = fixed (mem c) b).
Proof.
  intros Hinv HG. unfold evictLeastFrequent.
  destruct (binv_member _ _ _ Hinv (minFrequency c) t) as (_ & e & He & Hf & Hk).
  { rewrite HG. apply elem_of_app. right. left. }
  rewrite decide_False.
  2: { apply map_size_non_empty_iff. intros Hemp. by rewrite Hemp in Hk. }
  pose proof (binv_bucket _ _ _ Hinv (minFrequency c)) as Hbk.
  destruct (lfu_bucket_Some c _ _ t Hbk) as (fn0 & Hfn0 & _ & Ht).
  { rewrite HG. apply elem_of_app. right. left. }
  rewrite Hfn0, Ht, HG, last_snoc. simpl.
  destruct (lfu_removeFromFrequency_spec c G _ l1 t [] Hinv HG)
    as (c1 & e1 & -> & Hinv1 & Hrel & He1 & _ & _ & _ & Hk1).
  simpl. rewrite He1. simpl. rewrite app_nil_r in Hinv1.
  pose proof Hrel as (Hd & Hc & Hb & _ & Hmono & Hfx).
  assert (Hkey1 : key e1 = key e).
  { specialize (Hfx t). unfold fixed in Hfx. rewrite He, He1 in Hfx.
    simpl in Hfx. congruence. }
  pose proof (lfu_binv_drop c1 _ t e1 Hinv1 He1 Hk1) as Hinv'.
  eexists _, e. split_and!; [done|done|done|done|done| |done..].
  simpl. by rewrite Hkey1, Hd.
Qed.

(** Two keys share the frequency [f] exactly when its bucket lists two
    cells. *)
Lemma lfu_two_keys c G f :
  binv None G c →
  (∃ k1 k2, k1 ≠ k2 ∧ frequency_of c k1 = Some f ∧ frequency_of c k2 = Some f)
  ↔ (∃ l1 a t, G f = (l1 ++ [a]) ++ [t]).
Proof.
  intros Hinv. split.
  - intros (k1 & k2 & Hne & H1 & H2).
    destruct (lfu_frequency_of_Some c G k1 f Hinv H1) as (a1 & e1 & Hk1 & _ & _ & _ & Ha1).
    destruct (lfu_frequency_of_Some c G k2 f Hinv H2) as (a2 & e2 & Hk2 & _ & _ & _ & Ha2).
    assert (Hdiff : a1 ≠ a2).
    { intros ->.
      destruct (lfu_binv_lookup c G k1 a2 Hinv Hk1) as (x & Hx & Hkx & _).
      destruct (lfu_binv_lookup c G k2 a2 Hinv Hk2) as (y & Hy & Hky & _).
      congruence. }
    destruct (snoc_cases (G f)) as [HG|(l' & t & HG)].
    { rewrite HG in Ha1. by apply elem_of_nil in Ha1. }
    destruct (snoc_cases l') as [->|(l1 & a & ->)].
    { rewrite HG in Ha1, Ha2. simpl in *.
      apply list_elem_of_singleton in Ha1, Ha2. congruence. }
    by exists l1, a, t.
  - intros (l1 & a & t & HG).
    pose proof (binv_nodup _ _ _ Hinv f) as Hnd. rewrite HG in Hnd.
    destruct (binv_member _ _ _ Hinv f a) as (_ & ea & Hea & Hfa & Hka).
    { rewrite HG. apply elem_of_app. left. apply elem_of_app. right. left. }
    destruct (binv_member _ _ _ Hinv f t) as (_ & et & Het & Hft & Hkt).
    { rewrite HG. apply elem_of_app. right. left. }
    exists (key ea), (key et). split_and!.
    + intros Heq. rewrite Heq in Hka.
      assert (a = t) as -> by congruence.
      apply NoDup_app in Hnd as (_ & Hdisj & _).
      apply (Hdisj t); [apply elem_of_app; right; left|left].
    + unfold frequency_of. rewrite Hka. simpl. by rewrite Hea, <- Hfa.
    + unfold frequency_of. rewrite Hkt. simpl. by rewrite Het, <- Hft.
Qed.

Lemma lfu_new_views c c' k v :
  data c' !! k = Some (brk c) →
  fixed (mem c') (brk c) = Some (k, v, 1%N) →
  peek c' k = Some v ∧ frequency_of c' k = Some 1%N.
Proof.
  intros Hd Hfx. unfold peek, frequency_of. rewrite Hd. simpl.
  unfold fixed in Hfx.
  destruct (mem c' !! brk c); simpl in *; split; congruence.
Qed.

(** X15: [Add] of a new key with room to spare: it panics exactly when the
    bucket for frequency 1 is in the map and no live entry has frequency
    1; otherwise the key is stored with frequency 1, nothing is evicted
    and the other keys are as they were. *)
Lemma lfu_Add_new_spare c k v :
  reachable c → data c !! k = None →
  (N.of_nat (size (data c)) < capacity c)%N →
  if decide (is_Some (frequencies c !! 1%N) ∧ 1%N ∉ live_frequencies c) then
    Add c k v = Panic NilDereference
  else
    ∃ c',
      Add c k v = Done (c', (false, false)) ∧
      data c' = <[k := brk c]> (data c) ∧
      peek c' k = Some v ∧ frequency_of c' k = Some 1%N ∧
      minFrequency c' = 1%N ∧
      (∀ k', k' ≠ k →
         peek c' k' = peek c k' ∧ frequency_of c' k' = frequency_of c k').
Proof.
  intros ([G Hinv] & _)%lfu_reachable_inv Hk Hroom.
  pose proof (lfu_insert_exact c G k v Hinv Hk) as Hins. simpl in Hins.
  pose proof (lfu_populated_bucket c G 1 Hinv) as Hpop.
  unfold Add. rewrite Hk. rewrite (proj2 (N.leb_gt _ _)) by lia. simpl.
  case_decide as Hdead; case_decide as Hdead'.
  - by rewrite Hins.
  - destruct Hdead'. destruct Hdead as [? HG]. split; [done|].
    rewrite Hpop. by intros ?.
  - destruct Hdead. destruct Hdead' as [? Hno]. split; [done|].
    destruct (G 1%N) eqn:HG; [done|]. destruct Hno. by apply Hpop.
  - destruct Hins as (c2 & -> & _ & Hd & _ & _ & _ & Hfx). simpl.
    eexists. split; [done|]. simpl.
    destruct (lfu_new_views c c2 k v) as [Hp Hf].
    { by rewrite Hd, lookup_insert_eq. }
    { by rewrite Hfx, decide_True. }
    split_and!; [done..|].
    intros k' Hne.
    apply (lfu_fixed_views c c2 k'); [by rewrite Hd, lookup_insert_ne|].
    intros b Hb. rewrite Hfx, decide_False; [done|]. intros ->.
    destruct (lfu_binv_lookup c G k' _ Hinv Hb) as (e & He & _).
    assert (brk c < brk c) by (apply (binv_alloc _ _ _ Hinv); by eexists). lia.
Qed.

(** X16: [Add] of a new key to a full cache completes exactly when two keys
    have frequency 1: a victim of frequency 1 is then evicted, and only
    it; with fewer than two such keys the call panics. *)
Lemma lfu_Add_new_full c k v :
  reachable c → data c !! k = None →
  N.of_nat (size (data c)) = capacity c →
  ((∃ k1 k2, k1 ≠ k2 ∧ frequency_of c k1 = Some 1%N ∧
             frequency_of c k2 = Some 1%N) →
   ∃ c' victim,
     Add c k v = Done (c', (true, false)) ∧ victim ≠ k ∧
     frequency_of c victim = Some 1%N ∧
     data c' = <[k := brk c]> (delete victim (data c)) ∧
     peek c' k = Some v ∧ frequency_of c' k = Some 1%N ∧
     (∀ k', k' ≠ k → k' ≠ victim →
        peek c' k' = peek c k' ∧ frequency_of c' k' = frequency_of c k')) ∧
  (¬ (∃ k1 k2, k1 ≠ k2 ∧ frequency_of c k1 = Some 1%N ∧
               frequency_of c k2 = Some 1%N) →
   Add c k v = Panic NilDereference).
Proof.
  intros ([G Hinv] & Hsz & Hcap & Hmin)%lfu_reachable_inv Hk Hfull.
  assert (Hne : data c ≠ ∅) by (apply map_size_non_empty_iff; lia).
  destruct (Hmin Hne) as [Hm1 [fn0 Hfn0]].
  pose proof (lfu_two_keys c G 1 Hinv) as Htwo.
  unfold Add. rewrite Hk. rewrite (proj2 (N.leb_le _ _)) by lia.
  destruct (snoc_cases (G 1%N)) as [HG|(l' & t & HG)].
  { (* the bucket for frequency 1 was emptied *)
    pose proof (lfu_evictLeastFrequent_spec c G fn0 Hinv Hne) as Hev.
    rewrite Hm1, HG in Hev. simpl in Hev. specialize (Hev Hfn0).
    split.
    - intros (l1 & a & t & HG')%Htwo. rewrite HG in HG'.
      by destruct l1.
    - intros _. by rewrite Hev. }
  destruct (lfu_evictLeastFrequent_exact c G l' t Hinv)
    as (c1 & e & Hev & Hinv1 & He & Hfe & Hkt & Hd1 & Hc1 & Hb1 & Hmono1 & Hfx1);
    [by rewrite Hm1|].
  rewrite Hm1 in Hinv1, Hfe.
  assert (Hvk : key e ≠ k) by (intros Heq; rewrite Heq in Hkt; congruence).
  assert (Hk1 : data c1 !! k = None) by (by rewrite Hd1, lookup_delete_ne).
  pose proof (lfu_insert_exact c1 _ k v Hinv1 Hk1) as Hins. simpl in Hins.
  rewrite fn_lookup_insert in Hins.
  assert (Hf1 : is_Some (frequencies c1 !! 1%N)) by (apply Hmono1; by eexists).
  rewrite Hev. simpl.
  destruct (snoc_cases l') as [->|(l1 & a & ->)].
  - rewrite decide_True in Hins by done. split.
    + intros (l1 & a & t' & HG')%Htwo. rewrite HG in HG'.
      apply app_inj_tail in HG' as [HG' _]. by destruct l1.
    + intros _. by rewrite Hins.
  - rewrite decide_False in Hins by (intros [_ ?]; by destruct l1).
    destruct Hins as (c2 & -> & _ & Hd2 & _ & _ & _ & Hfx2). simpl.
    split; [|intros Hno; destruct Hno; apply Htwo; by exists l1, a, t].
    intros _. eexists _, (key e). split; [done|]. simpl.
    destruct (lfu_new_views c1 c2 k v) as [Hp Hf].
    { by rewrite Hd2, lookup_insert_eq. }
    { by rewrite Hfx2, decide_True. }
    split_and!; [done| |by rewrite Hd2, Hd1, Hb1|done|done|].
    + unfold frequency_of. rewrite Hkt. simpl. rewrite He. simpl.
      by rewrite Hfe.
    + intros k' Hnk Hnv.
      apply (lfu_fixed_views c c2 k').
      * by rewrite Hd2, lookup_insert_ne, Hd1, lookup_delete_ne.
      * intros b Hb. rewrite Hfx2, decide_False; [apply Hfx1|]. intros ->.
        destruct (lfu_binv_lookup c G k' _ Hinv Hb) as (e0 & He0 & _).
        assert (brk c1 < brk c) by (apply (binv_alloc _ _ _ Hinv); by eexists).
        lia.
Qed.
End lfu_exact.

(** ** The order inside the buckets of the LFU engine *)
Section lfu_order.
Import lfu.
Context {K : Type} `{Countable K} {V : Type} `{Inhabited V}.
Implicit Types (c : Cache K V) (G : N → list addr) (l : list addr).
Implicit Types (a b : addr) (k : K) (v : V) (f g : N).
Local Abbreviation keyof m := (λ a : addr, key <$> m !! a).

Lemma lfu_walk_dseg (m : gmap addr (entry K V)) p l fuel :
  dseg prev next m p l None → length l ≤ fuel →
  walk m (hd_error l) fuel = omap (keyof m) l.
Proof.
  revert p fuel. induction l as [|a t IH]; intros p fuel Hd Hlen.
  - by destruct fuel.
  - destruct Hd as (e & He & _ & Hn & Ht). simpl in Hlen.
    destruct fuel as [|n]; [lia|]. simpl. rewrite He. simpl.
    f_equal. rewrite Hn.
    replace (or_else (hd_error t) None) with (hd_error t) by (by destruct t).
    eapply IH; [done|lia].
Qed.

Lemma lfu_bucket_length c G f :
  binv None G c → length (G f) ≤ size (data c).
Proof.
  intros Hinv. rewrite <- length_map_to_list.
  rewrite <- (length_fmap snd (map_to_list (data c))).
  apply submseteq_length, NoDup_submseteq; [apply (binv_nodup _ _ _ Hinv)|].
  intros a Ha.
  destruct (binv_member _ _ _ Hinv f a Ha) as (_ & e & _ & _ & Hk).
  apply list_elem_of_fmap. exists (key e, a). split; [done|].
  by apply elem_of_map_to_list.
Qed.

Lemma lfu_bucket_keys_repr c G f :
  binv None G c → bucket_keys c f = omap (keyof (mem c)) (G f).
Proof.
  intros Hinv. unfold bucket_keys.
  pose proof (binv_bucket _ _ _ Hinv f) as Hbk. unfold bucket_ok in Hbk.
  destruct (frequencies c !! f) as [fn|].
  - destruct Hbk as [-> _].
    eapply lfu_walk_dseg; [apply (binv_chain _ _ _ Hinv)|].
    by apply lfu_bucket_length.
  - by rewrite Hbk.
Qed.

Lemma lfu_omap_keyof_ext (m m' : gmap addr (entry K V)) l :
  (∀ b, b ∈ l → key <$> m' !! b = key <$> m !! b) →
  omap (keyof m') l = omap (keyof m) l.
Proof.
  induction l as [|a t IH]; intros Hext; [done|].
  assert (IH' : omap (keyof m') t = omap (keyof m) t).
  { apply IH. intros b Hb. apply Hext. by right. }
  simpl. rewrite (Hext a) by left.
  destruct (key <$> m !! a); [f_equal|]; exact IH'.
Qed.

Lemma lfu_fixed_key (m m' : gmap addr (entry K V)) b :
  fixed m' b = fixed m b → key <$> m' !! b = key <$> m !! b.
Proof.
  unfold fixed. destruct (m' !! b), (m !! b); simpl; congruence.
Qed.

(** X17: The keys of a bucket are the keys of that frequency, each once. *)
Lemma lfu_bucket_keys_index c f :
  reachable c →
  NoDup (bucket_keys c f) ∧
  (∀ k, k ∈ bucket_keys c f ↔ frequency_of c k = Some f).
Proof.
  intros ([G Hinv] & _)%lfu_reachable_inv.
  rewrite (lfu_bucket_keys_repr c G f Hinv). split.
  - apply NoDup_omap_inj; [apply (binv_nodup _ _ _ Hinv)|].
    intros x y k Hx Hy Hkx Hky.
    destruct (binv_member _ _ _ Hinv f x Hx) as (_ & ex & Hex & _ & Hdx).
    destruct (binv_member _ _ _ Hinv f y Hy) as (_ & ey & Hey & _ & Hdy).
    rewrite Hex in Hkx. rewrite Hey in Hky. simpl in *. congruence.
  - intros k. rewrite list_elem_of_omap. split.
    + intros (a & Ha & Hk).
      destruct (binv_member _ _ _ Hinv f a Ha) as (_ & e & He & Hf & Hd).
      rewrite He in Hk. simpl in Hk. injection Hk as <-.
      unfold frequency_of. rewrite Hd. simpl. by rewrite He, <- Hf.
    + intros Hf.
      destruct (lfu_frequency_of_Some c G k f Hinv Hf) as (a & e & _ & He & Hk & _ & Ha).
      exists a. split; [done|]. by rewrite He, <- Hk.
Qed.

(** The key [k] of the cell [a] occurs once among the keys of its bucket
    and in no other bucket. *)
Lemma lfu_bucket_keys_split c G f l1 a l2 k :
  binv None G c → G f = l1 ++ a :: l2 → data c !! k = Some a →
  (omap (keyof (mem c)) (G f)
     = omap (keyof (mem c)) l1 ++ k :: omap (keyof (mem c)) l2) ∧
  (k ∉ omap (keyof (mem c)) l1) ∧ (k ∉ omap (keyof (mem c)) l2) ∧
  (∀ g, g ≠ f → k ∉ omap (keyof (mem c)) (G g)).
Proof.
  intros Hinv HG Hk.
  destruct (lfu_binv_lookup c G k a Hinv Hk) as (e & He & Hkey & _).
  pose proof (binv_nodup _ _ _ Hinv f) as Hnd. rewrite HG in Hnd.
  apply NoDup_app in Hnd as (_ & Hdisj & [Ha2 _]%NoDup_cons).
  assert (Hcell : ∀ g b, b ∈ G g → key <$> mem c !! b = Some k → b = a).
  { intros g b Hb Hkb.
    destruct (binv_member _ _ _ Hinv g b Hb) as (_ & eb & Heb & _ & Hdb).
    rewrite Heb in Hkb. simpl in Hkb. congruence. }
  split_and!.
  - rewrite HG, omap_app. simpl. rewrite He. simpl. by rewrite Hkey.
  - intros (b & Hb & Hkb)%list_elem_of_omap.
    assert (b = a) as ->.
    { apply (Hcell f); [|done]. rewrite HG. apply elem_of_app. by left. }
    apply (Hdisj a Hb). left.
  - intros (b & Hb & Hkb)%list_elem_of_omap.
    assert (b = a) as ->.
    { apply (Hcell f); [|done]. rewrite HG. apply elem_of_app. right. by right. }
    done.
  - intros g Hg (b & Hb & Hkb)%list_elem_of_omap.
    assert (b = a) as -> by (by apply (Hcell g)).
    destruct Hg. apply (lfu_binv_disjoint None G c g f a); [done..|].
    rewrite HG. apply elem_of_app. right. left.
Qed.

(** Promotion moves the key from its bucket to the front of the next. *)
Lemma lfu_promote_buckets c G k a e c' :
  binv None G c → data c !! k = Some a → mem c !! a = Some e →
  incrementFrequency c (Some a) = Done c' →
  bucket_keys c' (wrap (frequency e + 1))
    = k :: bucket_keys c (wrap (frequency e + 1)) ∧
  bucket_keys c' (frequency e)
    = filter (λ x, x ≠ k) (bucket_keys c (frequency e)) ∧
  (∀ g, g ≠ frequency e → g ≠ wrap (frequency e + 1) →
        bucket_keys c' g = bucket_keys c g).
Proof.
  intros Hinv Hk He Hdone.
  destruct (lfu_binv_lookup c G k a Hinv Hk) as (e' & He' & Hkey & Ha).
  assert (e' = e) as -> by congruence. clear He'.
  apply list_elem_of_split in Ha as (l1 & l2 & HG).
  pose proof (lfu_incrementFrequency_exact c G k a e l1 l2 Hinv Hk He HG) as Hinc.
  case_decide; [congruence|].
  destruct Hinc as (c1 & Hc1 & Hinv' & _ & _ & _ & _ & _ & Hfx).
  assert (c1 = c') as -> by congruence.
  assert (Hkeys : ∀ l, omap (keyof (mem c')) l = omap (keyof (mem c)) l).
  { intros l. apply lfu_omap_keyof_ext. intros b _.
    specialize (Hfx b). case_decide as Hb; [|by apply lfu_fixed_key].
    subst b. unfold fixed in Hfx. rewrite He.
    destruct (mem c' !! a); simpl in *; congruence. }
  assert (Hne : wrap (frequency e + 1) ≠ frequency e) by apply wrap_succ_ne.
  destruct (lfu_bucket_keys_split c G _ l1 a l2 k Hinv HG Hk) as (Hsp & Hk1 & Hk2 & _).
  split_and!.
  - rewrite (lfu_bucket_keys_repr c' _ _ Hinv'), (lfu_bucket_keys_repr c G _ Hinv).
    rewrite fn_lookup_insert, Hkeys. simpl. rewrite He. simpl. by rewrite Hkey.
  - rewrite (lfu_bucket_keys_repr c' _ _ Hinv'), (lfu_bucket_keys_repr c G _ Hinv).
    rewrite fn_lookup_insert_ne, fn_lookup_insert, Hkeys by done.
    rewrite Hsp, filter_ne_middle by done. by rewrite omap_app.
  - intros g Hg1 Hg2.
    rewrite (lfu_bucket_keys_repr c' _ _ Hinv'), (lfu_bucket_keys_repr c G _ Hinv).
    by rewrite !fn_lookup_insert_ne, Hkeys.
Qed.

(** X18: A completed [Get] of a key of frequency [f] puts it at the front of
    the bucket for [f + 1], takes it out of the bucket for [f] and changes
    no other order. *)
Lemma lfu_Get_buckets c k f c' r :
  reachable c → frequency_of c k = Some f → Get c k = Done (c', r) →
  bucket_keys c' (wrap (f + 1)) = k :: bucket_keys c (wrap (f + 1)) ∧
  bucket_keys c' f = filter (λ x, x ≠ k) (bucket_keys c f) ∧
  (∀ g, g ≠ f → g ≠ wrap (f + 1) → bucket_keys c' g = bucket_keys c g).
Proof.
  intros ([G Hinv] & _)%lfu_reachable_inv Hf HGet.
  destruct (lfu_frequency_of_Some c G k f Hinv Hf) as (a & e & Hk & He & Hkey & <- & Ha).
  unfold Get in HGet. rewrite Hk in HGet. simpl in HGet.
  destruct (incrementFrequency c (Some a)) as [c1|] eqn:Hinc; [|done].
  simpl in HGet. destruct (mem c1 !! a); [|done]. injection HGet as <- _.
  by apply (lfu_promote_buckets c G k a e c1).
Qed.

(** X19: A completed rewriting [Add] reorders the buckets as [Get] does. *)
Lemma lfu_Add_rewrite_buckets c k v f c' r :
  reachable c → frequency_of c k = Some f → Add c k v = Done (c', r) →
  bucket_keys c' (wrap (f + 1)) = k :: bucket_keys c (wrap (f + 1)) ∧
  bucket_keys c' f = filter (λ x, x ≠ k) (bucket_keys c f) ∧
  (∀ g, g ≠ f → g ≠ wrap (f + 1) → bucket_keys c' g = bucket_keys c g).
Proof.
  intros ([G Hinv] & _)%lfu_reachable_inv Hf HAdd.
  destruct (lfu_frequency_of_Some c G k f Hinv Hf) as (a & e & Hk & He & Hkey & <- & Ha).
  pose proof (lfu_set_value_spec c G a e v Hinv He) as Hinv0.
  set (c0 := set_mem (<[a := set_value v e]> (mem c)) c) in *.
  assert (He0 : mem c0 !! a = Some (set_value v e)).
  { unfold c0. simpl. by rewrite lookup_insert_eq. }
  unfold Add in HAdd. rewrite Hk in HAdd. simpl in HAdd.
  rewrite He in HAdd. simpl in HAdd. fold c0 in HAdd.
  destruct (incrementFrequency c0 (Some a)) as [c1|] eqn:Hinc; [|done].
  injection HAdd as <- _.
  assert (Hsame : ∀ g, bucket_keys c0 g = bucket_keys c g).
  { intros g.
    rewrite (lfu_bucket_keys_repr c0 G g Hinv0), (lfu_bucket_keys_repr c G g Hinv).
    apply lfu_omap_keyof_ext. intros b _. unfold c0. simpl.
    destruct (decide (a = b)) as [->|?].
    - by rewrite lookup_insert_eq, He.
    - by rewrite lookup_insert_ne. }
  rewrite <- !Hsame.
  destruct (lfu_promote_buckets c0 G k a _ c1 Hinv0 Hk He0 Hinc) as (H1 & H2 & H3).
  split_and!; [done..|]. intros g Hg1 Hg2. rewrite <- Hsame. by apply H3.
Qed.

Lemma lfu_new_keys c G (m2 : gmap addr (entry K V)) k v l :
  binv None G c → (∃ g, ∀ b, b ∈ l → b ∈ G g) →
  (∀ b, fixed m2 b =
        if decide (b = brk c) then Some (k, v, 1%N) else fixed (mem c) b) →
  omap (keyof m2) (brk c :: l) = k :: omap (keyof (mem c)) l.
Proof.
  intros Hinv [g Hsub] Hfx. simpl.
  pose proof (Hfx (brk c)) as Hnew. rewrite decide_True in Hnew by done.
  unfold fixed in Hnew.
  destruct (m2 !! brk c) as [e|]; simpl in Hnew; [|done].
  injection Hnew as Hke _ _. simpl. rewrite Hke. f_equal.
  apply lfu_omap_keyof_ext. intros b Hb. apply lfu_fixed_key.
  rewrite Hfx, decide_False; [done|]. intros ->.
  destruct (binv_member _ _ _ Hinv g (brk c) (Hsub _ Hb)) as (_ & e0 & He0 & _).
  assert (brk c < brk c) by (apply (binv_alloc _ _ _ Hinv); by eexists). lia.
Qed.

(** X20: A completed [Add] of a new key puts it at the front of the bucket for
    frequency 1.  When it evicts, the victim is the last key of that
    bucket, the one that has been at frequency 1 longest; no other bucket
    changes. *)
Lemma lfu_Add_new_buckets c k v c' r :
  reachable c → data c !! k = None → Add c k v = Done (c', r) →
  bucket_keys c' 1%N
    = k :: (if r.1 then removelast (bucket_keys c 1%N)
            else bucket_keys c 1%N) ∧
  (∀ g, g ≠ 1%N → bucket_keys c' g = bucket_keys c g) ∧
  (r.1 = true →
   ∃ victim, last (bucket_keys c 1%N) = Some victim ∧
             data c' = <[k := brk c]> (delete victim (data c))).
Proof.
  intros ([G Hinv] & Hsz & Hcap & Hmin)%lfu_reachable_inv Hk HAdd.
  unfold Add in HAdd. rewrite Hk in HAdd.
  destruct (capacity c <=? N.of_nat (size (data c)))%N eqn:Hfull.
  - apply N.leb_le in Hfull.
    assert (Hne : data c ≠ ∅) by (apply map_size_non_empty_iff; lia).
    destruct (Hmin Hne) as [Hm1 [fn0 Hfn0]].
    destruct (snoc_cases (G 1%N)) as [HG|(l' & t & HG)].
    { pose proof (lfu_evictLeastFrequent_spec c G fn0 Hinv Hne) as Hev.
      rewrite Hm1, HG in Hev. simpl in Hev. specialize (Hev Hfn0).
      rewrite Hev in HAdd. done. }
    destruct (lfu_evictLeastFrequent_exact c G l' t Hinv)
      as (c1 & e & Hev & Hinv1 & He & Hfe & Hkt & Hd1 & Hc1 & Hb1 & Hmono1 & Hfx1);
      [by rewrite Hm1|].
    rewrite Hm1 in Hinv1.
    assert (Hvk : key e ≠ k) by (intros Heq; rewrite Heq in Hkt; congruence).
    assert (Hk1 : data c1 !! k = None) by (by rewrite Hd1, lookup_delete_ne).
    pose proof (lfu_insert_exact c1 _ k v Hinv1 Hk1) as Hins. simpl in Hins.
    rewrite Hev in HAdd. simpl in HAdd.
    case_decide as Hdead; [by rewrite Hins in HAdd|].
    destruct Hins as (c2 & Hadd2 & Hinv2 & Hd2 & _ & _ & _ & Hfx2).
    rewrite Hadd2 in HAdd. simpl in HAdd. injection HAdd as <- <-. simpl.
    rewrite fn_lookup_insert in Hinv2.
    change (bucket_keys (set_minFrequency 1 c2)) with (bucket_keys c2).
    assert (Hkeys : ∀ l, omap (keyof (mem c1)) l = omap (keyof (mem c)) l).
    { intros l. apply lfu_omap_keyof_ext. intros b _. by apply lfu_fixed_key. }
    assert (Hold : bucket_keys c 1%N = omap (keyof (mem c)) l' ++ [key e]).
    { rewrite (lfu_bucket_keys_repr c G _ Hinv), HG, omap_app. simpl.
      by rewrite He. }
    split_and!.
    + rewrite (lfu_bucket_keys_repr c2 _ _ Hinv2), fn_lookup_insert.
      rewrite (lfu_new_keys c1 _ (mem c2) k v l' Hinv1); [|exists 1%N|done].
      * by rewrite Hkeys, Hold, removelast_last.
      * intros b Hb. by rewrite fn_lookup_insert.
    + intros g Hg.
      rewrite (lfu_bucket_keys_repr c2 _ _ Hinv2), (lfu_bucket_keys_repr c G _ Hinv).
      rewrite !fn_lookup_insert_ne by done. rewrite <- Hkeys.
      apply lfu_omap_keyof_ext. intros b Hb. apply lfu_fixed_key.
      rewrite Hfx2, decide_False; [done|]. intros ->.
      destruct (binv_member _ _ _ Hinv g _ Hb) as (_ & e0 & He0 & _).
      assert (brk c1 < brk c) by (apply (binv_alloc _ _ _ Hinv); by eexists).
      lia.
    + intros _. exists (key e). split.
      * by rewrite Hold, last_snoc.
      * by rewrite Hd2, Hd1, Hb1.
  - simpl in HAdd.
    pose proof (lfu_insert_exact c G k v Hinv Hk) as Hins. simpl in Hins.
    case_decide as Hdead; [by rewrite Hins in HAdd|].
    destruct Hins as (c2 & Hadd2 & Hinv2 & Hd2 & _ & _ & _ & Hfx2).
    rewrite Hadd2 in HAdd. simpl in HAdd. injection HAdd as <- <-. simpl.
    change (bucket_keys (set_minFrequency 1 c2)) with (bucket_keys c2).
    split_and!; [| |done].
    + rewrite (lfu_bucket_keys_repr c2 _ _ Hinv2), fn_lookup_insert.
      rewrite (lfu_new_keys c G (mem c2) k v (G 1%N) Hinv); [|by exists 1%N|done].
      by rewrite (lfu_bucket_keys_repr c G _ Hinv).
    + intros g Hg.
      rewrite (lfu_bucket_keys_repr c2 _ _ Hinv2), (lfu_bucket_keys_repr c G _ Hinv).
      rewrite fn_lookup_insert_ne by done.
      apply lfu_omap_keyof_ext. intros b Hb. apply lfu_fixed_key.
      rewrite Hfx2, decide_False; [done|]. intros ->.
      destruct (binv_member _ _ _ Hinv g _ Hb) as (_ & e0 & He0 & _).
      assert (brk c < brk c) by (apply (binv_alloc _ _ _ Hinv); by eexists).
      lia.
Qed.

(** X21: [Remove] takes the key out of its bucket and changes no order. *)
Lemma lfu_Remove_buckets c k :
  reachable c →
  ∃ c' removed,
    Remove c k = Done (c', removed) ∧
    ∀ g, bucket_keys c' g = filter (λ x, x ≠ k) (bucket_keys c g).
Proof.
  intros ([G Hinv] & _)%lfu_reachable_inv.
  destruct (data c !! k) as [a|] eqn:Hk.
  - destruct (lfu_binv_lookup c G k a Hinv Hk) as (e & He & Hkey & Ha).
    apply list_elem_of_split in Ha as (l1 & l2 & HG).
    destruct (lfu_removeFromFrequency_spec c G _ l1 a l2 Hinv HG)
      as (c1 & e1 & Hrm & Hinv1 & Hrel & He1 & _ & _ & _ & Hk1).
    pose proof (lfu_binv_drop c1 _ a e1 Hinv1 He1 Hk1) as Hinv'.
    pose proof Hrel as (Hd & _ & _ & _ & _ & Hfx).
    assert (Hkey1 : key e1 = k).
    { specialize (Hfx a). unfold fixed in Hfx. rewrite He, He1 in Hfx.
      simpl in Hfx. congruence. }
    rewrite Hkey1 in Hinv'.
    unfold Remove. rewrite Hk, Hrm. simpl.
    eexists _, true. split; [done|]. intros g.
    rewrite (lfu_bucket_keys_repr _ _ g Hinv'), (lfu_bucket_keys_repr c G g Hinv).
    simpl.
    assert (Hkeys : ∀ l, omap (keyof (mem c1)) l = omap (keyof (mem c)) l).
    { intros l. apply lfu_omap_keyof_ext. intros b _. by apply lfu_fixed_key. }
    rewrite Hkeys.
    destruct (lfu_bucket_keys_split c G _ l1 a l2 k Hinv HG Hk)
      as (Hsp & Hk1' & Hk2' & Hother).
    destruct (decide (g = frequency e)) as [->|Hg].
    + rewrite fn_lookup_insert, Hsp, filter_ne_middle by done.
      by rewrite omap_app.
    + rewrite fn_lookup_insert_ne by done.
      rewrite filter_ne_id; [done|]. by apply Hother.
  - exists c, false. unfold Remove. rewrite Hk. split; [done|]. intros g.
    rewrite filter_ne_id; [done|].
    rewrite (lfu_bucket_keys_repr c G g Hinv).
    intros (b & Hb & Hkb)%list_elem_of_omap.
    destruct (binv_member _ _ _ Hinv g b Hb) as (_ & eb & Heb & _ & Hdb).
    rewrite Heb in Hkb. simpl in Hkb. congruence.
Qed.
End lfu_order.

(** ** A cache fresh from [NewCache] *)

Section fresh.
Context {K : Type} `{Countable K} {V : Type} `{Inhabited V}.

(** X1: [lru.NewCache] refuses capacity 0 with the error and no cache; any
    other capacity gives an empty cache of that capacity, on which every
    [Get] misses, every [Remove] reports [false], both leaving the cache
    as it is, and the first [Add] stores its pair without eviction. *)
Lemma lru_NewCache_fresh (cap : N) :
  if decide (cap = 0%N) then
    lru.NewCache (K:=K) (V:=V) cap = (None, Some "must provide a positive size")
  else
    ∃ c : lru.Cache K V,
      lru.NewCache cap = (Some c, None) ∧
      lru.capacity c = cap ∧ lru.recency c = [] ∧
      (∀ k, lru.Get c k = Done (c, (inhabitant, false)) ∧
            lru.Remove c k = Done (c, false)) ∧
      (∀ k v, ∃ c',
         lru.Add c k v = Done (c', (false, false)) ∧
         lru.recency c' = [k] ∧ lru.peek c' k = Some v ∧
         lru.oldest c' = Some k).
Proof.
  unfold lru.NewCache. case_decide as Hcap.
  - subst cap. reflexivity.
  - destruct (N.leb_spec cap 0) as [Hle|Hlt]; [lia|].
    eexists. split; [reflexivity|]. split_and!; [done..| |].
    + intros k. unfold lru.Get, lru.Remove. simpl.
      by rewrite lookup_empty.
    + intros k v. unfold lru.Add. simpl. rewrite lookup_empty. simpl.
      rewrite insert_empty, map_size_singleton.
      destruct (N.ltb_spec cap (N.of_nat 1)) as [Hlt1|Hge1]; [lia|].
      eexists. split; [reflexivity|].
      unfold lru.recency, lru.peek, lru.oldest. simpl.
      rewrite map_size_singleton, lookup_singleton_eq. simpl.
      by rewrite !lookup_insert_eq.
Qed.

(** X10: [lfu.NewCache] refuses capacity 0 with the error and no cache; any
    other capacity gives an empty cache of that capacity with no
    frequency node, on which every [Get] misses, every [Remove] reports
    [false], both leaving the cache as it is, and the first [Add] stores
    its pair with frequency 1, alone in the bucket for 1, without
    eviction. *)
Lemma lfu_NewCache_fresh (cap : N) :
  if decide (cap = 0%N) then
    lfu.NewCache (K:=K) (V:=V) cap = (None, Some "must provide a positive size")
  else
    ∃ c : lfu.Cache K V,
      lfu.NewCache cap = (Some c, None) ∧
      lfu.capacity c = cap ∧ lfu.frequencies c = ∅ ∧
      lfu.minFrequency c = 0%N ∧
      (∀ k, lfu.Get c k = Done (c, (inhabitant, false)) ∧
            lfu.Remove c k = Done (c, false)) ∧
      (∀ k v, ∃ c',
         lfu.Add c k v = Done (c', (false, false)) ∧
         lfu.peek c' k = Some v ∧ lfu.frequency_of c' k = Some 1%N ∧
         lfu.minFrequency c' = 1%N ∧
         (∀ f, lfu.bucket_keys c' f = if decide (f = 1%N) then [k] else [])).
Proof.
  unfold lfu.NewCache. case_decide as Hcap.
  - subst cap. reflexivity.
  - destruct (N.leb_spec cap 0) as [Hle|Hlt]; [lia|].
    eexists. split; [reflexivity|]. split_and!; [done..| |].
    + intros k. unfold lfu.Get, lfu.Remove. simpl.
      by rewrite lookup_empty.
    + intros k v. unfold lfu.Add. simpl. rewrite lookup_empty. simpl.
      rewrite map_size_empty.
      destruct (N.leb_spec cap (N.of_nat 0)) as [Hle0|Hgt0]; [lia|]. simpl.
      unfold lfu.addToFrequency. simpl. rewrite lookup_empty. simpl.
      eexists. split; [reflexivity|].
      unfold lfu.peek, lfu.frequency_of, lfu.bucket_keys. simpl.
      rewrite !insert_empty, lookup_singleton_eq. simpl.
      rewrite lookup_singleton_eq. simpl. split_and!; [done..|].
      intros f. destruct (decide (f = 1%N)) as [->|Hf].
      * rewrite !lookup_alter_eq, lookup_singleton_eq. simpl.
        rewrite map_size_singleton. simpl. by rewrite lookup_singleton_eq.
      * by rewrite !lookup_alter_ne, lookup_singleton_ne.
Qed.
End fresh.

(** ** The theorems above at concrete states

    Each lemma applies one theorem to a state of [scenario]: the LRU
    cache of capacity 2 that holds ["a"], the LFU cache of capacity 1
    that holds ["k1"], or the empty LFU cache of capacity 2. *)

Section instances.
Import scenario.
Open Scope string_scope.

Ltac lru_a_reachable :=
  apply (lru.reach_Add lru_new2 "a" 1 lru_a (false, false));
  [apply (lru.reach_NewCache 2); reflexivity | vm_compute; reflexivity].

Ltac lfu_k1_reachable :=
  apply (lfu.reach_Add (lfu_new 1) "k1" 1 lfu_k1 (false, false));
  [apply (lfu.reach_NewCache 1); reflexivity | vm_compute; reflexivity].

Ltac lfu_new2_reachable := apply (lfu.reach_NewCache 2); reflexivity.

Lemma lru_total_witness :
  completes (lru.Get lru_a "a") ∧ completes (lru.Add lru_a "a" 5) ∧
  completes (lru.Remove lru_a "a").
Proof. apply (lru_total lru_a "a" 5). lru_a_reachable. Defined.

Lemma lru_Get_conforms_witness :
  ∃ c',
    lru.Get lru_a "a" = Done (c', match lru.peek lru_a "a" with
                                  | Some v => (v, true)
                                  | None => (inhabitant, false)
                                  end) ∧
    (lru.peek lru_a "a" = None ↔ lru.data lru_a !! "a" = None) ∧
    lru.data c' = lru.data lru_a ∧ lru.capacity c' = lru.capacity lru_a ∧
    (∀ k', lru.peek c' k' = lru.peek lru_a k') ∧
    (lru.data lru_a !! "a" = None → c' = lru_a).
Proof. apply (lru_Get_conforms lru_a "a"). lru_a_reachable. Defined.

Lemma lru_Add_effect_witness :
  ∃ c' evicted rewritten,
    lru.Add lru_a "b" 2 = Done (c', (evicted, rewritten)) ∧
    lru.peek c' "b" = Some 2 ∧
    (evicted = true → ∃ k', lru.oldest lru_a = Some k' ∧ k' ≠ "b") ∧
    (∀ k', k' ≠ "b" →
       lru.peek c' k' = if decide (evicted = true ∧ lru.oldest lru_a = Some k')
                        then None else lru.peek lru_a k').
Proof. apply (lru_Add_effect lru_a "b" 2). lru_a_reachable. Defined.

Lemma lru_Add_Get_roundtrip_witness :
  ∃ c1 r c2,
    lru.Add lru_a "b" 2 = Done (c1, r) ∧ lru.Get c1 "b" = Done (c2, (2, true)).
Proof. apply (lru_Add_Get_roundtrip lru_a "b" 2). lru_a_reachable. Defined.

Lemma lru_recency_index_witness :
  NoDup (lru.recency lru_a) ∧
  length (lru.recency lru_a) = size (lru.data lru_a) ∧
  (∀ k, k ∈ lru.recency lru_a ↔ is_Some (lru.data lru_a !! k)) ∧
  lru.oldest lru_a = last (lru.recency lru_a).
Proof. apply (lru_recency_index lru_a). lru_a_reachable. Defined.

Lemma lru_Get_recency_witness :
  ∃ c' v,
    lru.Get lru_a "a" = Done (c', (v, true)) ∧ lru.peek lru_a "a" = Some v ∧
    lru.recency c' = "a" :: filter (λ x, x ≠ "a") (lru.recency lru_a).
Proof.
  apply (lru_Get_recency lru_a "a").
  - lru_a_reachable.
  - vm_compute. eexists. reflexivity.
Defined.

Lemma lru_Add_recency_witness :
  ∃ c' r,
    lru.Add lru_a "b" 2 = Done (c', r) ∧
    match lru.data lru_a !! "b" with
    | Some _ =>
        r = (false, true) ∧
        lru.recency c' = "b" :: filter (λ x, x ≠ "b") (lru.recency lru_a)
    | None =>
        if decide (N.of_nat (size (lru.data lru_a)) = lru.capacity lru_a) then
          r = (true, false) ∧
          lru.recency c' = "b" :: removelast (lru.recency lru_a)
        else
          r = (false, false) ∧ lru.recency c' = "b" :: lru.recency lru_a
    end.
Proof. apply (lru_Add_recency lru_a "b" 2). lru_a_reachable. Defined.

Lemma lru_Remove_recency_witness :
  ∃ c' removed,
    lru.Remove lru_a "a" = Done (c', removed) ∧
    lru.recency c' = filter (λ x, x ≠ "a") (lru.recency lru_a).
Proof. apply (lru_Remove_recency lru_a "a"). lru_a_reachable. Defined.

Lemma lfu_frequencies_never_shrink_witness :
  is_Some (lfu.frequencies lfu_k1_removed !! 1%N).
Proof.
  apply (lfu_frequencies_never_shrink
           lfu_k1 (CallRemove "k1") lfu_k1_removed (Removed true) 1%N).
  - lfu_k1_reachable.
  - vm_compute. reflexivity.
  - vm_compute. eexists. reflexivity.
Defined.

Lemma lfu_minFrequency_stuck_witness :
  lfu.minFrequency lfu_k1 = 0%N ∨ lfu.minFrequency lfu_k1 = 1%N.
Proof. apply (lfu_minFrequency_stuck lfu_k1). lfu_k1_reachable. Defined.

Lemma lfu_Get_outcome_witness :
  if decide (is_Some (lfu.frequencies lfu_k1 !! wrap (1 + 1)) ∧
             wrap (1 + 1) ∉ lfu.live_frequencies lfu_k1) then
    lfu.Get lfu_k1 "k1" = Panic NilDereference
  else
    ∃ c' v,
      lfu.Get lfu_k1 "k1" = Done (c', (v, true)) ∧
      lfu.peek lfu_k1 "k1" = Some v ∧
      lfu.data c' = lfu.data lfu_k1 ∧
      lfu.frequency_of c' "k1" = Some (wrap (1 + 1)) ∧
      (∀ k', lfu.peek c' k' = lfu.peek lfu_k1 k') ∧
      (∀ k', k' ≠ "k1" →
         lfu.frequency_of c' k' = lfu.frequency_of lfu_k1 k').
Proof.
  apply (lfu_Get_outcome lfu_k1 "k1" 1%N).
  - lfu_k1_reachable.
  - vm_compute. reflexivity.
Defined.

Lemma lfu_Add_rewrite_outcome_witness :
  if decide (is_Some (lfu.frequencies lfu_k1 !! wrap (1 + 1)) ∧
             wrap (1 + 1) ∉ lfu.live_frequencies lfu_k1) then
    lfu.Add lfu_k1 "k1" 7 = Panic NilDereference
  else
    ∃ c',
      lfu.Add lfu_k1 "k1" 7 = Done (c', (false, true)) ∧
      lfu.data c' = lfu.data lfu_k1 ∧
      lfu.peek c' "k1" = Some 7 ∧
      lfu.frequency_of c' "k1" = Some (wrap (1 + 1)) ∧
      (∀ k', k' ≠ "k1" →
         lfu.peek c' k' = lfu.peek lfu_k1 k' ∧
         lfu.frequency_of c' k' = lfu.frequency_of lfu_k1 k').
Proof.
  apply (lfu_Add_rewrite_outcome lfu_k1 "k1" 7 1%N).
  - lfu_k1_reachable.
  - vm_compute. reflexivity.
Defined.

Lemma lfu_Add_new_spare_witness :
  if decide (is_Some (lfu.frequencies (lfu_new 2) !! 1%N) ∧
             1%N ∉ lfu.live_frequencies (lfu_new 2)) then
    lfu.Add (lfu_new 2) "k1" 1 = Panic NilDereference
  else
    ∃ c',
      lfu.Add (lfu_new 2) "k1" 1 = Done (c', (false, false)) ∧
      lfu.data c' = <["k1" := lfu.brk (lfu_new 2)]> (lfu.data (lfu_new 2)) ∧
      lfu.peek c' "k1" = Some 1 ∧ lfu.frequency_of c' "k1" = Some 1%N ∧
      lfu.minFrequency c' = 1%N ∧
      (∀ k', k' ≠ "k1" →
         lfu.peek c' k' = lfu.peek (lfu_new 2) k' ∧
         lfu.frequency_of c' k' = lfu.frequency_of (lfu_new 2) k').
Proof.
  apply (lfu_Add_new_spare (lfu_new 2) "k1" 1).
  - lfu_new2_reachable.
  - reflexivity.
  - vm_compute. reflexivity.
Defined.

Lemma lfu_Add_new_full_witness :
  ((∃ k1 k2, k1 ≠ k2 ∧ lfu.frequency_of lfu_k1 k1 = Some 1%N ∧
             lfu.frequency_of lfu_k1 k2 = Some 1%N) →
   ∃ c' victim,
     lfu.Add lfu_k1 "k2" 2 = Done (c', (true, false)) ∧ victim ≠ "k2" ∧
     lfu.frequency_of lfu_k1 victim = Some 1%N ∧
     lfu.data c' = <["k2" := lfu.brk lfu_k1]> (delete victim (lfu.data lfu_k1)) ∧
     lfu.peek c' "k2" = Some 2 ∧ lfu.frequency_of c' "k2" = Some 1%N ∧
     (∀ k', k' ≠ "k2" → k' ≠ victim →
        lfu.peek c' k' = lfu.peek lfu_k1 k' ∧
        lfu.frequency_of c' k' = lfu.frequency_of lfu_k1 k')) ∧
  (¬ (∃ k1 k2, k1 ≠ k2 ∧ lfu.frequency_of lfu_k1 k1 = Some 1%N ∧
               lfu.frequency_of lfu_k1 k2 = Some 1%N) →
   lfu.Add lfu_k1 "k2" 2 = Panic NilDereference).
Proof.
  apply (lfu_Add_new_full lfu_k1 "k2" 2).
  - lfu_k1_reachable.
  - reflexivity.
  - vm_compute. reflexivity.
Defined.

Lemma lfu_bucket_keys_index_witness :
  NoDup (lfu.bucket_keys lfu_k1 1%N) ∧
  (∀ k, k ∈ lfu.bucket_keys lfu_k1 1%N ↔ lfu.frequency_of lfu_k1 k = Some 1%N).
Proof. apply (lfu_bucket_keys_index lfu_k1 1%N). lfu_k1_reachable. Defined.

Lemma lfu_Get_buckets_witness :
  lfu.bucket_keys lfu_k1_got (wrap (1 + 1))
    = "k1" :: lfu.bucket_keys lfu_k1 (wrap (1 + 1)) ∧
  lfu.bucket_keys lfu_k1_got 1%N
    = filter (λ x, x ≠ "k1") (lfu.bucket_keys lfu_k1 1%N) ∧
  (∀ g, g ≠ 1%N → g ≠ wrap (1 + 1) →
     lfu.bucket_keys lfu_k1_got g = lfu.bucket_keys lfu_k1 g).
Proof.
  apply (lfu_Get_buckets lfu_k1 "k1" 1%N lfu_k1_got (1, true)).
  - lfu_k1_reachable.
  - vm_compute. reflexivity.
  - vm_compute. reflexivity.
Defined.

Lemma lfu_Add_rewrite_buckets_witness :
  lfu.bucket_keys lfu_k1_rewritten (wrap (1 + 1))
    = "k1" :: lfu.bucket_keys lfu_k1 (wrap (1 + 1)) ∧
  lfu.bucket_keys lfu_k1_rewritten 1%N
    = filter (λ x, x ≠ "k1") (lfu.bucket_keys lfu_k1 1%N) ∧
  (∀ g, g ≠ 1%N → g ≠ wrap (1 + 1) →
     lfu.bucket_keys lfu_k1_rewritten g = lfu.bucket_keys lfu_k1 g).
Proof.
  apply (lfu_Add_rewrite_buckets
           lfu_k1 "k1" 7 1%N lfu_k1_rewritten (false, true)).
  - lfu_k1_reachable.
  - vm_compute. reflexivity.
  - vm_compute. reflexivity.
Defined.

Lemma lfu_Add_new_buckets_witness :
  lfu.bucket_keys lfu2_k1 1%N
    = "k1" :: (if (false, false).1
               then removelast (lfu.bucket_keys (lfu_new 2) 1%N)
               else lfu.bucket_keys (lfu_new 2) 1%N) ∧
  (∀ g, g ≠ 1%N → lfu.bucket_keys lfu2_k1 g = lfu.bucket_keys (lfu_new 2) g) ∧
  ((false, false).1 = true →
   ∃ victim, last (lfu.bucket_keys (lfu_new 2) 1%N) = Some victim ∧
             lfu.data lfu2_k1
             = <["k1" := lfu.brk (lfu_new 2)]>
                 (delete victim (lfu.data (lfu_new 2)))).
Proof.
  apply (lfu_Add_new_buckets (lfu_new 2) "k1" 1 lfu2_k1 (false, false)).
  - lfu_new2_reachable.
  - reflexivity.
  - vm_compute. reflexivity.
Defined.

Lemma lfu_Remove_buckets_witness :
  ∃ c' removed,
    lfu.Remove lfu_k1 "k1" = Done (c', removed) ∧
    ∀ g, lfu.bucket_keys c' g
         = filter (λ x, x ≠ "k1") (lfu.bucket_keys lfu_k1 g).
Proof. apply (lfu_Remove_buckets lfu_k1 "k1"). lfu_k1_reachable. Defined.
End instances.
